(** * lingo-dev news aggregator: article store, scheduler, translation queue, metrics

    A shallow embedding of the server core (db.ts, scheduler.ts, the
    translation queue and the metrics log) and the properties its
    specification states about it. *)

From Stdlib Require Import ZArith NArith List Bool Lia Ascii String.
From stdpp Require Import base option list gmap.
Import ListNotations.

Local Open Scope N_scope.

(** ** JavaScript strings

    A JS string is a sequence of UTF-16 code units; [length], [slice],
    [trim] and non-unicode regular expressions all work on code units. *)

Abbreviation jsstring := (list N).

(** An ASCII literal as a JS string. *)
Definition str (s : string) : jsstring :=
  map N_of_ascii (list_ascii_of_string s).

(** [WhiteSpace] and [LineTerminator] of ECMAScript: what [\s] matches and
    what [String.prototype.trim] removes. *)
Definition isWhitespace (c : N) : bool :=
  (c =? 9) || (c =? 10) || (c =? 11) || (c =? 12) || (c =? 13) || (c =? 32)
  || (c =? 160) || (c =? 5760) || ((8192 <=? c) && (c <=? 8202))
  || (c =? 8232) || (c =? 8233) || (c =? 8239) || (c =? 8287)
  || (c =? 12288) || (c =? 65279).

Fixpoint trimStart (s : jsstring) : jsstring :=
  match s with
  | c :: r => if isWhitespace c then trimStart r else s
  | [] => []
  end.

Definition trimEnd (s : jsstring) : jsstring := rev (trimStart (rev s)).

(** [String.prototype.trim]. *)
Definition trim (s : jsstring) : jsstring := trimEnd (trimStart s).

(** [String.prototype.slice(0, n)]. *)
Definition slice0 (n : nat) (s : jsstring) : jsstring := take n s.

(** Decimal rendering of a non-negative integer (template literals). *)
Fixpoint digitsOf (fuel : nat) (n : N) (acc : jsstring) : jsstring :=
  match fuel with
  | O => acc
  | S f =>
    let acc' := (48 + n mod 10) :: acc in
    if n / 10 =? 0 then acc' else digitsOf f (n / 10) acc'
  end.

Definition numberToString (n : N) : jsstring :=
  digitsOf (S (N.to_nat (N.log2 n))) n [].

(** ** SHA-256 (FIPS 180-4), as computed by
    [createHash("sha256").update(s).digest("hex")] *)

Module Sha256.

Definition w32 (x : N) : N := N.land x 4294967295.
Definition add32 (x y : N) : N := w32 (x + y).
Definition rotr (n x : N) : N :=
  N.lor (N.shiftr x n) (w32 (N.shiftl x (32 - n))).
Definition not32 (x : N) : N := N.lxor x 4294967295.

Definition Ch (x y z : N) : N := N.lxor (N.land x y) (N.land (not32 x) z).
Definition Maj (x y z : N) : N :=
  N.lxor (N.lxor (N.land x y) (N.land x z)) (N.land y z).
Definition bigSigma0 (x : N) : N :=
  N.lxor (N.lxor (rotr 2 x) (rotr 13 x)) (rotr 22 x).
Definition bigSigma1 (x : N) : N :=
  N.lxor (N.lxor (rotr 6 x) (rotr 11 x)) (rotr 25 x).
Definition smallSigma0 (x : N) : N :=
  N.lxor (N.lxor (rotr 7 x) (rotr 18 x)) (N.shiftr x 3).
Definition smallSigma1 (x : N) : N :=
  N.lxor (N.lxor (rotr 17 x) (rotr 19 x)) (N.shiftr x 10).

(** The first 64 primes. *)
Definition primes : list N :=
  [ 2; 3; 5; 7; 11; 13; 17; 19; 23; 29; 31; 37; 41; 43; 47; 53;
    59; 61; 67; 71; 73; 79; 83; 89; 97; 101; 103; 107; 109; 113; 127; 131;
    137; 139; 149; 151; 157; 163; 167; 173; 179; 181; 191; 193; 197; 199;
    211; 223; 227; 229; 233; 239; 241; 251; 257; 263; 269; 271; 277; 281;
    283; 293; 307; 311 ].

(** Integer cube root on [bits] bits, most significant bit first. *)
Fixpoint cbrtBits (bits : nat) (n acc : N) : N :=
  match bits with
  | O => acc
  | S b =>
    let cand := acc + 2 ^ N.of_nat b in
    cbrtBits b n (if cand * cand * cand <=? n then cand else acc)
  end.

(** The round constants: the first 32 bits of the fractional parts of the
    cube roots of the primes. *)
Definition K : list N :=
  map (fun p => w32 (cbrtBits 36 (p * 2 ^ 96) 0)) primes.

(** The initial hash value: the same for the square roots of the first
    eight primes. *)
Definition H0 : list N :=
  map (fun p => w32 (N.sqrt (p * 2 ^ 64))) (take 8 primes).

(** UTF-8 bytes of a string of UTF-16 code units; an unpaired surrogate
    is encoded as U+FFFD. *)
Definition utf8_point (p : N) : list N :=
  if p <? 128 then [p]
  else if p <? 2048 then [192 + p / 64; 128 + p mod 64]
  else if p <? 65536 then
    [224 + p / 4096; 128 + (p / 64) mod 64; 128 + p mod 64]
  else
    [240 + p / 262144; 128 + (p / 4096) mod 64;
     128 + (p / 64) mod 64; 128 + p mod 64].

Definition isHighSurrogate (c : N) : bool := (55296 <=? c) && (c <=? 56319).
Definition isLowSurrogate (c : N) : bool := (56320 <=? c) && (c <=? 57343).

Fixpoint utf8 (s : jsstring) : list N :=
  match s with
  | [] => []
  | c :: r =>
    if isHighSurrogate c then
      match r with
      | d :: r' =>
        if isLowSurrogate d
        then utf8_point (65536 + (c - 55296) * 1024 + (d - 56320)) ++ utf8 r'
        else utf8_point 65533 ++ utf8 r
      | [] => utf8_point 65533
      end
    else if isLowSurrogate c then utf8_point 65533 ++ utf8 r
    else utf8_point c ++ utf8 r
  end.

(** Padding: a one bit, zeros, and the bit length on 64 bits. *)
Definition be64 (n : N) : list N :=
  map (fun i => (n / 2 ^ (8 * i)) mod 256) [7; 6; 5; 4; 3; 2; 1; 0].

Definition pad (msg : list N) : list N :=
  let len := N.of_nat (length msg) in
  let k := (64 - (len + 9) mod 64) mod 64 in
  msg ++ [128] ++ repeat 0 (N.to_nat k) ++ be64 (8 * len).

Fixpoint wordsOf (fuel : nat) (bytes : list N) : list N :=
  match fuel, bytes with
  | S f, a :: b :: c :: d :: r =>
    (a * 16777216 + b * 65536 + c * 256 + d) :: wordsOf f r
  | _, _ => []
  end.

(** Message schedule, kept most recent word first. *)
Fixpoint extend (n : nat) (ws : list N) : list N :=
  match n with
  | O => ws
  | S n' =>
    let x :=
      add32 (add32 (smallSigma1 (nth 1 ws 0)) (nth 6 ws 0))
            (add32 (smallSigma0 (nth 14 ws 0)) (nth 15 ws 0)) in
    extend n' (x :: ws)
  end.

Definition schedule (block : list N) : list N :=
  rev (extend 48 (rev block)).

Record Regs := mkRegs { ra : N; rb : N; rc : N; rd : N;
                        re : N; rf : N; rg : N; rh : N }.

Definition round (s : Regs) (kw : N * N) : Regs :=
  let t1 := add32 (add32 (add32 (add32 (rh s) (bigSigma1 (re s)))
                                (Ch (re s) (rf s) (rg s))) (fst kw)) (snd kw) in
  let t2 := add32 (bigSigma0 (ra s)) (Maj (ra s) (rb s) (rc s)) in
  mkRegs (add32 t1 t2) (ra s) (rb s) (rc s) (add32 (rd s) t1) (re s) (rf s) (rg s).

Definition regsOf (h : list N) : Regs :=
  mkRegs (nth 0 h 0) (nth 1 h 0) (nth 2 h 0) (nth 3 h 0)
         (nth 4 h 0) (nth 5 h 0) (nth 6 h 0) (nth 7 h 0).

Definition listOf (s : Regs) : list N :=
  [ra s; rb s; rc s; rd s; re s; rf s; rg s; rh s].

Definition compress (h : list N) (block : list N) : list N :=
  let s := fold_left round (combine K (schedule block)) (regsOf h) in
  map (fun p => add32 (fst p) (snd p)) (combine h (listOf s)).

Fixpoint blocks (fuel : nat) (ws : list N) (h : list N) : list N :=
  match fuel, ws with
  | S f, _ :: _ => blocks f (drop 16 ws) (compress h (take 16 ws))
  | _, _ => h
  end.

Definition digest (msg : list N) : list N :=
  let bytes := pad msg in
  let ws := wordsOf (length bytes) bytes in
  blocks (length ws) ws H0.

Definition hexDigit (d : N) : N := if d <? 10 then 48 + d else 87 + d.

Definition hexWord (x : N) : jsstring :=
  map (fun i => hexDigit ((x / 16 ^ i) mod 16)) [7; 6; 5; 4; 3; 2; 1; 0].

Definition hex (s : jsstring) : jsstring :=
  concat (map hexWord (digest (utf8 s))).

End Sha256.

Arguments Sha256.hex : simpl never.

(** ** JavaScript values

    The values the feed parser (xml2js) hands to the scheduler, and the
    few operators of the language the program applies to them. *)

#[local] Set Warnings "-register-all".
Inductive jsval : Type :=
| VUndefined
| VNull
| VStr (s : jsstring)
| VArr (items : list jsval)
| VObj (props : list (jsstring * jsval))
| VFun.

(** Completion of a computation that may throw; [err] is the message of
    the thrown error. *)
Inductive Res (A : Type) : Type :=
| Ok (a : A)
| Throw (err : jsstring).
Arguments Ok {A} a.
Arguments Throw {A} err.

Definition truthy (v : jsval) : bool :=
  match v with
  | VUndefined | VNull | VStr [] => false
  | _ => true
  end.

(** [a || b] *)
Definition jsOr (a b : jsval) : jsval := if truthy a then a else b.

Definition typeofString (v : jsval) : bool :=
  match v with VStr _ => true | _ => false end.

Definition isArray (v : jsval) : bool :=
  match v with VArr _ => true | _ => false end.

Fixpoint assocGet {V : Type} (k : jsstring) (m : list (jsstring * V)) : option V :=
  match m with
  | [] => None
  | (k', v) :: r => if decide (k' = k) then Some v else assocGet k r
  end.

(** [v.name] for a [v] that is neither [null] nor [undefined]: an own
    property of an object; on a string the only name the program reads
    that String.prototype defines is [link]. *)
Definition propOf (v : jsval) (name : jsstring) : jsval :=
  match v with
  | VObj props => default VUndefined (assocGet name props)
  | VStr _ => if decide (name = str "link") then VFun else VUndefined
  | _ => VUndefined
  end.

Definition isNullish (v : jsval) : bool :=
  match v with VUndefined | VNull => true | _ => false end.

(** [v.name] *)
Definition getProp (v : jsval) (name : jsstring) : Res jsval :=
  if isNullish v
  then Throw (str "Cannot read properties of undefined")
  else Ok (propOf v name).

(** [v?.name] *)
Definition optProp (v : jsval) (name : jsstring) : jsval :=
  if isNullish v then VUndefined else propOf v name.

(** ** db.ts: the in-memory article database

    The map holds references to article objects.  An article object is
    built at one place, in the loop of [fetchAndStoreFeed], with a fresh
    [translations] object, and the only write to a stored article is the
    one of [storeTranslation], to its [translations]; the arrays the
    translation queue works on hold the same objects, of which it reads the
    fields that never change.  So no two entries share an object, and an
    entry is modelled by the value of its article. *)

Record Translation := {
  tr_title : jsstring;
  tr_description : jsstring;
  translatedAt : jsstring;
}.

Record StoredArticle := {
  id : jsstring;
  guid : jsval;
  title : jsstring;
  description : jsstring;
  link : jsval;
  pubDate : jsval;
  category : jsstring;
  subcategory : jsstring;
  source : jsstring;
  sourceLocale : jsstring;
  ingestedAt : jsstring;
  (* a plain object, created as [{}], used as a map from locale codes to
     entries: its own properties by name and, under the name [__proto__],
     the entry that an assignment to [__proto__] has made its prototype
     (see [lookupTranslation]) *)
  translations : gmap jsstring Translation;
}.

Record FeedCacheEntry := {
  etag : option jsstring;
  lastModified : option jsstring;
}.

(** ** metrics.ts *)

Record FetchMetric := {
  feedUrl : jsstring;
  m_source : jsstring;
  timestamp : Z;
  durationMs : Z;
  articlesAdded : nat;
  totalArticlesInFeed : nat;
  skipped304 : bool;
  error : option jsstring;
}.

(** ** Calls a task makes, in order (instrumentation of the model). *)

Inductive Call : Type :=
| CFetch (url : jsstring) (headers : list (jsstring * jsstring))
| CSetFeedCache (url : jsstring) (entry : FeedCacheEntry)
| CUpsertArticle (article : StoredArticle)
| CTriggerQueueProcessing
| CLogFetchMetric (metric : FetchMetric)
| CLocalizeObject (textObj : gmap jsstring jsstring) (src tgt : jsstring)
| CStoreTranslation (articleId locale ttl desc : jsstring)
| CSleep (ms : N).

(** ** The state of the process

    [articles], [feedCache] (db.ts), [metricsLog] (metrics.ts),
    [isProcessing] and [lingoDotDev] (translator.ts) are the module-level
    variables of the program.  A [Map] iterates in insertion order, so
    [articles] is kept as the list of its entries in that order.  [tick]
    counts the consultations of the outside world (clock, network,
    translation provider) and [calls] records the calls made. *)

Record World := {
  articles : list (jsstring * StoredArticle);
  feedCache : gmap jsstring FeedCacheEntry;
  metricsLog : list FetchMetric;
  isProcessing : bool;
  lingoDotDev : bool;
  tick : nat;
  calls : list Call;
}.

Definition initialWorld : World :=
  {| articles := []; feedCache := ∅; metricsLog := [];
     isProcessing := false; lingoDotDev := false; tick := 0%nat; calls := [] |}.

Definition set_articles (f : list (jsstring * StoredArticle) -> list (jsstring * StoredArticle))
    (w : World) : World :=
  {| articles := f (articles w); feedCache := feedCache w;
     metricsLog := metricsLog w; isProcessing := isProcessing w;
     lingoDotDev := lingoDotDev w; tick := tick w; calls := calls w |}.

Definition set_feedCache (f : gmap jsstring FeedCacheEntry -> gmap jsstring FeedCacheEntry)
    (w : World) : World :=
  {| articles := articles w; feedCache := f (feedCache w);
     metricsLog := metricsLog w; isProcessing := isProcessing w;
     lingoDotDev := lingoDotDev w; tick := tick w; calls := calls w |}.

Definition set_metricsLog (f : list FetchMetric -> list FetchMetric)
    (w : World) : World :=
  {| articles := articles w; feedCache := feedCache w;
     metricsLog := f (metricsLog w); isProcessing := isProcessing w;
     lingoDotDev := lingoDotDev w; tick := tick w; calls := calls w |}.

Definition set_isProcessing (b : bool) (w : World) : World :=
  {| articles := articles w; feedCache := feedCache w;
     metricsLog := metricsLog w; isProcessing := b;
     lingoDotDev := lingoDotDev w; tick := tick w; calls := calls w |}.

Definition set_lingoDotDev (b : bool) (w : World) : World :=
  {| articles := articles w; feedCache := feedCache w;
     metricsLog := metricsLog w; isProcessing := isProcessing w;
     lingoDotDev := b; tick := tick w; calls := calls w |}.

Definition next_tick (w : World) : World :=
  {| articles := articles w; feedCache := feedCache w;
     metricsLog := metricsLog w; isProcessing := isProcessing w;
     lingoDotDev := lingoDotDev w; tick := S (tick w); calls := calls w |}.

Definition record_call (c : Call) (w : World) : World :=
  {| articles := articles w; feedCache := feedCache w;
     metricsLog := metricsLog w; isProcessing := isProcessing w;
     lingoDotDev := lingoDotDev w; tick := tick w; calls := calls w ++ [c] |}.

(** ** The outside world

    What the clock, the network and the translation provider answer at
    each consultation, and which articles the feed tasks that run while
    the translation queue is suspended hand to [upsertArticle]. *)

Record Response := {
  status : N;
  statusText : jsstring;
  header_etag : option jsstring;          (* headers.get("etag") *)
  header_lastModified : option jsstring;  (* headers.get("last-modified") *)
  parsedBody : Res jsval;  (* parseStringPromise(await response.text(), ...) *)
}.

Record Env := {
  clock : nat -> Z;
  toISOString : Z -> jsstring;
  fetchResult : nat -> jsstring -> list (jsstring * jsstring) -> Res Response;
  localizeObject :
    nat -> gmap jsstring jsstring -> jsstring -> jsstring ->
    Res (gmap jsstring jsstring);
  ingested : nat -> list StoredArticle;
}.

(** ** State and exceptions *)

Definition M (A : Type) : Type := World -> Res A * World.

#[global] Instance M_ret : MRet M := fun A a w => (Ok a, w).
#[global] Instance M_bind : MBind M := fun A B f c w =>
  match c w with
  | (Ok a, w') => f a w'
  | (Throw e, w') => (Throw e, w')
  end.

Definition throw {A : Type} (e : jsstring) : M A := fun w => (Throw e, w).

(** [try { body } catch (err) { handler }] *)
Definition tryCatch {A : Type} (body : M A) (handler : jsstring -> M A) : M A :=
  fun w =>
    match body w with
    | (Ok a, w') => (Ok a, w')
    | (Throw e, w') => handler e w'
    end.

Definition gets {A : Type} (f : World -> A) : M A := fun w => (Ok (f w), w).
Definition modify (f : World -> World) : M unit := fun w => (Ok tt, f w).
Definition liftRes {A : Type} (r : Res A) : M A := fun w => (r, w).

(** [for (const x of xs) body(x)] *)
Fixpoint forEach {A : Type} (xs : list A) (body : A -> M unit) : M unit :=
  match xs with
  | [] => mret tt
  | x :: r => body x ≫= fun _ => forEach r body
  end.

Definition run {A : Type} (c : M A) (w : World) : World := snd (c w).

(** [Date.now()] and [new Date()] *)
Definition dateNow (env : Env) : M Z :=
  fun w => (Ok (clock env (tick w)), next_tick w).

(** ** db.ts *)

(** [createHash("sha256").update(data).digest("hex")]: [update] accepts a
    string and rejects the other values of the model. *)
Definition sha256Hex (data : jsval) : Res jsstring :=
  match data with
  | VStr s => Ok (Sha256.hex s)
  | _ => Throw (str "The data argument must be of type string")
  end.

Definition generateArticleId (guid link : jsval) : Res jsstring :=
  match guid with
  | VStr g =>
    if truthy guid && bool_decide (0 < length (trim g))%nat
    then Ok (trim g)
    else sha256Hex (jsOr link (VStr []))
  | _ => sha256Hex (jsOr link (VStr []))
  end.

(** [Map.prototype.has], [get], [set], [values], [size]. *)
Definition mapHas {V : Type} (k : jsstring) (m : list (jsstring * V)) : bool :=
  match assocGet k m with Some _ => true | None => false end.

Fixpoint mapSet {V : Type} (k : jsstring) (v : V) (m : list (jsstring * V))
    : list (jsstring * V) :=
  match m with
  | [] => [(k, v)]
  | (k', v') :: r =>
    if decide (k' = k) then (k, v) :: r else (k', v') :: mapSet k v r
  end.

Definition mapValues {V : Type} (m : list (jsstring * V)) : list V := map snd m.

Definition upsertArticle (article : StoredArticle) (w : World) : bool * World :=
  if mapHas (id article) (articles w)
  then (false, w)
  else (true, set_articles (mapSet (id article) article) w).

Definition getArticle (articleId : jsstring) (w : World) : option StoredArticle :=
  assocGet articleId (articles w).

Definition getAllArticles (w : World) : list StoredArticle :=
  mapValues (articles w).

Definition getArticleCount (w : World) : nat := length (articles w).

(** The names of the members of [Object.prototype]. *)
Definition OBJECT_PROTOTYPE_NAMES : list string :=
  ["constructor"; "__defineGetter__"; "__defineSetter__"; "hasOwnProperty";
   "__lookupGetter__"; "__lookupSetter__"; "isPrototypeOf";
   "propertyIsEnumerable"; "toString"; "valueOf"; "__proto__";
   "toLocaleString"]%string.

Definition inObjectPrototype (name : jsstring) : bool :=
  existsb (fun n => bool_decide (str n = name)) OBJECT_PROTOTYPE_NAMES.

(** What [translations[name]] evaluates to. *)
Inductive Looked : Type :=
| LEntry (e : Translation)   (* an entry object *)
| LText (s : jsstring)       (* a field of the entry that is the prototype *)
| LObjectPrototype           (* a member of Object.prototype, or that object *)
| LUndefined.

(** [translations[name]]: an own property if there is one; for
    [__proto__] the prototype; else what the prototype chain gives, the
    entry that was made the prototype first and [Object.prototype]
    after it. *)
Definition lookupTranslation (o : gmap jsstring Translation) (name : jsstring)
    : Looked :=
  match o !! name with
  | Some e => LEntry e
  | None =>
    let inherited :=
      if inObjectPrototype name then LObjectPrototype else LUndefined in
    match o !! str "__proto__" with
    | Some p =>
      if bool_decide (name = str "title") then LText (tr_title p)
      else if bool_decide (name = str "description") then LText (tr_description p)
      else if bool_decide (name = str "translatedAt") then LText (translatedAt p)
      else inherited
    | None => inherited
    end
  end.

Definition truthyLooked (v : Looked) : bool :=
  match v with
  | LEntry _ | LObjectPrototype => true
  | LText s => match s with [] => false | _ => true end
  | LUndefined => false
  end.

(** [!article.translations[locale]] *)
Definition lacksTranslation (locale : jsstring) (a : StoredArticle) : bool :=
  negb (truthyLooked (lookupTranslation (translations a) locale)).

Definition getUntranslatedArticles (locale : jsstring) (w : World)
    : list StoredArticle :=
  List.filter (lacksTranslation locale) (mapValues (articles w)).

(** [article.translations[locale] = t]: an own property is created or
    overwritten; for [__proto__] the setter of [Object.prototype] makes
    [t] the prototype instead. *)
Definition withTranslation (locale : jsstring) (t : Translation)
    (a : StoredArticle) : StoredArticle :=
  {| id := id a; guid := guid a; title := title a;
     description := description a; link := link a; pubDate := pubDate a;
     category := category a; subcategory := subcategory a;
     source := source a; sourceLocale := sourceLocale a;
     ingestedAt := ingestedAt a;
     translations := <[locale := t]> (translations a) |}.

(** The article object is mutated in place: the entry of the map keeps
    its position and the other fields of the article. *)
Definition storeTranslation (env : Env) (articleId locale ttl desc : jsstring)
    (w : World) : World :=
  match assocGet articleId (articles w) with
  | Some article =>
    let now := toISOString env (clock env (tick w)) in
    set_articles
      (mapSet articleId
         (withTranslation locale
            {| tr_title := ttl; tr_description := desc; translatedAt := now |}
            article))
      (next_tick w)
  | None => w
  end.

Definition getFeedCache (feedUrl : jsstring) (w : World) : option FeedCacheEntry :=
  feedCache w !! feedUrl.

Definition setFeedCache (feedUrl : jsstring) (entry : FeedCacheEntry)
    (w : World) : World :=
  set_feedCache (fun c => <[feedUrl := entry]> c) w.

(** ** metrics.ts

    The line printed on the console is not part of the model. *)

Definition MAX_METRICS_HISTORY : nat := 500.

Definition logFetchMetric (metric : FetchMetric) (w : World) : World :=
  set_metricsLog
    (fun log =>
       let pushed := log ++ [metric] in
       if bool_decide (MAX_METRICS_HISTORY < length pushed)%nat
       then drop (length pushed - MAX_METRICS_HISTORY) pushed   (* splice(0, n) *)
       else pushed)
    w.

(** ** scheduler.ts *)

Record FeedConfig := {
  feed_url : jsstring;
  feed_category : jsstring;
  feed_subcategory : jsstring;
  feed_source : jsstring;
  pollIntervalMinutes : N;
  feed_sourceLocale : jsstring;
}.

(** [s.replace(re, repl)] for a global regular expression that never
    matches the empty string: [matchAt s] is the length of the match of
    the expression at the head of [s], if there is one.  [skip] counts the
    code units of the current match still to be consumed. *)
Fixpoint replaceAll (matchAt : jsstring -> option nat) (repl : jsstring)
    (skip : nat) (s : jsstring) : jsstring :=
  match s with
  | [] => []
  | c :: r =>
    match skip with
    | S k => replaceAll matchAt repl k r
    | O =>
      match matchAt s with
      | Some (S k) => repl ++ replaceAll matchAt repl k r
      | _ => c :: replaceAll matchAt repl O r
      end
    end
  end.

(** [[^>]*>] : up to and including the first [>]. *)
Fixpoint untilGt (s : jsstring) : option nat :=
  match s with
  | [] => None
  | c :: r => if c =? 62 then Some 1%nat else S <$> untilGt r
  end.

(** [/<[^>]*>/] *)
Definition matchTag (s : jsstring) : option nat :=
  match s with
  | c :: r => if c =? 60 then S <$> untilGt r else None
  | [] => None
  end.

Fixpoint isPrefix (p s : jsstring) : bool :=
  match p, s with
  | [], _ => true
  | a :: p', b :: s' => (a =? b) && isPrefix p' s'
  | _ :: _, [] => false
  end.

(** A literal pattern such as [/&amp;/]. *)
Definition matchLit (lit : jsstring) (s : jsstring) : option nat :=
  if isPrefix lit s then Some (length lit) else None.

Fixpoint wsRun (s : jsstring) : nat :=
  match s with
  | c :: r => if isWhitespace c then S (wsRun r) else O
  | [] => O
  end.

(** [/\s+/] *)
Definition matchWs (s : jsstring) : option nat :=
  match wsRun s with
  | O => None
  | n => Some n
  end.

Definition stripTags (s : jsstring) : jsstring := replaceAll matchTag [] 0 s.

Definition replaceLit (lit repl : string) (s : jsstring) : jsstring :=
  replaceAll (matchLit (str lit)) (str repl) 0 s.

Definition unescapeEntities (s : jsstring) : jsstring :=
  replaceLit "&#39;" "'"
    (replaceLit "&quot;" (String (ascii_of_nat 34) EmptyString)
       (replaceLit "&gt;" ">"
          (replaceLit "&lt;" "<"
             (replaceLit "&amp;" "&"
                (replaceLit "&nbsp;" " " s))))).

Definition collapseWhitespace (s : jsstring) : jsstring :=
  replaceAll matchWs (str " ") 0 s.

(** The chain of [replace], [trim] and [slice] applied to a string. *)
Definition cleanHtmlString (s : jsstring) : jsstring :=
  slice0 1000 (trim (collapseWhitespace (unescapeEntities (stripTags s)))).

Definition cleanHtml (v : jsval) : Res jsstring :=
  if negb (truthy v) then Ok []
  else match v with
       | VStr s => Ok (cleanHtmlString s)
       | _ => Throw (str "str.replace is not a function")
       end.

#[global] Instance Res_ret : MRet Res := fun A a => Ok a.
#[global] Instance Res_bind : MBind Res := fun A B f r =>
  match r with
  | Ok a => f a
  | Throw e => Throw e
  end.

(** [cache?.etag] used as a condition, [headers.get(name) || undefined]:
    an absent or empty string counts as absent. *)
Definition nonEmpty (o : option jsstring) : option jsstring :=
  match o with
  | Some (c :: r) => Some (c :: r)
  | _ => None
  end.

Definition present (o : option jsstring) : bool :=
  match o with Some _ => true | None => false end.

Definition requestHeaders (cache : option FeedCacheEntry)
    : list (jsstring * jsstring) :=
  [ (str "User-Agent", str "QNA-Aggregator/1.0 (RSS Reader)");
    (str "Accept", str "application/rss+xml, application/xml, text/xml, */*") ]
  ++ match cache ≫= fun c => nonEmpty (etag c) with
     | Some e => [(str "If-None-Match", e)]
     | None => []
     end
  ++ match cache ≫= fun c => nonEmpty (lastModified c) with
     | Some l => [(str "If-Modified-Since", l)]
     | None => []
     end.

(** [await fetch(url, { headers, signal })]: a response, or a thrown
    network error or timeout. *)
Definition awaitFetch (env : Env) (url : jsstring)
    (headers : list (jsstring * jsstring)) : M Response :=
  fun w => (fetchResult env (tick w) url headers,
            next_tick (record_call (CFetch url headers) w)).

(** [response.ok] *)
Definition responseOk (r : Response) : bool :=
  (200 <=? status r) && (status r <=? 299).

Definition elementsOf (v : jsval) : list jsval :=
  match v with VArr l => l | _ => [v] end.

(** The item list of an RSS 2.0 or an Atom document. *)
Definition feedItems (result : jsval) : Res (list jsval) :=
  rss ← getProp result (str "rss");
  if truthy (optProp rss (str "channel")) then
    channel ← getProp rss (str "channel");
    item ← getProp channel (str "item");
    mret (if truthy item then elementsOf item else [])
  else
    feed ← getProp result (str "feed");
    if truthy (optProp feed (str "entry")) then
      entry ← getProp feed (str "entry");
      mret (elementsOf entry)
    else mret [].

Definition rawGuidOf (item : jsval) : Res jsval :=
  g ← getProp item (str "guid");
  if truthy (optProp g (str "_")) then getProp g (str "_")
  else if typeofString g then mret g
  else i ← getProp item (str "id"); mret (jsOr i VNull).

Definition linkOf (item : jsval) : Res jsval :=
  l ← getProp item (str "link");
  if typeofString l then mret l
  else mret (jsOr (jsOr (optProp (optProp l (str "$")) (str "href"))
                        (optProp l (str "href")))
                  (VStr [])).

Definition titleOf (item : jsval) : Res jsval :=
  t ← getProp item (str "title");
  if typeofString t then mret t
  else mret (jsOr (optProp t (str "_")) (VStr [])).

Definition descriptionOf (item : jsval) : Res jsval :=
  d ← getProp item (str "description");
  s ← getProp item (str "summary");
  c ← getProp item (str "content");
  e ← getProp item (str "content:encoded");
  mret (jsOr (jsOr (jsOr (jsOr d s) (optProp c (str "_"))) e) (VStr [])).

Definition pubDateOf (item : jsval) : Res jsval :=
  p ← getProp item (str "pubDate");
  q ← getProp item (str "published");
  u ← getProp item (str "updated");
  mret (jsOr (jsOr (jsOr p q) u) (VStr [])).

Definition upsertArticleM (article : StoredArticle) : M bool :=
  fun w =>
    let r := upsertArticle article (record_call (CUpsertArticle article) w) in
    (Ok (fst r), snd r).

Definition setFeedCacheM (url : jsstring) (entry : FeedCacheEntry) : M unit :=
  modify (fun w => setFeedCache url entry (record_call (CSetFeedCache url entry) w)).

Definition logFetchMetricM (metric : FetchMetric) : M unit :=
  modify (fun w => logFetchMetric metric (record_call (CLogFetchMetric metric) w)).

(** [triggerQueueProcessing()] arms a one-second timer for
    [processQueue]; the timer itself is not part of the model. *)
Definition triggerQueueProcessing : M unit :=
  modify (record_call CTriggerQueueProcessing).

(** The body of the loop over the items: [true] when the article is new. *)
Definition ingestItem (env : Env) (feed : FeedConfig) (item : jsval) : M bool :=
  rawGuid ← liftRes (rawGuidOf item);
  lnk ← liftRes (linkOf item);
  ttl ← liftRes (titleOf item);
  desc ← liftRes (descriptionOf item);
  pub ← liftRes (pubDateOf item);
  aid ← liftRes (generateArticleId rawGuid lnk);
  cleanTitle ← liftRes (cleanHtml ttl);
  cleanDesc ← liftRes (cleanHtml desc);
  now ← dateNow env;
  upsertArticleM
    {| id := aid; guid := rawGuid; title := cleanTitle;
       description := cleanDesc; link := lnk; pubDate := pub;
       category := feed_category feed; subcategory := feed_subcategory feed;
       source := feed_source feed; sourceLocale := feed_sourceLocale feed;
       ingestedAt := toISOString env now; translations := ∅ |}.

Fixpoint ingestItems (env : Env) (feed : FeedConfig) (items : list jsval)
    (added : nat) : M nat :=
  match items with
  | [] => mret added
  | item :: r =>
    isNew ← ingestItem env feed item;
    ingestItems env feed r (if isNew : bool then S added else added)
  end.

Definition fetchAndStoreFeed (env : Env) (feed : FeedConfig) : M unit :=
  startTime ← dateNow env;
  tryCatch
    (cache ← gets (getFeedCache (feed_url feed));
     response ← awaitFetch env (feed_url feed) (requestHeaders cache);
     if status response =? 304 then
       ts ← dateNow env;
       t ← dateNow env;
       logFetchMetricM
         {| feedUrl := feed_url feed; m_source := feed_source feed;
            timestamp := ts; durationMs := (t - startTime)%Z;
            articlesAdded := 0; totalArticlesInFeed := 0;
            skipped304 := true; error := None |}
     else if negb (responseOk response) then
       throw (str "HTTP " ++ numberToString (status response) ++ str ": "
              ++ statusText response)
     else
       let newEtag := nonEmpty (header_etag response) in
       let newLastModified := nonEmpty (header_lastModified response) in
       (if present newEtag || present newLastModified
        then setFeedCacheM (feed_url feed)
               {| etag := newEtag; lastModified := newLastModified |}
        else mret tt);;
       result ← liftRes (parsedBody response);
       items ← liftRes (feedItems result);
       added ← ingestItems env feed items 0;
       (if bool_decide (0 < added)%nat then triggerQueueProcessing else mret tt);;
       ts ← dateNow env;
       t ← dateNow env;
       logFetchMetricM
         {| feedUrl := feed_url feed; m_source := feed_source feed;
            timestamp := ts; durationMs := (t - startTime)%Z;
            articlesAdded := added; totalArticlesInFeed := length items;
            skipped304 := false; error := None |})
    (fun err =>
       ts ← dateNow env;
       t ← dateNow env;
       logFetchMetricM
         {| feedUrl := feed_url feed; m_source := feed_source feed;
            timestamp := ts; durationMs := (t - startTime)%Z;
            articlesAdded := 0; totalArticlesInFeed := 0;
            skipped304 := false; error := Some err |}).

(** ** translator.ts: the translation queue *)

Definition ENABLED_LOCALES : list jsstring := [str "en"; str "ar"].
Definition BATCH_SIZE : nat := 20.
Definition BATCH_DELAY_MS : N := 2000.

Definition initTranslationQueue (w : World) : World := set_lingoDotDev true w.

(** While the queue is suspended the feed tasks may run; what they do to
    the article map is a sequence of [upsertArticle] calls. *)
Definition background (env : Env) : M unit :=
  fun w =>
    (Ok tt,
     fold_left (fun w' a => snd (upsertArticle a w'))
               (ingested env (tick w)) (next_tick w)).

(** [await lingoDotDev.localizeObject(textObj, { sourceLocale, targetLocale })] *)
Definition awaitLocalizeObject (env : Env) (textObj : gmap jsstring jsstring)
    (src tgt : jsstring) : M (gmap jsstring jsstring) :=
  fun w =>
    let w1 := record_call (CLocalizeObject textObj src tgt) w in
    (localizeObject env (tick w1) textObj src tgt, run (background env) w1).

(** [await sleep(ms)] *)
Definition sleep (env : Env) (ms : N) : M unit :=
  modify (record_call (CSleep ms));; background env.

Definition storeTranslationM (env : Env) (articleId locale ttl desc : jsstring)
    : M unit :=
  modify (fun w =>
    storeTranslation env articleId locale ttl desc
      (record_call (CStoreTranslation articleId locale ttl desc) w)).

Definition titleKey (a : StoredArticle) : jsstring := id a ++ str "__title".
Definition descKey (a : StoredArticle) : jsstring := id a ++ str "__desc".

Definition buildTextObj (batch : list StoredArticle) : gmap jsstring jsstring :=
  fold_left
    (fun o a => <[descKey a := description a]> (<[titleKey a := title a]> o))
    batch ∅.

(** [translated[key] || original] *)
Definition translatedOr (translated : gmap jsstring jsstring) (key : jsstring)
    (original : jsstring) : jsstring :=
  match translated !! key with
  | Some (c :: r) => c :: r
  | _ => original
  end.

(** [articles[0]?.sourceLocale || "en"] *)
Definition batchSourceLocale (batch : list StoredArticle) : jsstring :=
  match batch with
  | a :: _ => match sourceLocale a with [] => str "en" | l => l end
  | [] => str "en"
  end.

Definition translateBatch (env : Env) (batch : list StoredArticle)
    (targetLocale : jsstring) : M unit :=
  engine ← gets lingoDotDev;
  if negb engine then mret tt
  else
    tryCatch
      (translated ← awaitLocalizeObject env (buildTextObj batch)
                      (batchSourceLocale batch) targetLocale;
       forEach batch (fun a =>
         storeTranslationM env (id a) targetLocale
           (translatedOr translated (titleKey a) (title a))
           (translatedOr translated (descKey a) (description a))))
      (fun _ => mret tt).

(** [for (let i = 0; i < needsTranslation.length; i += BATCH_SIZE)];
    [fuel] bounds the number of iterations. *)
Fixpoint batchLoop (env : Env) (fuel : nat) (i : nat)
    (needsTranslation : list StoredArticle) (locale : jsstring) : M unit :=
  match fuel with
  | O => mret tt
  | S fuel' =>
    if bool_decide (i < length needsTranslation)%nat then
      translateBatch env (take BATCH_SIZE (drop i needsTranslation)) locale;;
      (if bool_decide (i + BATCH_SIZE < length needsTranslation)%nat
       then sleep env BATCH_DELAY_MS else mret tt);;
      batchLoop env fuel' (i + BATCH_SIZE) needsTranslation locale
    else mret tt
  end.

Definition needsTranslationOf (locale : jsstring)
    (untranslated : list StoredArticle) : list StoredArticle :=
  List.filter (fun a => negb (bool_decide (sourceLocale a = locale))) untranslated.

(** The body of the loop over [ENABLED_LOCALES]. *)
Definition processLocale (env : Env) (locale : jsstring) : M unit :=
  untranslated ← gets (getUntranslatedArticles locale);
  if bool_decide (length untranslated = 0)%nat then mret tt
  else
    let needsTranslation := needsTranslationOf locale untranslated in
    if bool_decide (length needsTranslation = 0)%nat then mret tt
    else batchLoop env (length needsTranslation) 0 needsTranslation locale.

(** [try { body } ... finally { fin }] *)
Definition finally {A : Type} (body : M A) (fin : World -> World) : M A :=
  fun w => let r := body w in (fst r, fin (snd r)).

Definition processQueue (env : Env) : M unit :=
  busy ← gets isProcessing;
  engine ← gets lingoDotDev;
  if busy || negb engine then mret tt
  else
    modify (set_isProcessing true);;
    finally
      (tryCatch (forEach ENABLED_LOCALES (processLocale env))
                (fun _ => mret tt))
      (set_isProcessing false).

(** ** Vocabulary of the statements *)

(** A call of one of the exported operations of db.ts and metrics.ts. *)
Inductive StoreOp : Type :=
| OpUpsertArticle (article : StoredArticle)
| OpStoreTranslation (articleId locale ttl desc : jsstring)
| OpSetFeedCache (url : jsstring) (entry : FeedCacheEntry)
| OpLogFetchMetric (metric : FetchMetric).

Definition applyOp (env : Env) (w : World) (op : StoreOp) : World :=
  match op with
  | OpUpsertArticle a => snd (upsertArticle a w)
  | OpStoreTranslation i l t d => storeTranslation env i l t d w
  | OpSetFeedCache u e => setFeedCache u e w
  | OpLogFetchMetric m => logFetchMetric m w
  end.

Definition applyOps (env : Env) (ops : list StoreOp) (w : World) : World :=
  fold_left (applyOp env) ops w.

Definition loggedMetrics (ops : list StoreOp) : list FetchMetric :=
  omap (fun op => match op with OpLogFetchMetric m => Some m | _ => None end) ops.

(** The entries of the article map stored under a key. *)
Definition entriesFor (k : jsstring) (w : World) : list (jsstring * StoredArticle) :=
  List.filter (fun e => bool_decide (fst e = k)) (articles w).

(** Two article records agree on every field but [translations]. *)
Definition sameCoreFields (a b : StoredArticle) : Prop :=
  id a = id b ∧ guid a = guid b ∧ title a = title b
  ∧ description a = description b ∧ link a = link b ∧ pubDate a = pubDate b
  ∧ category a = category b ∧ subcategory a = subcategory b
  ∧ source a = source b ∧ sourceLocale a = sourceLocale b
  ∧ ingestedAt a = ingestedAt b.

(** The keys of a [Map] are distinct, and [upsertArticle] files every
    article under its own [id]. *)
Definition wellFormed (w : World) : Prop :=
  NoDup (articles w).*1 ∧ Forall (fun e => id (snd e) = fst e) (articles w).

(** The identity derivation in the words of the specification: the trimmed
    guid when the item carries a string guid that is not blank, else the
    SHA-256 hex digest of the link. *)
Definition specArticleId (guid : jsval) (lnk : jsstring) : jsstring :=
  match guid with
  | VStr g => match trim g with
              | [] => Sha256.hex lnk
              | t => t
              end
  | _ => Sha256.hex lnk
  end.

(** An item's guid is unusable when it is absent, not a string, or blank. *)
Definition lacksUsableGuid (guid : jsval) : Prop :=
  ∀ g, guid = VStr g → trim g = [].


(** ** Sample data *)

Definition sampleEnv : Env :=
  {| clock := fun k => (1700000000000 + Z.of_nat k)%Z;
     toISOString := fun _ => str "2023-11-14T22:13:20.000Z";
     fetchResult := fun _ _ _ => Throw (str "fetch failed");
     localizeObject := fun _ _ _ _ => Throw (str "provider unavailable");
     ingested := fun _ => [] |}.

Definition sampleArticle (aid ttl locale : string) : StoredArticle :=
  {| id := str aid; guid := VStr (str aid); title := str ttl;
     description := str "A description."; link := VStr (str "https://example.org/a");
     pubDate := VStr (str "Tue, 14 Nov 2023 22:13:20 GMT");
     category := str "Qatar"; subcategory := str "General";
     source := str "QNA"; sourceLocale := str locale;
     ingestedAt := str "2023-11-14T22:13:20.000Z"; translations := ∅ |}.

Definition sampleMetric (n : nat) : FetchMetric :=
  {| feedUrl := str "https://dohanews.co/feed/"; m_source := str "Doha News";
     timestamp := 1700000000000%Z; durationMs := 120%Z; articlesAdded := n;
     totalArticlesInFeed := n; skipped304 := false; error := None |}.

Definition sampleFeed : FeedConfig :=
  {| feed_url := str "https://dohanews.co/feed/"; feed_category := str "Qatar";
     feed_subcategory := str "General"; feed_source := str "Doha News";
     pollIntervalMinutes := 3; feed_sourceLocale := str "en" |}.


(** The id of every item without usable guid and with an empty link: the
    SHA-256 digest of the empty string. *)
Definition emptyLinkId : jsstring :=
  str "e3b0c44298fc1c149afbf4c8996fb92427ae41e4649b934ca495991b7852b855".


Definition sampleResponse (st : N) (txt : string) (body : Res jsval) : Response :=
  {| status := st; statusText := str txt; header_etag := Some (str "W/'abc'");
     header_lastModified := None; parsedBody := body |}.

(** An outside world that answers every fetch and every translation
    request in the same way. *)
Definition constEnv (answer : Res Response)
    (translation : Res (gmap jsstring jsstring)) : Env :=
  {| clock := fun k => (1700000000000 + Z.of_nat k)%Z;
     toISOString := fun _ => str "2023-11-14T22:13:20.000Z";
     fetchResult := fun _ _ _ => answer;
     localizeObject := fun _ _ _ _ => translation;
     ingested := fun _ => [] |}.

(** Two RSS items without guid and link. *)
Definition bareItem (ttl : string) : jsval :=
  VObj [(str "title", VStr (str ttl)); (str "description", VStr (str "<p>text</p>"))].


(** ** Vocabulary for sanitized text *)

(** [lit] occurs in [s] as a contiguous block. *)
Definition occursIn (lit s : jsstring) : Prop := ∃ a b, s = a ++ lit ++ b.

(** Some part of [s] matches [/<[^>]*>/]. *)
Fixpoint hasTag (s : jsstring) : bool :=
  match s with
  | [] => false
  | _ :: r => match matchTag s with Some _ => true | None => hasTag r end
  end.

Definition startsWithWs (s : jsstring) : bool :=
  match s with c :: _ => isWhitespace c | [] => false end.

Definition endsWithWs (s : jsstring) : bool := startsWithWs (rev s).

(** Every whitespace code unit of [s] is a space that is not followed by
    whitespace. *)
Fixpoint whitespaceCollapsed (s : jsstring) : bool :=
  match s with
  | [] => true
  | c :: r =>
    (negb (isWhitespace c) || ((c =? 32) && negb (startsWithWs r)))
    && whitespaceCollapsed r
  end.


(** ** The sanitization in the words of the specification

    Each step as a relation between the text before and the text after
    it, scanning from the left. *)






(** The entities with the characters they stand for. *)
Definition ENTITY_TABLE : list (jsstring * N) :=
  [(str "&nbsp;", 32); (str "&amp;", 38); (str "&lt;", 60); (str "&gt;", 62);
   (str "&quot;", 34); (str "&#39;", 39)].

(** The entities of [table] are un-escaped where they stand, in one scan
    of the text from the left. *)
Inductive specDecodedWith (table : list (jsstring * N)) : jsstring -> jsstring -> Prop :=
| sd_nil : specDecodedWith table [] []
| sd_entity (e : jsstring) (c : N) (r out : jsstring) :
    (e, c) ∈ table -> specDecodedWith table r out ->
    specDecodedWith table (e ++ r) (c :: out)
| sd_text (x : N) (r out : jsstring) :
    (∀ e c, (e, c) ∈ table -> ¬ e `prefix_of` (x :: r)) ->
    specDecodedWith table r out ->
    specDecodedWith table (x :: r) (x :: out).

Definition specDecoded : jsstring -> jsstring -> Prop :=
  specDecodedWith ENTITY_TABLE.


(** ** Vocabulary for the translation queue *)

(** [w'] is reached from [w] by a task that made the calls [new]: stored
    articles stay stored with their core fields, and the translation entry
    of an article for a locale changes only through a [storeTranslation]
    call for that article and locale. *)
Definition evolvesBy (w : World) (new : list Call) (w' : World) : Prop :=
  calls w' = calls w ++ new
  ∧ lingoDotDev w' = lingoDotDev w
  ∧ (wellFormed w → wellFormed w')
  ∧ ∀ k a, getArticle k w = Some a →
      ∃ a', getArticle k w' = Some a' ∧ sameCoreFields a a'
            ∧ ∀ l, (∀ t d, CStoreTranslation k l t d ∉ new) →
                   translations a' !! l = translations a !! l.

(** The calls made between two states. *)
Definition newCalls (w w' : World) : list Call :=
  drop (length (calls w)) (calls w').

Definition isLocalizeCall (c : Call) : bool :=
  match c with CLocalizeObject _ _ _ => true | _ => false end.

(** The batches of the loop of [processQueue], in order. *)
Fixpoint batchesFrom (fuel i : nat) (needsTranslation : list StoredArticle)
    : list (list StoredArticle) :=
  match fuel with
  | O => []
  | S fuel' =>
    if bool_decide (i < length needsTranslation)%nat
    then take BATCH_SIZE (drop i needsTranslation)
         :: batchesFrom fuel' (i + BATCH_SIZE) needsTranslation
    else []
  end.

Definition batchesOf (needsTranslation : list StoredArticle)
    : list (list StoredArticle) :=
  batchesFrom (length needsTranslation) 0 needsTranslation.

(** The request sent to the provider for a batch. *)
Definition requestFor (locale : jsstring) (batch : list StoredArticle) : Call :=
  CLocalizeObject (buildTextObj batch) (batchSourceLocale batch) locale.

(** The [storeTranslation] call of the write-back for an article. *)
Definition storeCallFor (translated : gmap jsstring jsstring) (locale : jsstring)
    (a : StoredArticle) : Call :=
  CStoreTranslation (id a) locale
    (translatedOr translated (titleKey a) (title a))
    (translatedOr translated (descKey a) (description a)).


Definition articleOne : StoredArticle := sampleArticle "guid-1" "First title" "en".

(** A response of the provider to the request for [articleOne] that omits
    the description key and carries an empty text under the title key. *)
Definition emptyTitleResponse : gmap jsstring jsstring :=
  <[titleKey articleOne := []]> ∅.

Definition worldWithArticleOne : World :=
  initTranslationQueue (snd (upsertArticle articleOne initialWorld)).


(** Every [storeTranslation] call of [new] is for a stored article whose
    own language is another one than the locale of the call. *)
Definition noSelfTranslation (new : list Call) (w' : World) : Prop :=
  ∀ k l t d, CStoreTranslation k l t d ∈ new →
    ∃ a', getArticle k w' = Some a' ∧ sourceLocale a' ≠ l.

(** The state after the iteration of the batch loop that starts at
    index [i]. *)
Definition afterBatch (env : Env) (i : nat) (needsTranslation : list StoredArticle)
    (locale : jsstring) (w : World) : World :=
  run (if bool_decide (i + BATCH_SIZE < length needsTranslation)%nat
       then sleep env BATCH_DELAY_MS else mret tt)
      (run (translateBatch env (take BATCH_SIZE (drop i needsTranslation)) locale) w).


Definition numberedArticle (n : nat) : StoredArticle :=
  {| id := str "item-" ++ numberToString (N.of_nat n); guid := VNull;
     title := str "Title " ++ numberToString (N.of_nat n);
     description := str "Text"; link := VStr (str "https://example.org/");
     pubDate := VStr []; category := str "Qatar"; subcategory := str "General";
     source := str "QNA"; sourceLocale := str "en";
     ingestedAt := str "2023-11-14T22:13:20.000Z"; translations := ∅ |}.

(** Twenty-five English articles, none translated, and the engine on. *)
Definition worldWith25 : World :=
  initTranslationQueue
    (fold_left (fun w a => snd (upsertArticle a w))
               (map numberedArticle (seq 0 25)) initialWorld).

(** A provider that fails on every request that holds the title of
    article 0 and otherwise answers with no key at all. *)
Definition firstBatchFailsEnv : Env :=
  {| clock := fun k => (1700000000000 + Z.of_nat k)%Z;
     toISOString := fun _ => str "2023-11-14T22:13:20.000Z";
     fetchResult := fun _ _ _ => Throw [];
     localizeObject := fun _ textObj _ _ =>
       match textObj !! titleKey (numberedArticle 0) with
       | Some _ => Throw (str "rate limited")
       | None => Ok ∅
       end;
     ingested := fun _ => [] |}.

(** The number of keys of a request, 0 for the other calls. *)
Definition requestSize (c : Call) : nat :=
  match c with
  | CLocalizeObject textObj _ _ => size textObj
  | _ => 0%nat
  end.


Definition rssItem (g ttl lnk : string) : jsval :=
  VObj [(str "title", VStr (str ttl)); (str "link", VStr (str lnk));
        (str "guid", VObj [(str "_", VStr (str g));
                           (str "$", VObj [(str "isPermaLink", VStr (str "false"))])]);
        (str "description", VStr (str "<p>Some&nbsp;text &amp; more</p>"));
        (str "pubDate", VStr (str "Tue, 14 Nov 2023 22:13:20 GMT"))].

(** What xml2js returns for an RSS 2.0 document with three items. *)
Definition rssWithThreeItems : jsval :=
  VObj [(str "rss",
         VObj [(str "channel",
                VObj [(str "title", VStr (str "Doha News"));
                      (str "item",
                       VArr [rssItem "g-1" "One" "https://dohanews.co/1";
                             rssItem "g-2" "Two" "https://dohanews.co/2";
                             rssItem "g-3" "Three" "https://dohanews.co/3"])])])].

(** First poll: status 200 with the three items; second poll: 304. *)
Definition twoPollsEnv : Env :=
  {| clock := fun k => (1700000000000 + 7 * Z.of_nat k)%Z;
     toISOString := fun _ => str "2023-11-14T22:13:20.000Z";
     fetchResult := fun k _ headers =>
       match assocGet (str "If-None-Match") headers with
       | Some _ => Ok (sampleResponse 304 "Not Modified" (Throw []))
       | None => Ok (sampleResponse 200 "OK" (Ok rssWithThreeItems))
       end;
     localizeObject := fun _ _ _ _ => Throw [];
     ingested := fun _ => [] |}.


Definition callName (c : Call) : string :=
  match c with
  | CFetch _ _ => "fetch"
  | CSetFeedCache _ _ => "setFeedCache"
  | CUpsertArticle _ => "upsertArticle"
  | CTriggerQueueProcessing => "triggerQueueProcessing"
  | CLogFetchMetric _ => "logFetchMetric"
  | CLocalizeObject _ _ _ => "localizeObject"
  | CStoreTranslation _ _ _ _ => "storeTranslation"
  | CSleep _ => "sleep"
  end.


(** A run of the process: the tasks the event loop runs, each taken as a
    whole, and the calls of the exported operations. *)
Inductive Task : Type :=
| TInitTranslationQueue
| TFetchAndStoreFeed (feed : FeedConfig)
| TProcessQueue
| TStoreOp (op : StoreOp).

Definition runTask (env : Env) (w : World) (t : Task) : World :=
  match t with
  | TInitTranslationQueue => initTranslationQueue w
  | TFetchAndStoreFeed feed => run (fetchAndStoreFeed env feed) w
  | TProcessQueue => run (processQueue env) w
  | TStoreOp op => applyOp env w op
  end.

Definition runTasks (env : Env) (tasks : list Task) (w : World) : World :=
  fold_left (runTask env) tasks w.

(** A computation keeps the article map well formed. *)
Definition keepsWellFormed {A : Type} (c : M A) : Prop :=
  ∀ w, wellFormed w → wellFormed (snd (c w)).


(** ** Vocabulary of the further properties *)

(** A lowercase hexadecimal digit. *)
Definition isLowerHex (c : N) : bool :=
  ((48 <=? c) && (c <=? 57)) || ((97 <=? c) && (c <=? 102)).


(** [lit] occurs in [s], decided. *)
Fixpoint containsLit (lit s : jsstring) : bool :=
  isPrefix lit s || match s with [] => false | _ :: r => containsLit lit r end.

(** The character references that [cleanHtml] replaces. *)
Definition ENTITIES : list string :=
  ["&nbsp;"; "&amp;"; "&lt;"; "&gt;"; "&quot;"; "&#39;"]%string.

(** Text with no tag and none of the character references, with single
    spaces as its only whitespace and none at either end, of at most 1000
    code units. *)
Definition plainText (s : jsstring) : bool :=
  negb (hasTag s)
  && forallb (fun lit => negb (containsLit (str lit) s)) ENTITIES
  && whitespaceCollapsed s
  && negb (startsWithWs s) && negb (endsWithWs s)
  && bool_decide (length s ≤ 1000)%nat.


(** ** Vocabulary for the feed task *)

(** Text as [cleanHtml] returns it. *)
Definition sanitized (s : jsstring) : Prop :=
  (length s ≤ 1000)%nat ∧ whitespaceCollapsed s = true ∧ startsWithWs s = false.

(** An article as the loop of [fetchAndStoreFeed] builds it for an item
    of [feed]. *)
Definition fromFeed (feed : FeedConfig) (a : StoredArticle) : Prop :=
  category a = feed_category feed ∧ subcategory a = feed_subcategory feed
  ∧ source a = feed_source feed ∧ sourceLocale a = feed_sourceLocale feed
  ∧ translations a = ∅
  ∧ id a ≠ [] ∧ trim (id a) = id a
  ∧ sanitized (title a) ∧ sanitized (description a).

(** The state after the loop over the items has read the clock and called
    [upsertArticle] for each article of [ups], in order. *)
Definition afterUpserts (ups : list StoredArticle) (w : World) : World :=
  fold_left (fun w' a => snd (upsertArticleM a (next_tick w'))) ups w.

(** The validators of a response that [fetchAndStoreFeed] caches. *)
Definition validatorsOf (r : Response) : option FeedCacheEntry :=
  let e := nonEmpty (header_etag r) in
  let l := nonEmpty (header_lastModified r) in
  if present e || present l then Some {| etag := e; lastModified := l |} else None.

(** The state after the cache entry [cached] of the feed, if there is
    one, has been handed to [setFeedCache]. *)
Definition cachedAt (url : jsstring) (cached : option FeedCacheEntry) (w : World)
    : World :=
  match cached with
  | Some entry => setFeedCache url entry (record_call (CSetFeedCache url entry) w)
  | None => w
  end.

(** The state after [triggerQueueProcessing] has been called, if it is. *)
Definition triggeredAt (trig : bool) (w : World) : World :=
  if trig then record_call CTriggerQueueProcessing w else w.

(** The end of [fetchAndStoreFeed]: two readings of the clock, then the
    metric is logged. *)
Definition loggedAt (m : FetchMetric) (w : World) : World :=
  logFetchMetric m (record_call (CLogFetchMetric m) (next_tick (next_tick w))).

(** The message of the error thrown for a response that is not ok. *)
Definition httpError (r : Response) : jsstring :=
  str "HTTP " ++ numberToString (status r) ++ str ": " ++ statusText r.


(** The metric of a poll started at state [w] whose end begins at state
    [wX]. *)
Definition metricOf (env : Env) (feed : FeedConfig) (w wX : World)
    (added total : nat) (skip : bool) (err : option jsstring) : FetchMetric :=
  {| feedUrl := feed_url feed; m_source := feed_source feed;
     timestamp := clock env (tick wX);
     durationMs := (clock env (S (tick wX)) - clock env (tick w))%Z;
     articlesAdded := added; totalArticlesInFeed := total;
     skipped304 := skip; error := err |}.


(** An item whose description carries an attribute: xml2js hands it over
    as an object with the text under [_]. *)
Definition structuredItem (g : string) : jsval :=
  VObj [(str "title", VStr (str "Structured")); (str "link", VStr (str "https://dohanews.co/s"));
        (str "guid", VStr (str g));
        (str "description",
         VObj [(str "_", VStr (str "Some text"));
               (str "$", VObj [(str "type", VStr (str "html"))])])].


(** ** metrics.ts: the summary *)

Record MetricsSummary := {
  totalFetches : nat;
  totalArticlesAdded : nat;
  totalFailures : nat;
  total304Skips : nat;
}.

Record Metrics := {
  recentFetches : list FetchMetric;
  summary : MetricsSummary;
}.

(** [!!m.error] *)
Definition hasError (m : FetchMetric) : bool := present (nonEmpty (error m)).

(** [getMetrics()].  The field [avgDurationMs] of the summary, a rounded
    floating-point quotient, is not part of the model. *)
Definition getMetrics (w : World) : Metrics :=
  let log := metricsLog w in
  {| recentFetches := drop (length log - 50) log;     (* slice(-50) *)
     summary :=
       {| totalFetches := length log;
          totalArticlesAdded := fold_left (fun sum m => (sum + articlesAdded m)%nat) log 0%nat;
          totalFailures := length (List.filter hasError log);
          total304Skips := length (List.filter skipped304 log) |} |}.

(** ** translator.ts: translation on demand *)

(** The request is recorded like those of the queue; the feed tasks may
    run while the caller awaits the promise that is returned. *)
Definition translateOnDemand (env : Env) (texts : gmap jsstring jsstring)
    (src tgt : jsstring) : M (gmap jsstring jsstring) :=
  engine ← gets lingoDotDev;
  if negb engine then throw (str "Translation engine not initialized")
  else awaitLocalizeObject env texts src tgt.

(** ** Vocabulary for runs of the process *)

(** A computation relates every state to the state it leaves. *)
Definition preserves (R : World -> World -> Prop) {A : Type} (c : M A) : Prop :=
  ∀ w, R w (snd (c w)).

(** An article keeps its core fields and an entry for every locale it
    has one for. *)
Definition articleGrows (a a' : StoredArticle) : Prop :=
  sameCoreFields a a'
  ∧ ∀ l, is_Some (translations a !! l) → is_Some (translations a' !! l).

(** From [w] to [w'] the article map keeps its entries, in place and
    under their keys, each article altered at most in its translations,
    and gains entries at its end. *)
Definition storeGrows (w w' : World) : Prop :=
  ∃ olds news,
    articles w' = olds ++ news
    ∧ Forall2 (fun e e' => fst e = fst e' ∧ articleGrows (snd e) (snd e'))
              (articles w) olds.

(** The metrics log and the feed cache are the same in both states. *)
Definition sameFeedState (w w' : World) : Prop :=
  metricsLog w' = metricsLog w ∧ feedCache w' = feedCache w.

(** The call is not a direct [logFetchMetric]. *)
Definition notRawMetric (t : Task) : bool :=
  match t with TStoreOp (OpLogFetchMetric _) => false | _ => true end.

(** The call is not a direct [setFeedCache]. *)
Definition notRawCache (t : Task) : bool :=
  match t with TStoreOp (OpSetFeedCache _ _) => false | _ => true end.

(** A cache entry holds a validator that is not empty. *)
Definition hasValidator (e : FeedCacheEntry) : bool :=
  present (nonEmpty (etag e)) || present (nonEmpty (lastModified e)).

(** The names of the conditional headers of a request. *)
Definition isConditional (h : jsstring * jsstring) : bool :=
  bool_decide (fst h = str "If-None-Match")
  || bool_decide (fst h = str "If-Modified-Since").


(** The calls that the translation queue makes. *)
Definition isQueueCall (c : Call) : bool :=
  match c with
  | CLocalizeObject _ _ _ | CStoreTranslation _ _ _ _ | CSleep _ => true
  | _ => false
  end.

(** The calls that a poll makes. *)
Definition isFeedCall (c : Call) : bool :=
  match c with
  | CFetch _ _ | CSetFeedCache _ _ | CUpsertArticle _
  | CTriggerQueueProcessing | CLogFetchMetric _ => true
  | _ => false
  end.

(** The task is not the initialisation of the translation queue. *)
Definition notInit (t : Task) : bool :=
  match t with TInitTranslationQueue => false | _ => true end.

(** From [w] to [w'] only calls of the translation queue were made, and
    the engine is the same. *)
Definition queueStep (w w' : World) : Prop :=
  lingoDotDev w' = lingoDotDev w
  ∧ ∃ new, calls w' = calls w ++ new ∧ forallb isQueueCall new = true.

(** An English article with a stored Arabic translation. *)
Definition worldAllTranslated : World :=
  storeTranslation sampleEnv (str "guid-1") (str "ar") (str "t") (str "d")
    worldWithArticleOne.


(** The task is not a cycle of the translation queue. *)
Definition notQueueCycle (t : Task) : bool :=
  match t with TProcessQueue => false | _ => true end.

(** The task is not a direct call of [upsertArticle] or [storeTranslation]. *)
Definition notDirectArticleOp (t : Task) : bool :=
  match t with
  | TStoreOp (OpUpsertArticle _) | TStoreOp (OpStoreTranslation _ _ _ _) => false
  | _ => true
  end.


(** * Properties *)

Example sha256_abc :
  Sha256.hex (str "abc")
  = str "ba7816bf8f01cfea414140de5dae2223b00361a396177a9cb410ff61f20015ad".
Proof. vm_compute. reflexivity. Qed.

Example sha256_two_blocks :
  Sha256.hex (str "abcdbcdecdefdefgefghfghighijhijkijkljklmklmnlmnomnopnopq")
  = str "248d6a61d20638b8e5c026930c3e6039a33ce45964ff2167f6ecedd419db06c1".
Proof. vm_compute. reflexivity. Qed.

Example sha256_empty :
  Sha256.hex []
  = str "e3b0c44298fc1c149afbf4c8996fb92427ae41e4649b934ca495991b7852b855".
Proof. vm_compute. reflexivity. Qed.

(** ** The article map *)

Section AssocMap.
Context {V : Type}.
Implicit Types (m : list (jsstring * V)) (k : jsstring) (v : V).

Lemma assocGet_mapSet_eq m k v : assocGet k (mapSet k v m) = Some v.
Proof.
  induction m as [|[k' v'] m IH]; simpl.
  - by rewrite decide_True.
  - destruct (decide (k' = k)); simpl.
    + by rewrite decide_True.
    + by rewrite decide_False.
Qed.

Lemma assocGet_mapSet_ne m k k' v :
  k ≠ k' → assocGet k' (mapSet k v m) = assocGet k' m.
Proof.
  intros Hne. induction m as [|[k0 v0] m IH]; simpl.
  - by rewrite decide_False.
  - destruct (decide (k0 = k)) as [->|]; simpl.
    + by rewrite !decide_False.
    + by rewrite IH.
Qed.

Lemma assocGet_None_keys m k : assocGet k m = None ↔ k ∉ m.*1.
Proof.
  induction m as [|[k' v'] m IH]; simpl.
  - split; [intros _; apply not_elem_of_nil | done].
  - rewrite not_elem_of_cons. destruct (decide (k' = k)) as [->|].
    + split; [done|]. by intros [? _].
    + rewrite IH. split; [by intros ?; split; [congruence|]|by intros [_ ?]].
Qed.

Lemma assocGet_Some_elem m k v : assocGet k m = Some v → (k, v) ∈ m.
Proof.
  induction m as [|[k' v'] m IH]; simpl; [done|].
  destruct (decide (k' = k)) as [->|].
  - intros [= ->]. apply elem_of_cons; by left.
  - intros H. apply elem_of_cons; right; auto.
Qed.

Lemma elem_assocGet m k v : NoDup m.*1 → (k, v) ∈ m → assocGet k m = Some v.
Proof.
  induction m as [|[k' v'] m IH]; simpl.
  - intros _ H. by apply elem_of_nil in H.
  - rewrite NoDup_cons. intros [Hk Hnd] [H|H]%elem_of_cons.
    + injection H as -> ->. by rewrite decide_True.
    + rewrite decide_False; [auto|]. intros ->. apply Hk.
      apply list_elem_of_fmap. by exists (k, v).
Qed.

Lemma mapHas_true m k : mapHas k m = true ↔ is_Some (assocGet k m).
Proof.
  unfold mapHas. destruct (assocGet k m); split; try done; eauto.
Qed.

Lemma mapHas_false m k : mapHas k m = false ↔ assocGet k m = None.
Proof. unfold mapHas. by destruct (assocGet k m). Qed.

(** [set] on a key that is present keeps the keys and their order; on an
    absent key it appends the entry. *)
Lemma mapSet_keys_present m k v :
  is_Some (assocGet k m) → (mapSet k v m).*1 = m.*1.
Proof.
  induction m as [|[k' v'] m IH]; simpl.
  - by intros [? ?].
  - destruct (decide (k' = k)) as [->|]; csimpl; [done|].
    intros H. by rewrite IH.
Qed.

Lemma mapSet_absent m k v : assocGet k m = None → mapSet k v m = m ++ [(k, v)].
Proof.
  induction m as [|[k' v'] m IH]; simpl; [done|].
  destruct (decide (k' = k)); [done|]. intros H. by rewrite IH.
Qed.

Lemma mapSet_NoDup m k v : NoDup m.*1 → NoDup (mapSet k v m).*1.
Proof.
  intros Hnd. destruct (assocGet k m) eqn:E.
  - by rewrite mapSet_keys_present.
  - rewrite mapSet_absent by done. rewrite fmap_app. simpl.
    apply NoDup_app. split; [done|]. split.
    + intros x Hx [->|[]%elem_of_nil]%elem_of_cons.
      by apply assocGet_None_keys in E.
    + apply NoDup_singleton.
Qed.

End AssocMap.

Lemma filter_key_NoDup {V : Type} (m : list (jsstring * V)) k v :
  NoDup m.*1 → assocGet k m = Some v →
  List.filter (fun e => bool_decide (fst e = k)) m = [(k, v)].
Proof.
  induction m as [|[k' v'] m IH]; simpl; [done|].
  rewrite NoDup_cons. intros [Hk Hnd].
  destruct (decide (k' = k)) as [->|Hne].
  - intros [= ->]. rewrite bool_decide_true by done. f_equal.
    clear IH. induction m as [|[k1 v1] m IH]; simpl; [done|].
    apply not_elem_of_cons in Hk as [Hk1 Hk]. apply NoDup_cons in Hnd as [_ Hnd].
    simpl in Hk1. rewrite bool_decide_false by (simpl; congruence). auto.
  - intros H. rewrite bool_decide_false by done. auto.
Qed.

(** ** Effect of the store operations on the article map *)

Lemma upsertArticle_absent a w :
  mapHas (id a) (articles w) = false →
  upsertArticle a w = (true, set_articles (fun m => m ++ [(id a, a)]) w).
Proof.
  intros H. unfold upsertArticle. rewrite H. f_equal.
  unfold set_articles. f_equal. apply mapSet_absent. by apply mapHas_false.
Qed.

Lemma upsertArticle_present a w :
  mapHas (id a) (articles w) = true → upsertArticle a w = (false, w).
Proof. intros H. unfold upsertArticle. by rewrite H. Qed.

Lemma upsertArticle_get a w k v :
  getArticle k w = Some v → getArticle k (snd (upsertArticle a w)) = Some v.
Proof.
  intros H. unfold upsertArticle, getArticle in *.
  destruct (mapHas (id a) (articles w)) eqn:E; simpl; [done|].
  rewrite assocGet_mapSet_ne; [done|]. intros Heq. subst k.
  apply mapHas_false in E. congruence.
Qed.

Lemma upsertArticle_NoDup a w :
  NoDup (articles w).*1 → NoDup (articles (snd (upsertArticle a w))).*1.
Proof.
  intros H. unfold upsertArticle.
  destruct (mapHas (id a) (articles w)); simpl; [done|]. by apply mapSet_NoDup.
Qed.

Lemma storeTranslation_articles env i l t d w :
  articles (storeTranslation env i l t d w)
  = match assocGet i (articles w) with
    | Some a =>
      mapSet i (withTranslation l
                  {| tr_title := t; tr_description := d;
                     translatedAt := toISOString env (clock env (tick w)) |} a)
             (articles w)
    | None => articles w
    end.
Proof. unfold storeTranslation. by destruct (assocGet i (articles w)). Qed.

Lemma storeTranslation_keys env i l t d w :
  (articles (storeTranslation env i l t d w)).*1 = (articles w).*1.
Proof.
  rewrite storeTranslation_articles.
  destruct (assocGet i (articles w)) eqn:E; [|done].
  apply mapSet_keys_present. by rewrite E.
Qed.

Lemma storeTranslation_get_ne env i l t d w k :
  k ≠ i → getArticle k (storeTranslation env i l t d w) = getArticle k w.
Proof.
  intros Hne. unfold getArticle. rewrite storeTranslation_articles.
  destruct (assocGet i (articles w)); [|done].
  by apply assocGet_mapSet_ne.
Qed.

Lemma storeTranslation_get_eq env i l t d w a :
  getArticle i w = Some a →
  getArticle i (storeTranslation env i l t d w)
  = Some (withTranslation l
            {| tr_title := t; tr_description := d;
               translatedAt := toISOString env (clock env (tick w)) |} a).
Proof.
  unfold getArticle. intros H. rewrite storeTranslation_articles, H.
  apply assocGet_mapSet_eq.
Qed.

Lemma sameCoreFields_refl a : sameCoreFields a a.
Proof. by repeat split. Qed.

Lemma sameCoreFields_trans a b c :
  sameCoreFields a b → sameCoreFields b c → sameCoreFields a c.
Proof. unfold sameCoreFields. intuition congruence. Qed.

Lemma sameCoreFields_withTranslation l t a : sameCoreFields a (withTranslation l t a).
Proof. by repeat split. Qed.

(** Whatever the operation, an article that is stored stays stored, under
    the same key and with the same core fields, and keys stay distinct. *)
Lemma applyOp_keeps env op w k a :
  getArticle k w = Some a →
  ∃ a', getArticle k (applyOp env w op) = Some a' ∧ sameCoreFields a a'.
Proof.
  intros H. destruct op as [b|i l t d|u e|m]; simpl.
  - exists a. split; [by apply upsertArticle_get | apply sameCoreFields_refl].
  - destruct (decide (k = i)) as [->|Hne].
    + eexists. split; [by apply storeTranslation_get_eq|].
      apply sameCoreFields_withTranslation.
    + exists a. rewrite storeTranslation_get_ne by done.
      split; [done | apply sameCoreFields_refl].
  - exists a. split; [done | apply sameCoreFields_refl].
  - exists a. split; [done | apply sameCoreFields_refl].
Qed.

Lemma applyOp_NoDup env op w :
  NoDup (articles w).*1 → NoDup (articles (applyOp env w op)).*1.
Proof.
  intros H. destruct op as [b|i l t d|u e|m]; simpl; try done.
  - by apply upsertArticle_NoDup.
  - by rewrite storeTranslation_keys.
Qed.

Lemma applyOps_keeps env ops w k a :
  getArticle k w = Some a →
  ∃ a', getArticle k (applyOps env ops w) = Some a' ∧ sameCoreFields a a'.
Proof.
  revert w a. induction ops as [|op ops IH]; intros w a H; simpl.
  - exists a. split; [done | apply sameCoreFields_refl].
  - destruct (applyOp_keeps env op w k a H) as (a1 & H1 & Hc1).
    destruct (IH _ _ H1) as (a2 & H2 & Hc2).
    exists a2. split; [done|]. by eapply sameCoreFields_trans.
Qed.

Lemma applyOps_NoDup env ops w :
  NoDup (articles w).*1 → NoDup (articles (applyOps env ops w)).*1.
Proof.
  revert w. induction ops as [|op ops IH]; intros w H; simpl; [done|].
  apply IH. by apply applyOp_NoDup.
Qed.

(** C1. Upsert is idempotent on the dedup id: on a store (a [Map], whose
    keys are distinct) that does not hold [id a], [upsertArticle a]
    inserts [a] and returns [true]; after
    any further operations on the store, a call with an article carrying
    the same id returns [false] and leaves the whole state as it is (so no
    field of the stored article, [translations] included, is overwritten);
    the store holds exactly one entry for that id, and its core fields are
    still those of [a]. *)
Theorem upsertArticle_idempotent (env : Env) (w : World) (a b : StoredArticle)
    (ops : list StoreOp) :
  NoDup (articles w).*1 →
  mapHas (id a) (articles w) = false →
  id b = id a →
  let w1 := snd (upsertArticle a w) in
  let w2 := applyOps env ops w1 in
  fst (upsertArticle a w) = true
  ∧ getArticle (id a) w1 = Some a
  ∧ upsertArticle b w2 = (false, w2)
  ∧ length (entriesFor (id a) w2) = 1%nat
  ∧ ∃ a2, getArticle (id a) w2 = Some a2 ∧ sameCoreFields a a2.
Proof.
  intros Hnd Habs Hid w1 w2.
  assert (Hget1 : getArticle (id a) w1 = Some a).
  { unfold w1, getArticle. rewrite upsertArticle_absent by done. simpl.
    apply mapHas_false in Habs. rewrite <- (mapSet_absent _ _ a Habs).
    apply assocGet_mapSet_eq. }
  destruct (applyOps_keeps env ops w1 (id a) a Hget1) as (a2 & Hget2 & Hcore).
  assert (Hnd2 : NoDup (articles w2).*1).
  { apply applyOps_NoDup. by apply upsertArticle_NoDup. }
  split; [by rewrite upsertArticle_absent|].
  split; [done|].
  split.
  { apply upsertArticle_present. rewrite Hid. apply mapHas_true.
    by exists a2. }
  split.
  { unfold entriesFor. by rewrite (filter_key_NoDup _ _ a2 Hnd2 Hget2). }
  by exists a2.
Qed.

Lemma upsertArticle_idempotent_witness :
  let a := sampleArticle "guid-1" "First title" "en" in
  let b := sampleArticle "guid-1" "Another title" "ar" in
  let ops := [OpStoreTranslation (str "guid-1") (str "ar") (str "t") (str "d");
              OpUpsertArticle b] in
  let w2 := applyOps sampleEnv ops (snd (upsertArticle a initialWorld)) in
  upsertArticle b w2 = (false, w2) ∧ length (entriesFor (id a) w2) = 1%nat.
Proof.
  intros a b ops w2.
  destruct (upsertArticle_idempotent sampleEnv initialWorld a b ops)
    as (_ & _ & H3 & H4 & _).
  - apply NoDup_nil_2.
  - reflexivity.
  - reflexivity.
  - split; [exact H3 | exact H4].
Defined.

(** ** The metrics log *)

Lemma logFetchMetric_log m w :
  metricsLog (logFetchMetric m w)
  = drop (length (metricsLog w ++ [m]) - MAX_METRICS_HISTORY) (metricsLog w ++ [m]).
Proof.
  unfold logFetchMetric. simpl. case_bool_decide as H; [done|].
  replace (length (metricsLog w ++ [m]) - MAX_METRICS_HISTORY)%nat with 0%nat by lia.
  done.
Qed.

Lemma applyOp_metricsLog env w op :
  metricsLog (applyOp env w op)
  = match op with
    | OpLogFetchMetric m =>
      drop (length (metricsLog w ++ [m]) - MAX_METRICS_HISTORY) (metricsLog w ++ [m])
    | _ => metricsLog w
    end.
Proof.
  destruct op as [a|i l t d|u e|m]; simpl; try done.
  - unfold upsertArticle. by destruct (mapHas _ _).
  - unfold storeTranslation. by destruct (assocGet _ _).
  - apply logFetchMetric_log.
Qed.

(** After any sequence of operations the log is the last
    [MAX_METRICS_HISTORY] metrics of what it held plus what was appended. *)
Lemma applyOps_metricsLog env ops w :
  (length (metricsLog w) ≤ MAX_METRICS_HISTORY)%nat →
  metricsLog (applyOps env ops w)
  = drop (length (metricsLog w ++ loggedMetrics ops) - MAX_METRICS_HISTORY)
         (metricsLog w ++ loggedMetrics ops).
Proof.
  unfold MAX_METRICS_HISTORY.
  revert w. induction ops as [|op ops IH]; intros w Hlen.
  - simpl. rewrite app_nil_r.
    replace (length (metricsLog w) - 500)%nat with 0%nat by lia. done.
  - change (applyOps env (op :: ops) w) with (applyOps env ops (applyOp env w op)).
    pose proof (applyOp_metricsLog env w op) as Hop.
    unfold MAX_METRICS_HISTORY in Hop.
    destruct op as [a|i l t d|u e|m];
      try (rewrite IH by (rewrite Hop; done); by rewrite Hop).
    change (loggedMetrics (OpLogFetchMetric m :: ops)) with (m :: loggedMetrics ops).
    rewrite IH; rewrite Hop.
    + rewrite <- (drop_app_le _ (loggedMetrics ops)) by (rewrite length_app; simpl; lia).
      rewrite drop_drop, <- app_assoc. simpl. f_equal.
      rewrite length_drop, !length_app. simpl. lia.
    + rewrite length_drop, length_app. simpl. lia.
Qed.

(** C4. The metrics history is bounded at 500 entries, oldest evicted
    first: starting from the empty log, after operations that log more
    than 500 metrics the history holds exactly the 500 metrics logged
    last, in the order they were logged; up to 500, it holds them all. *)
Theorem metricsLog_bounded (env : Env) (ops : list StoreOp) :
  let log := metricsLog (applyOps env ops initialWorld) in
  let sent := loggedMetrics ops in
  ((500 < length sent)%nat →
     length log = 500%nat ∧ log = drop (length sent - 500) sent)
  ∧ ((length sent ≤ 500)%nat → log = sent).
Proof.
  intros log sent.
  assert (H : log = drop (length sent - 500) sent).
  { unfold log. rewrite applyOps_metricsLog by (simpl; lia). done. }
  split.
  - intros Hgt. split; [|done]. rewrite H, length_drop. lia.
  - intros Hle. rewrite H.
    replace (length sent - 500)%nat with 0%nat by lia. done.
Qed.

Lemma metricsLog_bounded_witness :
  let ops := map (fun n => OpLogFetchMetric (sampleMetric n)) (seq 0 503) in
  let log := metricsLog (applyOps sampleEnv ops initialWorld) in
  length log = 500%nat ∧ log = map sampleMetric (seq 3 500).
Proof.
  intros ops log.
  destruct (metricsLog_bounded sampleEnv ops) as [Hmany _].
  destruct Hmany as [Hlen Hlog].
  - vm_compute. lia.
  - split; [exact Hlen|]. unfold log. rewrite Hlog. vm_compute. reflexivity.
Defined.

(** ** Identity derivation *)

Lemma trim_nil : trim [] = [].
Proof. reflexivity. Qed.

Lemma generateArticleId_unusable guid lnk :
  lacksUsableGuid guid → generateArticleId guid (VStr lnk) = Ok (Sha256.hex lnk).
Proof.
  intros H. unfold generateArticleId.
  assert (Hl : sha256Hex (jsOr (VStr lnk) (VStr [])) = Ok (Sha256.hex lnk)).
  { by destruct lnk. }
  destruct guid as [| |g| | |]; try exact Hl.
  rewrite (H g eq_refl).
  rewrite (bool_decide_false (0 < length (@nil N))%nat) by (simpl; lia).
  rewrite andb_false_r. exact Hl.
Qed.

Lemma generateArticleId_usable g lnk :
  trim g ≠ [] → generateArticleId (VStr g) (VStr lnk) = Ok (trim g).
Proof.
  intros H. unfold generateArticleId.
  assert (Hg : truthy (VStr g) = true).
  { destruct g; [by rewrite trim_nil in H | done]. }
  rewrite Hg. rewrite bool_decide_true; [done|].
  destruct (trim g); [done | simpl; lia].
Qed.

(** C2. Identity derivation is deterministic: the id is a function of the
    (guid, link) pair alone, namely the one the specification words; a
    string guid that is not blank gives its trimmed form, any other guid
    gives the SHA-256 hex digest of the link, so that two items without
    usable guid and with the same link get the same id. *)
Theorem generateArticleId_deterministic (guid : jsval) (lnk : jsstring) :
  generateArticleId guid (VStr lnk) = Ok (specArticleId guid lnk)
  ∧ (∀ g, guid = VStr g → trim g ≠ [] →
       generateArticleId guid (VStr lnk) = Ok (trim g))
  ∧ (lacksUsableGuid guid →
       generateArticleId guid (VStr lnk) = Ok (Sha256.hex lnk)
       ∧ ∀ guid', lacksUsableGuid guid' →
           generateArticleId guid' (VStr lnk) = generateArticleId guid (VStr lnk)).
Proof.
  split; [|split].
  - destruct guid as [| |g| | |];
      try (apply generateArticleId_unusable; by intros ? [=]).
    unfold specArticleId. destruct (trim g) as [|c t] eqn:E.
    + apply generateArticleId_unusable. by intros ? [= <-].
    + rewrite <- E. apply generateArticleId_usable. by rewrite E.
  - intros g -> Hg. by apply generateArticleId_usable.
  - intros H. split; [by apply generateArticleId_unusable|].
    intros guid' H'. by rewrite !generateArticleId_unusable.
Qed.

Lemma generateArticleId_deterministic_witness :
  generateArticleId (VStr (str "  urn:uuid:42 ")) (VStr (str "https://example.org/a"))
  = Ok (str "urn:uuid:42")
  ∧ generateArticleId (VStr (str "   ")) (VStr (str "https://example.org/a"))
    = generateArticleId VNull (VStr (str "https://example.org/a")).
Proof.
  split.
  - apply (proj1 (proj2 (generateArticleId_deterministic
                           (VStr (str "  urn:uuid:42 ")) (str "https://example.org/a")))
             (str "  urn:uuid:42 ") eq_refl).
    vm_compute. discriminate.
  - apply (proj2 (proj2 (generateArticleId_deterministic
                           VNull (str "https://example.org/a")))).
    + intros g Hg. discriminate Hg.
    + intros g Hg. injection Hg as <-. vm_compute. reflexivity.
Defined.

(** ** Writing a translation *)

Lemma lookupTranslation_insert_eq o name e :
  lookupTranslation (<[name := e]> o) name = LEntry e.
Proof. unfold lookupTranslation. by rewrite lookup_insert_eq. Qed.

(** An assignment to a name other than [__proto__] leaves what the other
    names give. *)
Lemma lookupTranslation_insert_ne o locale e name :
  locale ≠ str "__proto__" → name ≠ locale →
  lookupTranslation (<[locale := e]> o) name = lookupTranslation o name.
Proof.
  intros Hproto Hne. unfold lookupTranslation.
  rewrite (lookup_insert_ne o locale name e) by done.
  by rewrite (lookup_insert_ne o locale (str "__proto__") e) by done.
Qed.

Lemma lacksTranslation_own locale a e :
  translations a !! locale = Some e → lacksTranslation locale a = false.
Proof. unfold lacksTranslation, lookupTranslation. by intros ->. Qed.

(** C8, for a locale other than [__proto__].  [storeTranslation] on an id
    that is stored sets or overwrites the entry of that article for the
    locale, with the given title and description and the current time: the
    translations then yield that entry under the locale.  The other fields
    of the article, every other article, the feed cache and the metrics
    are left as they were, and so is every other own entry of the
    translations.  When the locale is not [__proto__], the translations
    yield under every other name what they yielded before.  On an id that
    is not stored it changes nothing at all. *)
Theorem storeTranslation_spec (env : Env) (w : World)
    (articleId locale ttl desc : jsstring) :
  let w' := storeTranslation env articleId locale ttl desc w in
  let entry := {| tr_title := ttl; tr_description := desc;
                  translatedAt := toISOString env (clock env (tick w)) |} in
  (∀ a, getArticle articleId w = Some a →
     (∃ a', getArticle articleId w' = Some a'
        ∧ sameCoreFields a a'
        ∧ translations a' !! locale = Some entry
        ∧ lookupTranslation (translations a') locale = LEntry entry
        ∧ (∀ l, l ≠ locale → translations a' !! l = translations a !! l)
        ∧ (locale ≠ str "__proto__" →
           ∀ l, l ≠ locale →
             lookupTranslation (translations a') l
             = lookupTranslation (translations a) l))
     ∧ (∀ k, k ≠ articleId → getArticle k w' = getArticle k w)
     ∧ (articles w').*1 = (articles w).*1
     ∧ feedCache w' = feedCache w
     ∧ metricsLog w' = metricsLog w)
  ∧ (getArticle articleId w = None → w' = w).
Proof.
  intros w' entry. split.
  - intros a Ha. split; [|split; [|split; [|split]]].
    + eexists. split; [by apply storeTranslation_get_eq|].
      split; [apply sameCoreFields_withTranslation|].
      cbn [translations withTranslation].
      split; [apply lookup_insert_eq|].
      split; [apply lookupTranslation_insert_eq|].
      split; [intros l Hl; by apply lookup_insert_ne|].
      intros Hproto l Hl. by apply lookupTranslation_insert_ne.
    + intros k Hk. by apply storeTranslation_get_ne.
    + apply storeTranslation_keys.
    + unfold w', storeTranslation. by destruct (assocGet _ _).
    + unfold w', storeTranslation. by destruct (assocGet _ _).
  - unfold w', storeTranslation, getArticle. by intros ->.
Qed.

(** C8, as the specification states it, fails for the locale
    [__proto__]: the entry becomes the prototype of the translations
    object, so that the object then has a [title], and the article no
    longer counts as untranslated for the locale [title]. *)
Lemma storeTranslation_proto_changes_other_names :
  let w := snd (upsertArticle articleOne initialWorld) in
  let w' := storeTranslation sampleEnv (str "guid-1") (str "__proto__")
              (str "t") (str "d") w in
  ∃ a', getArticle (str "guid-1") w = Some articleOne
        ∧ getArticle (str "guid-1") w' = Some a'
        ∧ str "title" ≠ str "__proto__"
        ∧ lookupTranslation (translations articleOne) (str "title") = LUndefined
        ∧ lookupTranslation (translations a') (str "title") = LText (str "t")
        ∧ getUntranslatedArticles (str "title") w = [articleOne]
        ∧ getUntranslatedArticles (str "title") w' = [].
Proof.
  eexists. split; [vm_compute; reflexivity|].
  split; [vm_compute; reflexivity|].
  split; [discriminate|].
  repeat split; vm_compute; reflexivity.
Qed.

Lemma storeTranslation_spec_witness :
  let a := sampleArticle "guid-1" "First title" "en" in
  let w := snd (upsertArticle a initialWorld) in
  (∃ a', getArticle (str "guid-1")
           (storeTranslation sampleEnv (str "guid-1") (str "ar") (str "t") (str "d") w)
         = Some a' ∧ sameCoreFields a a')
  ∧ storeTranslation sampleEnv (str "guid-2") (str "ar") (str "t") (str "d") w = w.
Proof.
  intros a w.
  pose proof (storeTranslation_spec sampleEnv w (str "guid-1") (str "ar") (str "t") (str "d")) as H1.
  pose proof (storeTranslation_spec sampleEnv w (str "guid-2") (str "ar") (str "t") (str "d")) as H2.
  split.
  - destruct (proj1 H1 a eq_refl) as ((a' & Hget & Hcore & _) & _).
    exists a'. split; [exact Hget | exact Hcore].
  - apply (proj2 H2). reflexivity.
Defined.

(** ** The fetch-and-store pipeline *)

(** C3. When the fetch of a feed is answered with status 304,
    [fetchAndStoreFeed] completes without error having made two calls, the
    fetch and one [logFetchMetric], and no [upsertArticle] or
    [setFeedCache]; the metric has the not-modified flag set, zero articles
    added and no error text; the article map and the feed cache are
    untouched. *)
Theorem not_modified_skip (env : Env) (feed : FeedConfig) (w : World) (r : Response) :
  fetchResult env (S (tick w)) (feed_url feed)
    (requestHeaders (getFeedCache (feed_url feed) w)) = Ok r →
  status r = 304 →
  let res := fetchAndStoreFeed env feed w in
  let w' := snd res in
  let metric :=
    {| feedUrl := feed_url feed; m_source := feed_source feed;
       timestamp := clock env (2 + tick w);
       durationMs := (clock env (3 + tick w) - clock env (tick w))%Z;
       articlesAdded := 0; totalArticlesInFeed := 0;
       skipped304 := true; error := None |} in
  fst res = Ok tt
  ∧ articles w' = articles w
  ∧ feedCache w' = feedCache w
  ∧ metricsLog w' = metricsLog (logFetchMetric metric w)
  ∧ calls w' = calls w ++ [CFetch (feed_url feed)
                             (requestHeaders (getFeedCache (feed_url feed) w));
                           CLogFetchMetric metric].
Proof.
  intros Hfetch H304 res w' metric.
  unfold w', res, fetchAndStoreFeed, tryCatch, awaitFetch, gets, dateNow,
    logFetchMetricM, modify.
  unfold mbind, M_bind. simpl.
  change (getFeedCache (feed_url feed) (next_tick w))
    with (getFeedCache (feed_url feed) w).
  rewrite Hfetch, H304. simpl.
  repeat split. by rewrite <- app_assoc.
Qed.

Lemma not_modified_skip_witness :
  let env := constEnv (Ok (sampleResponse 304 "Not Modified" (Throw []))) (Throw []) in
  let w := snd (upsertArticle (sampleArticle "guid-1" "First title" "en") initialWorld) in
  let w' := snd (fetchAndStoreFeed env sampleFeed w) in
  articles w' = articles w ∧ feedCache w' = feedCache w
  ∧ length (metricsLog w') = 1%nat.
Proof.
  intros env w w'.
  destruct (not_modified_skip env sampleFeed w
              (sampleResponse 304 "Not Modified" (Throw [])))
    as (_ & Ha & Hc & Hm & _).
  - reflexivity.
  - reflexivity.
  - split; [exact Ha|]. split; [exact Hc|].
    unfold w'. rewrite Hm. reflexivity.
Defined.

(** ** Items without guid and link *)

Lemma rawGuidOf_Ok_not_nullish item g : rawGuidOf item = Ok g → isNullish item = false.
Proof. by destruct item. Qed.

Lemma itemProps_Ok item :
  isNullish item = false →
  ∃ t d p, titleOf item = Ok t ∧ descriptionOf item = Ok d ∧ pubDateOf item = Ok p.
Proof.
  intros H. unfold titleOf, descriptionOf, pubDateOf, getProp. rewrite H. simpl.
  destruct (typeofString _); by do 3 eexists.
Qed.

Lemma generateArticleId_emptyLink g :
  lacksUsableGuid g → generateArticleId g (VStr []) = Ok emptyLinkId.
Proof. intros H. by rewrite generateArticleId_unusable. Qed.

(** Ingesting an item that has no usable guid and an empty link, into a
    store that already holds [emptyLinkId], never inserts. *)
Lemma ingestItem_duplicate env feed item g w :
  rawGuidOf item = Ok g → lacksUsableGuid g → linkOf item = Ok (VStr []) →
  mapHas emptyLinkId (articles w) = true →
  articles (snd (ingestItem env feed item w)) = articles w
  ∧ fst (ingestItem env feed item w) ≠ Ok true.
Proof.
  intros Hg Hu Hl Hhas.
  destruct (itemProps_Ok item (rawGuidOf_Ok_not_nullish _ _ Hg)) as (t & d & p & Ht & Hd & Hp).
  unfold ingestItem, liftRes, mbind, M_bind.
  rewrite Hg, Hl, Ht, Hd, Hp, (generateArticleId_emptyLink g Hu).
  destruct (cleanHtml t) as [ct|e]; [|done].
  destruct (cleanHtml d) as [cd|e]; [|done].
  unfold dateNow, upsertArticleM. simpl.
  unfold upsertArticle. simpl. rewrite Hhas. done.
Qed.

(** Ingesting such an item into any store leaves [emptyLinkId] stored,
    when the item gets as far as [upsertArticle]. *)
Lemma ingestItem_stores env feed item g w isNew :
  rawGuidOf item = Ok g → lacksUsableGuid g → linkOf item = Ok (VStr []) →
  fst (ingestItem env feed item w) = Ok isNew →
  mapHas emptyLinkId (articles (snd (ingestItem env feed item w))) = true.
Proof.
  intros Hg Hu Hl.
  destruct (itemProps_Ok item (rawGuidOf_Ok_not_nullish _ _ Hg)) as (t & d & p & Ht & Hd & Hp).
  unfold ingestItem, liftRes, mbind, M_bind.
  rewrite Hg, Hl, Ht, Hd, Hp, (generateArticleId_emptyLink g Hu).
  destruct (cleanHtml t) as [ct|e]; [|done].
  destruct (cleanHtml d) as [cd|e]; [|done].
  unfold dateNow, upsertArticleM. simpl. intros _.
  unfold upsertArticle. simpl.
  destruct (mapHas emptyLinkId (articles w)) eqn:E; simpl; [done|].
  apply mapHas_true. rewrite assocGet_mapSet_eq. by eexists.
Qed.

Lemma applyOps_mapHas env ops w k :
  mapHas k (articles w) = true → mapHas k (articles (applyOps env ops w)) = true.
Proof.
  rewrite !mapHas_true. intros [a Ha].
  destruct (applyOps_keeps env ops w k a Ha) as (a' & Ha' & _). by exists a'.
Qed.

(** C10. Two upstream items that lack a usable guid and whose link
    resolves to the empty string derive the same id, the SHA-256 digest of
    the empty string; once the first has been through [upsertArticle], any
    later such item, from any feed and after any further operations on the
    store, is not inserted: the article map is left as it is and the item
    is not counted as new. *)
Theorem guidless_linkless_items_collide (env : Env) (feed1 feed2 : FeedConfig)
    (item1 item2 g1 g2 : jsval) (w : World) (isNew : bool) (ops : list StoreOp) :
  rawGuidOf item1 = Ok g1 → lacksUsableGuid g1 → linkOf item1 = Ok (VStr []) →
  rawGuidOf item2 = Ok g2 → lacksUsableGuid g2 → linkOf item2 = Ok (VStr []) →
  fst (ingestItem env feed1 item1 w) = Ok isNew →
  let w1 := snd (ingestItem env feed1 item1 w) in
  let w2 := applyOps env ops w1 in
  generateArticleId g1 (VStr []) = Ok emptyLinkId
  ∧ generateArticleId g2 (VStr []) = Ok emptyLinkId
  ∧ articles (snd (ingestItem env feed2 item2 w2)) = articles w2
  ∧ fst (ingestItem env feed2 item2 w2) ≠ Ok true.
Proof.
  intros Hg1 Hu1 Hl1 Hg2 Hu2 Hl2 Hfirst w1 w2.
  split; [by apply generateArticleId_emptyLink|].
  split; [by apply generateArticleId_emptyLink|].
  apply (ingestItem_duplicate env feed2 item2 g2 w2 Hg2 Hu2 Hl2).
  apply applyOps_mapHas. by eapply ingestItem_stores.
Qed.

Lemma guidless_linkless_items_collide_witness :
  let env := constEnv (Throw []) (Throw []) in
  let w1 := snd (ingestItem env sampleFeed (bareItem "First") initialWorld) in
  getArticleCount w1 = 1%nat
  ∧ articles (snd (ingestItem env sampleFeed (bareItem "Second") w1)) = articles w1.
Proof.
  intros env w1. split; [reflexivity|].
  refine (proj1 (proj2 (proj2
    (guidless_linkless_items_collide env sampleFeed sampleFeed
       (bareItem "First") (bareItem "Second") VNull VNull initialWorld true []
       _ _ _ _ _ _ _)))).
  - reflexivity.
  - intros g Hg. discriminate Hg.
  - reflexivity.
  - reflexivity.
  - intros g Hg. discriminate Hg.
  - reflexivity.
  - vm_compute. reflexivity.
Defined.

(** ** Sanitizing text *)

Section ReplaceAll.
Variable matchAt : jsstring → option nat.
Variable repl : jsstring.

Lemma replaceAll_skip k s :
  replaceAll matchAt repl k s = replaceAll matchAt repl 0 (drop k s).
Proof.
  revert k. induction s as [|c r IH]; intros k.
  - by destruct k.
  - destruct k as [|k]; [done|]. simpl. apply IH.
Qed.

Lemma replaceAll_match c r k :
  matchAt (c :: r) = Some (S k) →
  replaceAll matchAt repl 0 (c :: r)
  = repl ++ replaceAll matchAt repl 0 (drop k r).
Proof. intros H. simpl. rewrite H. by rewrite replaceAll_skip. Qed.

Lemma replaceAll_nomatch c r :
  matchAt (c :: r) = None →
  replaceAll matchAt repl 0 (c :: r) = c :: replaceAll matchAt repl 0 r.
Proof. intros H. simpl. by rewrite H. Qed.

(** Induction along the scan of [replaceAll]: at each position either
    the expression matches and the scan resumes after the match, or the
    code unit is copied. *)
Lemma replaceAll_ind (P : jsstring → Prop) :
  P [] →
  (∀ c r k, matchAt (c :: r) = Some (S k) → P (drop k r) → P (c :: r)) →
  (∀ c r, matchAt (c :: r) = None ∨ matchAt (c :: r) = Some 0%nat →
          P r → P (c :: r)) →
  ∀ s, P s.
Proof.
  intros Hnil Hmatch Hcopy s.
  assert (H : ∀ n s, (length s ≤ n)%nat → P s).
  { clear s. induction n as [|n IH]; intros s Hlen.
    - destruct s; [done | simpl in Hlen; lia].
    - destruct s as [|c r]; [done|]. simpl in Hlen.
      destruct (matchAt (c :: r)) as [[|k]|] eqn:E.
      + apply Hcopy; [by right|]. apply IH. lia.
      + apply (Hmatch _ _ k E). apply IH. rewrite length_drop. lia.
      + apply Hcopy; [by left|]. apply IH. lia. }
  by apply (H (length s)).
Qed.

Lemma replaceAll_copy c r :
  matchAt (c :: r) = None ∨ matchAt (c :: r) = Some 0%nat →
  replaceAll matchAt repl 0 (c :: r) = c :: replaceAll matchAt repl 0 r.
Proof. intros [H|H]; simpl; by rewrite H. Qed.
End ReplaceAll.

Lemma isPrefix_spec (p s : jsstring) : isPrefix p s = true ↔ p `prefix_of` s.
Proof.
  revert s. induction p as [|a p IH]; intros s; simpl.
  - split; [intros _; apply prefix_nil | done].
  - destruct s as [|b s].
    + split; [done|]. intros H. by apply prefix_nil_inv in H.
    + rewrite andb_true_iff, N.eqb_eq, IH. split.
      * intros [-> H]. by apply prefix_cons.
      * intros H. split; [by eapply prefix_cons_inv_1 | by eapply prefix_cons_inv_2].
  Qed.



Lemma occursIn_suffix (lit p s : jsstring) :
  p `suffix_of` s → occursIn lit p → occursIn lit s.
Proof.
  intros [k ->] (a & b & ->). exists (k ++ a), b. by rewrite <- !app_assoc.
Qed.


(** *** Replacing by a single code unit creates no new occurrence of a
    text that does not contain that code unit *)

Section ReplaceByOne.
Variable matchAt : jsstring → option nat.
Variable c : N.
Let R := replaceAll matchAt [c] 0.



End ReplaceByOne.


(** *** One pass over a literal

    These two equations determine the result of a pass: a text without
    the literal is left as it is, and up to the end of the first occurrence
    the text is copied with that occurrence replaced. *)

Lemma matchLit_None lit c r :
  ¬ occursIn lit (c :: r) →
  matchLit lit (c :: r) = None ∨ matchLit lit (c :: r) = Some 0%nat.
Proof.
  intros H. left. unfold matchLit.
  destruct (isPrefix lit (c :: r)) eqn:E; [|done].
  exfalso. apply H. apply isPrefix_spec in E as [b ->]. by exists [], b.
Qed.

Lemma replaceLit_absent lit repl s :
  ¬ occursIn lit s → replaceAll (matchLit lit) repl 0 s = s.
Proof.
  induction s as [|c r IH]; intros H; [done|].
  rewrite replaceAll_copy by by apply matchLit_None.
  f_equal. apply IH. intros Hr. apply H.
  eapply occursIn_suffix; [|exact Hr]. by apply suffix_cons_r.
Qed.

Lemma replaceLit_first_occurrence lit0 z repl a b :
  let lit := lit0 ++ [z] in
  ¬ occursIn lit (a ++ lit0) →
  replaceAll (matchLit lit) repl 0 (a ++ lit ++ b)
  = a ++ repl ++ replaceAll (matchLit lit) repl 0 b.
Proof.
  intros lit. induction a as [|c a IH]; intros H.
  - simpl. assert (Hm : matchLit lit (lit ++ b) = Some (length lit)).
    { unfold matchLit. rewrite (proj2 (isPrefix_spec lit (lit ++ b))); [done|].
      by exists b. }
    destruct (lit ++ b) as [|x r] eqn:E.
    { unfold lit in E. by destruct lit0. }
    assert (Hlen : length lit = S (length lit0))
      by (unfold lit; rewrite length_app; simpl; lia).
    rewrite Hlen in Hm. rewrite (replaceAll_match _ _ _ _ _ Hm). f_equal. f_equal.
    change (drop (length lit0) r) with (drop (S (length lit0)) (x :: r)).
    rewrite <- E, <- Hlen. by rewrite drop_app_length.
  - change ((c :: a) ++ lit ++ b) with (c :: (a ++ lit ++ b)).
    rewrite replaceAll_copy.
    + simpl. f_equal. apply IH. intros Ha. apply H.
      eapply occursIn_suffix; [|exact Ha]. by apply suffix_cons_r.
    + unfold matchLit.
      destruct (isPrefix lit (c :: a ++ lit ++ b)) eqn:E; [|by left].
      exfalso. apply H. apply isPrefix_spec in E.
      assert (Hp : (c :: a) ++ lit0 `prefix_of` c :: a ++ lit ++ b).
      { exists ([z] ++ b). unfold lit. simpl. by rewrite <- !app_assoc. }
      destruct (prefix_weak_total _ _ _ E Hp) as [[k Hk]|Hq].
      * rewrite Hk. by exists [], k.
      * pose proof (prefix_length _ _ Hq) as Hl.
        assert (Heq : (c :: a) ++ lit0 = lit).
        { apply prefix_length_eq; [done|].
          unfold lit in *. rewrite !length_app in *. simpl in *. lia. }
        rewrite Heq. exists [], []. by rewrite app_nil_r.
Qed.

(** *** Tags *)





(** A text without tag is left as it is. *)
Lemma stripTags_absent s : hasTag s = false → stripTags s = s.
Proof.
  induction s as [|c r IH]; [done|]. cbn [hasTag].
  destruct (matchTag (c :: r)) eqn:E; [done|]. intros H.
  unfold stripTags. rewrite replaceAll_nomatch by done. f_equal. by apply IH.
Qed.

(** *** Whitespace *)

Lemma matchWs_Some c r k :
  matchWs (c :: r) = Some (S k) → isWhitespace c = true ∧ k = wsRun r.
Proof.
  unfold matchWs. simpl. destruct (isWhitespace c); [|done].
  by intros [= ->].
Qed.

Lemma matchWs_None c r :
  matchWs (c :: r) = None ∨ matchWs (c :: r) = Some 0%nat → isWhitespace c = false.
Proof. unfold matchWs. simpl. destruct (isWhitespace c); [|done]. by intros [|]. Qed.

Lemma startsWithWs_drop_wsRun s : startsWithWs (drop (wsRun s) s) = false.
Proof.
  induction s as [|c r IH]; [done|]. simpl.
  destruct (isWhitespace c) eqn:E; [done|]. simpl. by rewrite E.
Qed.

Lemma isWhitespace_space : isWhitespace 32 = true.
Proof. reflexivity. Qed.

Lemma startsWithWs_collapse s :
  startsWithWs (collapseWhitespace s) = startsWithWs s.
Proof.
  destruct s as [|c r]; [done|]. unfold collapseWhitespace.
  destruct (matchWs (c :: r)) as [[|k]|] eqn:E.
  - rewrite replaceAll_copy by by right. done.
  - rewrite (replaceAll_match _ _ _ _ _ E).
    apply matchWs_Some in E as [E _]. simpl. by rewrite E.
  - rewrite replaceAll_copy by by left. done.
Qed.

Lemma whitespaceCollapsed_collapse s :
  whitespaceCollapsed (collapseWhitespace s) = true.
Proof.
  induction s as [| c r k Hm IH | c r Hm IH] using (replaceAll_ind matchWs).
  - done.
  - unfold collapseWhitespace. rewrite (replaceAll_match _ _ _ _ _ Hm).
    change (replaceAll matchWs (str " ") 0 (drop k r))
      with (collapseWhitespace (drop k r)).
    apply matchWs_Some in Hm as [_ ->].
    change (str " " ++ collapseWhitespace (drop (wsRun r) r))
      with (32 :: collapseWhitespace (drop (wsRun r) r)).
    cbn [whitespaceCollapsed]. rewrite IH, startsWithWs_collapse.
    by rewrite startsWithWs_drop_wsRun.
  - unfold collapseWhitespace. rewrite (replaceAll_copy _ _ _ _ Hm).
    change (replaceAll matchWs (str " ") 0 r) with (collapseWhitespace r).
    cbn [whitespaceCollapsed]. by rewrite IH, (matchWs_None _ _ Hm).
Qed.

Lemma wsRun_zero s : startsWithWs s = false → wsRun s = 0%nat.
Proof. destruct s as [|c r]; [done|]. simpl. by intros ->. Qed.

(** A text whose whitespace is already single spaces is left as it is. *)
Lemma collapseWhitespace_collapsed s :
  whitespaceCollapsed s = true → collapseWhitespace s = s.
Proof.
  induction s as [|c r IH]; [done|]. cbn [whitespaceCollapsed].
  intros [Hc Hr]%andb_true_iff. unfold collapseWhitespace.
  destruct (isWhitespace c) eqn:Ews; simpl in Hc.
  - apply andb_true_iff in Hc as [->%N.eqb_eq Hn%negb_true_iff].
    assert (Hm : matchWs (32 :: r) = Some 1%nat).
    { unfold matchWs. simpl. by rewrite (wsRun_zero r Hn). }
    rewrite (replaceAll_match _ _ _ _ _ Hm). simpl. f_equal. by apply IH.
  - rewrite replaceAll_nomatch.
    + f_equal. by apply IH.
    + unfold matchWs. simpl. by rewrite Ews.
Qed.

Lemma whitespaceCollapsed_suffix p s :
  p `suffix_of` s → whitespaceCollapsed s = true → whitespaceCollapsed p = true.
Proof.
  intros [k ->]. induction k as [|c k IH]; [done|]. simpl.
  intros [_ H]%andb_true_iff. auto.
Qed.

Lemma whitespaceCollapsed_prefix p s :
  p `prefix_of` s → whitespaceCollapsed s = true → whitespaceCollapsed p = true.
Proof.
  intros [k ->]. induction p as [|c p IH]; [done|]. simpl.
  intros [H1 H2]%andb_true_iff. rewrite (IH H2), andb_true_r.
  destruct (isWhitespace c); [|done]. simpl in *.
  apply andb_true_iff in H1 as [-> H1]. simpl. by destruct p.
Qed.

Lemma trimStart_suffix s : trimStart s `suffix_of` s.
Proof.
  induction s as [|c r IH]; [done|]. simpl.
  destruct (isWhitespace c); [by apply suffix_cons_r | done].
Qed.

Lemma trimEnd_prefix s : trimEnd s `prefix_of` s.
Proof.
  unfold trimEnd. destruct (trimStart_suffix (rev s)) as [k Hk].
  exists (rev k). rewrite <- rev_app_distr, <- Hk. by rewrite rev_involutive.
Qed.

Lemma startsWithWs_trimStart s : startsWithWs (trimStart s) = false.
Proof.
  induction s as [|c r IH]; [done|]. simpl.
  destruct (isWhitespace c) eqn:E; [done|]. simpl. by rewrite E.
Qed.

Lemma endsWithWs_trimEnd s : endsWithWs (trimEnd s) = false.
Proof.
  unfold endsWithWs, trimEnd. rewrite rev_involutive. apply startsWithWs_trimStart.
Qed.

Lemma startsWithWs_prefix p s :
  p `prefix_of` s → startsWithWs s = false → startsWithWs p = false.
Proof. intros [k ->]. by destruct p. Qed.

Lemma startsWithWs_trim s : startsWithWs (trim s) = false.
Proof.
  unfold trim. eapply startsWithWs_prefix; [apply trimEnd_prefix|].
  apply startsWithWs_trimStart.
Qed.

Lemma endsWithWs_trim s : endsWithWs (trim s) = false.
Proof. apply endsWithWs_trimEnd. Qed.

Lemma whitespaceCollapsed_trim s :
  whitespaceCollapsed s = true → whitespaceCollapsed (trim s) = true.
Proof.
  intros H. unfold trim.
  eapply whitespaceCollapsed_prefix; [apply trimEnd_prefix|].
  eapply whitespaceCollapsed_suffix; [apply trimStart_suffix | done].
Qed.


(** *** Entities *)






Lemma cleanHtmlString_nil : cleanHtmlString [] = [].
Proof. reflexivity. Qed.

Lemma cleanHtml_string s : cleanHtml (VStr s) = Ok (cleanHtmlString s).
Proof. destruct s; [by rewrite cleanHtmlString_nil | done]. Qed.

Lemma trimStart_fixed s : startsWithWs s = false → trimStart s = s.
Proof. destruct s as [|c r]; [done|]. simpl. by intros ->. Qed.

Lemma trimEnd_fixed s : endsWithWs s = false → trimEnd s = s.
Proof.
  unfold endsWithWs, trimEnd. intros H. rewrite trimStart_fixed by done.
  apply rev_involutive.
Qed.

Lemma trim_fixed s : startsWithWs s = false → endsWithWs s = false → trim s = s.
Proof. intros H1 H2. unfold trim. rewrite trimStart_fixed by done. by apply trimEnd_fixed. Qed.

Lemma trim_idempotent s : trim (trim s) = trim s.
Proof. apply trim_fixed; [apply startsWithWs_trim | apply endsWithWs_trim]. Qed.

Lemma trimStart_app s t :
  trimStart (s ++ t) = match trimStart s with [] => trimStart t | u => u ++ t end.
Proof.
  induction s as [|c r IH]; simpl; [by destruct (trimStart t)|].
  destruct (isWhitespace c); [exact IH | done].
Qed.

Lemma trimStart_blank s : forallb isWhitespace s = true → trimStart s = [].
Proof.
  induction s as [|c r IH]; [done|]. simpl.
  intros [-> H]%andb_true_iff. auto.
Qed.

Lemma trimEnd_app_blank s post :
  forallb isWhitespace post = true → trimEnd (s ++ post) = trimEnd s.
Proof.
  intros H. unfold trimEnd. rewrite rev_app_distr, trimStart_app.
  rewrite trimStart_blank; [done|].
  rewrite forallb_forall in *. intros x Hx. apply H. by apply in_rev.
Qed.

Lemma trim_surrounded pre s post :
  forallb isWhitespace pre = true → forallb isWhitespace post = true →
  trim (pre ++ s ++ post) = trim s.
Proof.
  intros Hpre Hpost. unfold trim.
  rewrite trimStart_app, (trimStart_blank pre Hpre), trimStart_app.
  destruct (trimStart s) as [|c u] eqn:E.
  - by rewrite (trimStart_blank post Hpost).
  - by rewrite trimEnd_app_blank.
Qed.

(** *** The steps against the words of the specification *)



















(** *** One entity after the other, and all in one scan *)











(** [&amp;] is un-escaped before [&lt;]: of [&amp;lt;] the two steps leave
    [<], where one scan leaves [&lt;]. *)
Example unescapeEntities_in_turn :
  unescapeEntities (str "&amp;lt;") = str "<"
  ∧ specDecoded (str "&amp;lt;") (str "&lt;").
Proof.
  split; [vm_compute; reflexivity|].
  assert (Hno : ∀ x r, x ≠ 38 →
            ∀ e c, (e, c) ∈ ENTITY_TABLE → ¬ e `prefix_of` (x :: r)).
  { intros x r Hx e c Hin [k Hk]. unfold ENTITY_TABLE in Hin.
    repeat (apply elem_of_cons in Hin as [Hin|Hin];
            [injection Hin as -> ->; vm_compute in Hk; congruence|]).
    by apply elem_of_nil in Hin. }
  change (str "&amp;lt;") with (str "&amp;" ++ str "lt;").
  apply (sd_entity ENTITY_TABLE (str "&amp;") 38); [right; by left|].
  repeat (apply sd_text; [by apply Hno|]). constructor.
Qed.

(** Tags are stripped before the entities are replaced, and [&amp;] is
    replaced before [&lt;]: escaped markup comes out as markup. *)
Example cleanHtml_escaped_markup :
  cleanHtml (VStr (str "<p>Tom &amp;amp; <b>Jerry</b> &lt;i&gt; &amp;lt;</p>"))
  = Ok (str "Tom &amp; Jerry <i> <")
  ∧ hasTag (str "Tom &amp; Jerry <i> <") = true.
Proof. split; vm_compute; reflexivity. Qed.

Example cleanHtml_unclosed_bracket :
  cleanHtml (VStr (str "1 < 2  and   3 < 4")) = Ok (str "1 < 2 and 3 < 4").
Proof. vm_compute. reflexivity. Qed.

(** ** The translation queue *)

(** *** Well-formed stores *)

Lemma mapSet_Forall {V : Type} (P : jsstring * V → Prop) m k v :
  Forall P m → P (k, v) → Forall P (mapSet k v m).
Proof.
  intros Hm Hkv. induction m as [|[k' v'] m IH]; simpl.
  - by constructor.
  - apply Forall_cons in Hm as [H1 H2].
    destruct (decide (k' = k)); constructor; auto.
Qed.

Lemma wellFormed_initial : wellFormed initialWorld.
Proof. split; [apply NoDup_nil_2 | constructor]. Qed.

Lemma wellFormed_upsertArticle a w :
  wellFormed w → wellFormed (snd (upsertArticle a w)).
Proof.
  intros [Hnd Hid]. split; [by apply upsertArticle_NoDup|].
  unfold upsertArticle. destruct (mapHas _ _); simpl; [done|].
  by apply mapSet_Forall.
Qed.

Lemma wellFormed_get w k a : wellFormed w → getArticle k w = Some a → id a = k.
Proof.
  intros [_ Hid] H. apply assocGet_Some_elem in H.
  rewrite Forall_forall in Hid. by apply (Hid (k, a)).
Qed.

Lemma wellFormed_storeTranslation env i l t d w :
  wellFormed w → wellFormed (storeTranslation env i l t d w).
Proof.
  intros Hwf. pose proof Hwf as [Hnd Hid].
  split; [by rewrite storeTranslation_keys|].
  rewrite storeTranslation_articles.
  destruct (assocGet i (articles w)) as [a|] eqn:E; [|done].
  apply mapSet_Forall; [done|]. simpl. by apply (wellFormed_get w).
Qed.

Lemma wellFormed_articles w w' :
  articles w' = articles w → wellFormed w → wellFormed w'.
Proof. unfold wellFormed. by intros ->. Qed.

Lemma wellFormed_elem w a :
  wellFormed w → a ∈ getAllArticles w → getArticle (id a) w = Some a.
Proof.
  intros [Hnd Hid] Ha. unfold getAllArticles, mapValues in Ha.
  apply list_elem_of_fmap in Ha as ([k a'] & -> & Hin). simpl.
  rewrite Forall_forall in Hid. pose proof (Hid _ Hin) as Hk. simpl in Hk.
  subst k. by apply elem_assocGet.
Qed.

(** *** How the state evolves *)

Lemma evolvesBy_refl w : evolvesBy w [] w.
Proof.
  split; [by rewrite app_nil_r|]. split; [done|]. split; [done|].
  intros k a H. exists a. split; [done|]. split; [apply sameCoreFields_refl|done].
Qed.

Lemma evolvesBy_trans w1 n1 w2 n2 w3 :
  evolvesBy w1 n1 w2 → evolvesBy w2 n2 w3 → evolvesBy w1 (n1 ++ n2) w3.
Proof.
  intros (Hc1 & He1 & Hw1 & Ha1) (Hc2 & He2 & Hw2 & Ha2).
  split; [by rewrite Hc2, Hc1, app_assoc|].
  split; [congruence|]. split; [auto|].
  intros k a H.
  destruct (Ha1 k a H) as (a2 & H2 & Hs2 & Ht2).
  destruct (Ha2 k a2 H2) as (a3 & H3 & Hs3 & Ht3).
  exists a3. split; [done|]. split; [by eapply sameCoreFields_trans|].
  intros l Hl. rewrite Ht3, Ht2; [done| |].
  - intros t d Hin. apply (Hl t d). apply elem_of_app. by left.
  - intros t d Hin. apply (Hl t d). apply elem_of_app. by right.
Qed.

(** A change of the state that leaves the article map and the engine
    alone. *)
Lemma evolvesBy_frame w new w' :
  calls w' = calls w ++ new → lingoDotDev w' = lingoDotDev w →
  articles w' = articles w → evolvesBy w new w'.
Proof.
  intros Hc He Ha. split; [done|]. split; [done|].
  split; [by apply wellFormed_articles|].
  intros k a H. exists a. unfold getArticle in *. rewrite Ha.
  split; [done|]. split; [apply sameCoreFields_refl|done].
Qed.

Lemma evolvesBy_upsertArticle a w : evolvesBy w [] (snd (upsertArticle a w)).
Proof.
  split. { unfold upsertArticle. destruct (mapHas _ _); simpl; by rewrite app_nil_r. }
  split. { unfold upsertArticle. by destruct (mapHas _ _). }
  split; [apply wellFormed_upsertArticle|].
  intros k b H. exists b. split; [by apply upsertArticle_get|].
  split; [apply sameCoreFields_refl|done].
Qed.

Lemma evolvesBy_upserts arts w :
  evolvesBy w [] (fold_left (fun w' a => snd (upsertArticle a w')) arts w).
Proof.
  revert w. induction arts as [|a arts IH]; intros w; simpl.
  - apply evolvesBy_refl.
  - change (@nil Call) with (@nil Call ++ []).
    eapply evolvesBy_trans; [apply evolvesBy_upsertArticle | apply IH].
Qed.

Lemma evolvesBy_background env w : evolvesBy w [] (run (background env) w).
Proof.
  unfold run, background. simpl.
  change (@nil Call) with (@nil Call ++ []).
  eapply evolvesBy_trans; [|apply evolvesBy_upserts].
  apply evolvesBy_frame; [by rewrite app_nil_r|done|done].
Qed.

Lemma evolvesBy_storeTranslationM env i l t d w :
  evolvesBy w [CStoreTranslation i l t d] (run (storeTranslationM env i l t d) w).
Proof.
  unfold run, storeTranslationM, modify. simpl.
  set (w0 := record_call (CStoreTranslation i l t d) w).
  split. { unfold storeTranslation. by destruct (assocGet _ _). }
  split. { unfold storeTranslation. by destruct (assocGet _ _). }
  split.
  { intros Hwf. apply wellFormed_storeTranslation.
    by apply (wellFormed_articles w). }
  intros k a H.
  destruct (decide (k = i)) as [->|Hne].
  - eexists. split; [by apply (storeTranslation_get_eq env i l t d w0)|].
    split; [apply sameCoreFields_withTranslation|].
    intros l' Hl'. simpl. apply lookup_insert_ne. intros ->.
    apply (Hl' t d). by apply list_elem_of_singleton.
  - exists a. rewrite storeTranslation_get_ne by done.
    split; [done|]. split; [apply sameCoreFields_refl|done].
Qed.

(** *** Running the steps of the queue *)

Lemma bind_run {A B : Type} (c : M A) (f : A → M B) (w : World) (a : A) :
  fst (c w) = Ok a → (c ≫= f) w = f a (snd (c w)).
Proof.
  unfold mbind, M_bind. destruct (c w) as [[a'|e] w']; simpl; [|done].
  by intros [= ->].
Qed.

Lemma writeBack_evolves env translated locale batch w :
  let r := forEach batch (fun a =>
             storeTranslationM env (id a) locale
               (translatedOr translated (titleKey a) (title a))
               (translatedOr translated (descKey a) (description a))) w in
  fst r = Ok tt ∧ evolvesBy w (map (storeCallFor translated locale) batch) (snd r).
Proof.
  revert w. induction batch as [|a batch IH]; intros w; simpl.
  - split; [done | apply evolvesBy_refl].
  - rewrite (bind_run _ _ _ tt) by done.
    destruct (IH (snd (storeTranslationM env (id a) locale
                         (translatedOr translated (titleKey a) (title a))
                         (translatedOr translated (descKey a) (description a)) w)))
      as [Hok Hev].
    split; [exact Hok|].
    change (storeCallFor translated locale a :: map (storeCallFor translated locale) batch)
      with ([storeCallFor translated locale a] ++ map (storeCallFor translated locale) batch).
    eapply evolvesBy_trans; [apply evolvesBy_storeTranslationM | exact Hev].
Qed.

Lemma evolvesBy_awaitLocalizeObject env textObj src tgt w :
  evolvesBy w [CLocalizeObject textObj src tgt]
    (snd (awaitLocalizeObject env textObj src tgt w)).
Proof.
  unfold awaitLocalizeObject. simpl.
  change [CLocalizeObject textObj src tgt]
    with ([CLocalizeObject textObj src tgt] ++ []).
  eapply evolvesBy_trans; [|apply evolvesBy_background].
  by apply evolvesBy_frame.
Qed.

(** A batch: one request to the provider, then, if it is answered, one
    [storeTranslation] per article; no error escapes. *)
Lemma translateBatch_spec env batch locale w :
  lingoDotDev w = true →
  let r := translateBatch env batch locale w in
  fst r = Ok tt
  ∧ evolvesBy w
      (requestFor locale batch
       :: match localizeObject env (tick w) (buildTextObj batch)
                  (batchSourceLocale batch) locale with
          | Ok translated => map (storeCallFor translated locale) batch
          | Throw _ => []
          end)
      (snd r).
Proof.
  intros Hengine. unfold translateBatch.
  rewrite (bind_run _ _ _ true) by (unfold gets; simpl; by rewrite Hengine).
  unfold gets. simpl. unfold tryCatch, mbind, M_bind.
  pose proof (evolvesBy_awaitLocalizeObject env (buildTextObj batch)
                (batchSourceLocale batch) locale w) as Hcall.
  destruct (awaitLocalizeObject env (buildTextObj batch)
              (batchSourceLocale batch) locale w) as [[translated|e] w1] eqn:E;
    unfold awaitLocalizeObject in E; injection E as E1 E2; rewrite E1; simpl in Hcall.
  - destruct (writeBack_evolves env translated locale batch w1) as [Hok Hev].
    simpl in Hok, Hev.
    destruct (forEach batch _ w1) as [[[]|e] w2]; simpl in *; [|done].
    split; [done|].
    change (requestFor locale batch :: map (storeCallFor translated locale) batch)
      with ([requestFor locale batch] ++ map (storeCallFor translated locale) batch).
    eapply evolvesBy_trans; [exact Hcall | exact Hev].
  - split; [done | exact Hcall].
Qed.

Lemma evolvesBy_sleep env ms w :
  fst (sleep env ms w) = Ok tt ∧ evolvesBy w [CSleep ms] (snd (sleep env ms w)).
Proof.
  split; [done|].
  change (snd (sleep env ms w))
    with (run (background env) (record_call (CSleep ms) w)).
  change [CSleep ms] with ([CSleep ms] ++ []).
  eapply evolvesBy_trans; [|apply evolvesBy_background].
  by apply evolvesBy_frame.
Qed.

(** *** The write-back of a batch *)

Lemma writeBack_entries env translated locale batch w :
  NoDup (map id batch) →
  (∀ a, a ∈ batch → mapHas (id a) (articles w) = true) →
  let w' := snd (forEach batch (fun a =>
              storeTranslationM env (id a) locale
                (translatedOr translated (titleKey a) (title a))
                (translatedOr translated (descKey a) (description a))) w) in
  ∀ a, a ∈ batch →
    ∃ a' e, getArticle (id a) w' = Some a' ∧ translations a' !! locale = Some e
            ∧ tr_title e = translatedOr translated (titleKey a) (title a)
            ∧ tr_description e = translatedOr translated (descKey a) (description a).
Proof.
  revert w. induction batch as [|x batch IH]; intros w Hnd Hstored w' a Ha.
  - by apply elem_of_nil in Ha.
  - simpl in Hnd. apply NoDup_cons in Hnd as [Hx Hnd].
    unfold w'. simpl. rewrite (bind_run _ _ _ tt) by done.
    set (w1 := snd (storeTranslationM env (id x) locale
                      (translatedOr translated (titleKey x) (title x))
                      (translatedOr translated (descKey x) (description x)) w)).
    pose proof (evolvesBy_storeTranslationM env (id x) locale
                  (translatedOr translated (titleKey x) (title x))
                  (translatedOr translated (descKey x) (description x)) w) as Hev1.
    fold w1 in Hev1. unfold run in Hev1. fold w1 in Hev1.
    assert (Hstored1 : ∀ b, b ∈ batch → mapHas (id b) (articles w1) = true).
    { intros b Hb. apply mapHas_true.
      destruct (proj1 (mapHas_true _ _) (Hstored b (list_elem_of_further _ _ _ Hb)))
        as [b0 Hb0].
      destruct Hev1 as (_ & _ & _ & Hkeep).
      destruct (Hkeep _ _ Hb0) as (b1 & Hb1 & _). by exists b1. }
    apply elem_of_cons in Ha as [->|Ha]; [|by apply (IH w1)].
    destruct (proj1 (mapHas_true _ _) (Hstored x (list_elem_of_here _ _))) as [x0 Hx0].
    assert (Hx1 : getArticle (id x) w1
                  = Some (withTranslation locale
                            {| tr_title := translatedOr translated (titleKey x) (title x);
                               tr_description := translatedOr translated (descKey x) (description x);
                               translatedAt := toISOString env (clock env (tick w)) |} x0)).
    { unfold w1, storeTranslationM, modify. simpl.
      by apply (storeTranslation_get_eq env (id x) locale _ _
                  (record_call _ w)). }
    destruct (writeBack_evolves env translated locale batch w1) as [_ Hev2].
    simpl in Hev2. destruct Hev2 as (_ & _ & _ & Hkeep).
    destruct (Hkeep _ _ Hx1) as (x2 & Hx2 & _ & Hsame).
    exists x2. eexists. split; [exact Hx2|].
    split.
    { rewrite Hsame; [simpl; apply lookup_insert_eq|].
      intros t d Hin. apply list_elem_of_fmap in Hin as (b & Heq & Hb).
      injection Heq as Hid _ _. apply Hx. rewrite Hid.
      apply list_elem_of_fmap. by exists b. }
    done.
Qed.

Lemma translatedOr_cases translated key original :
  (∀ t, translated !! key = Some t → t ≠ [] →
        translatedOr translated key original = t)
  ∧ (translated !! key = None ∨ translated !! key = Some [] →
        translatedOr translated key original = original).
Proof.
  unfold translatedOr. split.
  - intros t -> Ht. by destruct t.
  - by intros [-> | ->].
Qed.

(** C6, as the code has it.  When the provider answers the request of a
    batch, the write-back stores for every article of the batch one entry
    for the target locale whose title and description are the returned
    text for the keys that come back with a non-empty text, and the
    article's own title or description for the keys that are missing or
    come back empty. *)
Theorem write_back_falls_back_to_original (env : Env) (w : World)
    (batch : list StoredArticle) (locale : jsstring)
    (translated : gmap jsstring jsstring) :
  lingoDotDev w = true →
  localizeObject env (tick w) (buildTextObj batch) (batchSourceLocale batch) locale
    = Ok translated →
  NoDup (map id batch) →
  (∀ a, a ∈ batch → mapHas (id a) (articles w) = true) →
  let w' := run (translateBatch env batch locale) w in
  ∀ a, a ∈ batch →
    ∃ a' e,
      getArticle (id a) w' = Some a' ∧ translations a' !! locale = Some e
      ∧ (∀ t, translated !! titleKey a = Some t → t ≠ [] → tr_title e = t)
      ∧ (translated !! titleKey a = None ∨ translated !! titleKey a = Some [] →
           tr_title e = title a)
      ∧ (∀ t, translated !! descKey a = Some t → t ≠ [] → tr_description e = t)
      ∧ (translated !! descKey a = None ∨ translated !! descKey a = Some [] →
           tr_description e = description a).
Proof.
  intros Hengine Hanswer Hnd Hstored w' a Ha.
  unfold w', run, translateBatch.
  rewrite (bind_run _ _ _ true) by (unfold gets; simpl; by rewrite Hengine).
  unfold gets. simpl. unfold tryCatch, mbind, M_bind.
  pose proof (evolvesBy_awaitLocalizeObject env (buildTextObj batch)
                (batchSourceLocale batch) locale w) as Hcall.
  destruct (awaitLocalizeObject env (buildTextObj batch)
              (batchSourceLocale batch) locale w) as [r w1] eqn:E.
  unfold awaitLocalizeObject in E. injection E as E1 E2.
  simpl in E1. rewrite Hanswer in E1. subst r. simpl in Hcall.
  assert (Hstored1 : ∀ b, b ∈ batch → mapHas (id b) (articles w1) = true).
  { intros b Hb. apply mapHas_true.
    destruct (proj1 (mapHas_true _ _) (Hstored b Hb)) as [b0 Hb0].
    destruct Hcall as (_ & _ & _ & Hkeep).
    destruct (Hkeep _ _ Hb0) as (b1 & Hb1 & _). by exists b1. }
  destruct (writeBack_entries env translated locale batch w1 Hnd Hstored1 a Ha)
    as (a' & e & Hget & He & Ht & Hd).
  destruct (writeBack_evolves env translated locale batch w1) as [Hok _].
  simpl in Hok.
  destruct (forEach batch _ w1) as [[[]|err] w2]; simpl in *; [|done].
  exists a', e. split; [done|]. split; [done|].
  rewrite Ht, Hd.
  destruct (translatedOr_cases translated (titleKey a) (title a)) as [H1 H2].
  destruct (translatedOr_cases translated (descKey a) (description a)) as [H3 H4].
  done.
Qed.

Lemma write_back_falls_back_to_original_witness :
  ∃ a' e,
    getArticle (id articleOne)
      (run (translateBatch (constEnv (Throw []) (Ok emptyTitleResponse))
              [articleOne] (str "ar")) worldWithArticleOne) = Some a'
    ∧ translations a' !! str "ar" = Some e
    ∧ tr_title e = title articleOne
    ∧ tr_description e = description articleOne.
Proof.
  destruct (write_back_falls_back_to_original
              (constEnv (Throw []) (Ok emptyTitleResponse)) worldWithArticleOne
              [articleOne] (str "ar") emptyTitleResponse)
    with (a := articleOne) as (a' & e & Hget & He & _ & Ht & _ & Hd).
  - reflexivity.
  - reflexivity.
  - apply NoDup_singleton.
  - intros a Ha. apply list_elem_of_singleton in Ha. subst a. reflexivity.
  - apply list_elem_of_here.
  - exists a', e. split; [exact Hget|]. split; [exact He|]. split.
    + apply Ht. right. vm_compute. reflexivity.
    + apply Hd. left. vm_compute. reflexivity.
Defined.

(** C6, as the specification states it, fails for a key that comes back
    with an empty text: the response omits the description key and holds
    the title key, yet the entry stores the article's own title and not
    the text returned for it. *)
Lemma returned_empty_text_is_not_stored :
  emptyTitleResponse !! descKey articleOne = None
  ∧ emptyTitleResponse !! titleKey articleOne = Some []
  ∧ (getArticle (id articleOne)
       (run (translateBatch (constEnv (Throw []) (Ok emptyTitleResponse))
               [articleOne] (str "ar")) worldWithArticleOne)
     ≫= fun a' => tr_title <$> translations a' !! str "ar")
    = Some (str "First title").
Proof. repeat split; vm_compute; reflexivity. Qed.

(** *** The batch loop *)

Lemma evolvesBy_engine w new w' :
  evolvesBy w new w' → lingoDotDev w = true → lingoDotDev w' = true.
Proof. intros (_ & He & _) H. by rewrite He. Qed.

Lemma evolvesBy_afterBatch env i needs locale w :
  lingoDotDev w = true →
  let batch := take BATCH_SIZE (drop i needs) in
  ∃ stores rest,
    evolvesBy w (requestFor locale batch :: stores ++ rest)
      (afterBatch env i needs locale w)
    ∧ match localizeObject env (tick w) (buildTextObj batch)
              (batchSourceLocale batch) locale with
      | Ok translated => stores = map (storeCallFor translated locale) batch
      | Throw _ => stores = []
      end
    ∧ (rest = [] ∨ rest = [CSleep BATCH_DELAY_MS]).
Proof.
  intros Hengine batch. unfold afterBatch.
  destruct (translateBatch_spec env batch locale w Hengine) as [_ Hev].
  fold batch. unfold run at 2.
  set (w1 := snd (translateBatch env batch locale w)) in *.
  destruct (localizeObject env (tick w) (buildTextObj batch)
              (batchSourceLocale batch) locale) as [translated|e];
    [exists (map (storeCallFor translated locale) batch) | exists []];
    (case_bool_decide;
      [ exists [CSleep BATCH_DELAY_MS]; split; [|split; [done | by right]];
        change (requestFor locale batch :: ?s ++ [CSleep BATCH_DELAY_MS])
          with ((requestFor locale batch :: s) ++ [CSleep BATCH_DELAY_MS]);
        eapply evolvesBy_trans; [exact Hev | apply evolvesBy_sleep]
      | exists []; split; [|split; [done | by left]];
        rewrite app_nil_r; exact Hev ]).
Qed.

Lemma batchLoop_step env fuel i needs locale w :
  (i < length needs)%nat → lingoDotDev w = true →
  batchLoop env (S fuel) i needs locale w
  = batchLoop env fuel (i + BATCH_SIZE) needs locale (afterBatch env i needs locale w).
Proof.
  intros Hi Hengine. cbn [batchLoop]. rewrite bool_decide_true by done.
  destruct (translateBatch_spec env (take BATCH_SIZE (drop i needs)) locale w Hengine)
    as [Hok _].
  rewrite (bind_run _ _ _ tt) by exact Hok.
  unfold afterBatch, run.
  set (w1 := snd (translateBatch env (take BATCH_SIZE (drop i needs)) locale w)).
  case_bool_decide.
  - rewrite (bind_run _ _ _ tt) by apply evolvesBy_sleep. done.
  - done.
Qed.

Lemma batchLoop_stop env fuel i needs locale w :
  ¬ (i < length needs)%nat → batchLoop env fuel i needs locale w = (Ok tt, w).
Proof.
  intros Hi. destruct fuel; [done|]. cbn [batchLoop].
  by rewrite bool_decide_false.
Qed.

Lemma batchesFrom_stop fuel i needs :
  ¬ (i < length needs)%nat → batchesFrom fuel i needs = [].
Proof. intros Hi. destruct fuel; [done|]. simpl. by rewrite bool_decide_false. Qed.

Lemma isLocalizeCall_stores translated locale batch :
  List.filter isLocalizeCall (map (storeCallFor translated locale) batch) = [].
Proof. by induction batch. Qed.

(** The loop makes one request per batch, whatever the provider answers,
    and writes translations only for the articles of its batches, and only
    for the locale it works on. *)
Lemma batchLoop_spec env fuel i needs locale w :
  lingoDotDev w = true →
  let r := batchLoop env fuel i needs locale w in
  fst r = Ok tt
  ∧ ∃ new, evolvesBy w new (snd r)
      ∧ (∀ k l t d, CStoreTranslation k l t d ∈ new →
           l = locale ∧ k ∈ id <$> take (fuel * BATCH_SIZE) (drop i needs))
      ∧ List.filter isLocalizeCall new
        = map (requestFor locale) (batchesFrom fuel i needs).
Proof.
  revert i w. induction fuel as [|fuel IH]; intros i w Hengine.
  - simpl. split; [done|]. exists []. split; [apply evolvesBy_refl|].
    split; [|done]. intros k l t d H. by apply elem_of_nil in H.
  - destruct (decide (i < length needs)%nat) as [Hi|Hi].
    + cbv zeta. rewrite batchLoop_step by done.
      destruct (evolvesBy_afterBatch env i needs locale w Hengine)
        as (stores & rest & Hev1 & Hstores & Hrest).
      set (w2 := afterBatch env i needs locale w) in *.
      destruct (IH (i + BATCH_SIZE)%nat w2 (evolvesBy_engine _ _ _ Hev1 Hengine))
        as (Hok & new & Hev2 & Hcalls & Hreq).
      split; [exact Hok|].
      exists ((requestFor locale (take BATCH_SIZE (drop i needs)) :: stores ++ rest) ++ new).
      split; [by eapply evolvesBy_trans|]. split.
      * intros k l t d Hin.
        replace (S fuel * BATCH_SIZE)%nat with (BATCH_SIZE + fuel * BATCH_SIZE)%nat by lia.
        rewrite <- take_take_drop, fmap_app, elem_of_app. 
        apply elem_of_app in Hin as [Hin|Hin].
        -- apply elem_of_cons in Hin as [Hin|Hin]; [done|].
           apply elem_of_app in Hin as [Hin|Hin].
           ++ destruct (localizeObject env (tick w) _ _ locale); subst stores;
                [|by apply elem_of_nil in Hin].
              apply list_elem_of_fmap in Hin as (x & Heq & Hx).
              injection Heq as -> -> _ _. split; [done|]. left.
              apply list_elem_of_fmap. by exists x.
           ++ destruct Hrest as [->| ->]; [by apply elem_of_nil in Hin|].
              by apply list_elem_of_singleton in Hin.
        -- destruct (Hcalls k l t d Hin) as [-> Hk]. split; [done|]. right.
           by rewrite drop_drop.
      * rewrite List.filter_app. cbn [batchesFrom]. rewrite bool_decide_true by done.
        cbn [map]. rewrite <- Hreq. cbn [List.filter requestFor isLocalizeCall].
        rewrite List.filter_app.
        assert (Hs : List.filter isLocalizeCall stores = []).
        { destruct (localizeObject env (tick w) _ _ locale); subst stores;
            [apply isLocalizeCall_stores | done]. }
        assert (Hr : List.filter isLocalizeCall rest = []).
        { by destruct Hrest as [->| ->]. }
        by rewrite Hs, Hr.
    + cbv zeta. rewrite batchLoop_stop by done. split; [done|].
      exists []. split; [apply evolvesBy_refl|]. split.
      * intros k l t d H. by apply elem_of_nil in H.
      * by rewrite batchesFrom_stop.
Qed.

(** *** One locale, and the whole cycle *)

Lemma needsTranslation_elem locale w a :
  a ∈ needsTranslationOf locale (getUntranslatedArticles locale w) →
  a ∈ getAllArticles w ∧ translations a !! locale = None ∧ sourceLocale a ≠ locale.
Proof.
  unfold needsTranslationOf, getUntranslatedArticles, getAllArticles.
  rewrite !list_elem_of_In, !filter_In. intros [[Ha Hl] Hs].
  split; [done|]. split.
  - unfold lacksTranslation, lookupTranslation in Hl.
    by destruct (translations a !! locale).
  - apply negb_true_iff in Hs. by apply bool_decide_eq_false in Hs.
Qed.

Lemma needsTranslationOf_excludes locale untranslated a :
  a ∈ needsTranslationOf locale untranslated → sourceLocale a ≠ locale.
Proof.
  unfold needsTranslationOf. rewrite list_elem_of_In, filter_In.
  intros [_ Hs]. apply negb_true_iff in Hs. by apply bool_decide_eq_false in Hs.
Qed.

Lemma filter_sublist_of {A : Type} (f : A → bool) (l : list A) :
  List.filter f l `sublist_of` l.
Proof.
  induction l as [|x l IH]; simpl; [done|].
  destruct (f x); [by apply sublist_skip | by apply sublist_cons].
Qed.

Lemma wellFormed_ids w : wellFormed w → id <$> getAllArticles w = (articles w).*1.
Proof.
  intros [_ Hid]. unfold getAllArticles, mapValues.
  induction (articles w) as [|[k a] m IH]; [done|].
  apply Forall_cons in Hid as [Hk Hid]. simpl in Hk. csimpl.
  by rewrite Hk, <- IH.
Qed.

Lemma NoDup_ids_needsTranslation locale w :
  wellFormed w →
  NoDup (id <$> needsTranslationOf locale (getUntranslatedArticles locale w)).
Proof.
  intros Hwf. eapply (sublist_NoDup _ (id <$> getAllArticles w)).
  - rewrite wellFormed_ids by done. apply Hwf.
  - apply fmap_sublist. unfold needsTranslationOf, getUntranslatedArticles.
    etrans; apply filter_sublist_of.
Qed.

Lemma newCalls_evolvesBy w new w' : evolvesBy w new w' → newCalls w w' = new.
Proof.
  intros (Hc & _). unfold newCalls. rewrite Hc. by rewrite drop_app_length.
Qed.

Lemma noSelfTranslation_persist new w1 n2 w2 :
  noSelfTranslation new w1 → evolvesBy w1 n2 w2 → noSelfTranslation new w2.
Proof.
  intros H (_ & _ & _ & Hkeep) k l t d Hin.
  destruct (H k l t d Hin) as (a1 & Ha1 & Hs).
  destruct (Hkeep k a1 Ha1) as (a2 & Ha2 & Hcore & _).
  exists a2. split; [done|].
  destruct Hcore as (_ & _ & _ & _ & _ & _ & _ & _ & _ & <- & _). done.
Qed.

Lemma noSelfTranslation_app n1 n2 w :
  noSelfTranslation n1 w → noSelfTranslation n2 w → noSelfTranslation (n1 ++ n2) w.
Proof.
  intros H1 H2 k l t d [Hin|Hin]%elem_of_app; [by eapply H1 | by eapply H2].
Qed.

Lemma processLocale_spec env locale w :
  lingoDotDev w = true →
  let needs := needsTranslationOf locale (getUntranslatedArticles locale w) in
  let r := processLocale env locale w in
  fst r = Ok tt
  ∧ snd r = run (batchLoop env (length needs) 0 needs locale) w
  ∧ ∃ new, evolvesBy w new (snd r)
      ∧ (∀ k l t d, CStoreTranslation k l t d ∈ new →
           l = locale ∧ k ∈ id <$> needs)
      ∧ List.filter isLocalizeCall new = map (requestFor locale) (batchesOf needs).
Proof.
  intros Hengine needs r.
  assert (Heq : r = batchLoop env (length needs) 0 needs locale w).
  { unfold r, processLocale, gets, mbind, M_bind. cbv beta iota.
    fold needs. case_bool_decide as H1.
    - assert (needs = []) as ->; [|done].
      unfold needs. by rewrite (nil_length_inv _ H1).
    - case_bool_decide as H2; [|done]. by rewrite H2. }
  destruct (batchLoop_spec env (length needs) 0 needs locale w Hengine)
    as (Hok & new & Hev & Hcalls & Hreq).
  rewrite Heq. split; [exact Hok|]. split; [done|].
  exists new. split; [exact Hev|]. split; [|exact Hreq].
  intros k l t d Hin. destruct (Hcalls k l t d Hin) as [-> Hk]. split; [done|].
  apply list_elem_of_fmap in Hk as (a & -> & Ha).
  apply list_elem_of_fmap. exists a. split; [done|].
  simpl in Ha. eapply elem_of_sublist; [exact Ha | apply sublist_take].
Qed.

Lemma processLocale_noSelf env locale w new :
  wellFormed w →
  evolvesBy w new (snd (processLocale env locale w)) →
  (∀ k l t d, CStoreTranslation k l t d ∈ new →
     l = locale
     ∧ k ∈ id <$> needsTranslationOf locale (getUntranslatedArticles locale w)) →
  noSelfTranslation new (snd (processLocale env locale w)).
Proof.
  intros Hwf Hev Hcalls k l t d Hin.
  destruct (Hcalls k l t d Hin) as [-> Hk].
  apply list_elem_of_fmap in Hk as (a & -> & Ha).
  apply needsTranslation_elem in Ha as (Hstored & _ & Hs).
  pose proof (wellFormed_elem w a Hwf Hstored) as Hget.
  destruct Hev as (_ & _ & _ & Hkeep).
  destruct (Hkeep _ _ Hget) as (a' & Ha' & Hcore & _).
  exists a'. split; [done|].
  destruct Hcore as (_ & _ & _ & _ & _ & _ & _ & _ & _ & <- & _). done.
Qed.

Lemma forEach_locales_spec env locales w :
  lingoDotDev w = true → wellFormed w →
  let r := forEach locales (processLocale env) w in
  fst r = Ok tt
  ∧ ∃ new, evolvesBy w new (snd r)
      ∧ (∀ k l t d, CStoreTranslation k l t d ∈ new → l ∈ locales)
      ∧ noSelfTranslation new (snd r).
Proof.
  revert w. induction locales as [|locale locales IH]; intros w Hengine Hwf.
  - simpl. split; [done|]. exists []. split; [apply evolvesBy_refl|].
    split; intros k l t d H; by apply elem_of_nil in H.
  - destruct (processLocale_spec env locale w Hengine)
      as (Hok1 & _ & n1 & Hev1 & Hcalls1 & _).
    pose proof (processLocale_noSelf env locale w n1 Hwf Hev1 Hcalls1) as Hself1.
    cbv zeta. cbn [forEach]. rewrite (bind_run _ _ _ tt) by exact Hok1.
    set (w1 := snd (processLocale env locale w)) in *.
    destruct (IH w1 (evolvesBy_engine _ _ _ Hev1 Hengine)
                (proj1 (proj2 (proj2 Hev1)) Hwf))
      as (Hok2 & n2 & Hev2 & Hcalls2 & Hself2).
    split; [exact Hok2|]. exists (n1 ++ n2).
    split; [by eapply evolvesBy_trans|]. split.
    + intros k l t d [Hin|Hin]%elem_of_app.
      * destruct (Hcalls1 k l t d Hin) as [-> _]. by left.
      * right. by eapply Hcalls2.
    + apply noSelfTranslation_app; [|done].
      by eapply noSelfTranslation_persist.
Qed.

Lemma processQueue_idle env w :
  isProcessing w = true ∨ lingoDotDev w = false → processQueue env w = (Ok tt, w).
Proof.
  intros H. unfold processQueue, gets, mbind, M_bind. cbv beta iota.
  by destruct H as [-> | ->]; [|rewrite orb_true_r].
Qed.

Lemma processQueue_run env w :
  isProcessing w = false → lingoDotDev w = true →
  processQueue env w
  = (Ok tt, set_isProcessing false
              (run (forEach ENABLED_LOCALES (processLocale env))
                   (set_isProcessing true w))).
Proof.
  intros Hbusy Hengine. unfold processQueue, gets, mbind, M_bind. cbv beta iota.
  rewrite Hbusy, Hengine. cbn [orb negb]. unfold modify, finally, tryCatch, run.
  cbv beta iota.
  by destruct (forEach ENABLED_LOCALES (processLocale env) (set_isProcessing true w))
    as [[[]|e] w1].
Qed.

Lemma processQueue_spec env w :
  wellFormed w →
  fst (processQueue env w) = Ok tt
  ∧ ∃ new, evolvesBy w new (run (processQueue env) w)
      ∧ (∀ k l t d, CStoreTranslation k l t d ∈ new → l ∈ ENABLED_LOCALES)
      ∧ noSelfTranslation new (run (processQueue env) w).
Proof.
  intros Hwf.
  destruct (isProcessing w) eqn:Hbusy; [|destruct (lingoDotDev w) eqn:Hengine].
  - unfold run. rewrite processQueue_idle by by left. split; [done|].
    exists []. split; [apply evolvesBy_refl|].
    split; intros k l t d H; by apply elem_of_nil in H.
  - unfold run. rewrite processQueue_run by done. simpl. split; [done|].
    set (w0 := set_isProcessing true w).
    assert (Hev0 : evolvesBy w [] w0) by by apply evolvesBy_frame; [rewrite app_nil_r|..].
    destruct (forEach_locales_spec env ENABLED_LOCALES w0)
      as (_ & new & Hev & Hcalls & Hself); [done | by apply Hev0 |].
    unfold run. set (w1 := snd (forEach ENABLED_LOCALES (processLocale env) w0)) in *.
    assert (Hev1 : evolvesBy w1 [] (set_isProcessing false w1))
      by by apply evolvesBy_frame; [rewrite app_nil_r|..].
    exists new. split.
    + replace new with (([] ++ new) ++ []) by by rewrite app_nil_r.
      eapply evolvesBy_trans; [|exact Hev1]. by eapply evolvesBy_trans.
    + split; [exact Hcalls|]. by eapply noSelfTranslation_persist.
  - unfold run. rewrite processQueue_idle by by right. split; [done|].
    exists []. split; [apply evolvesBy_refl|].
    split; intros k l t d H; by apply elem_of_nil in H.
Qed.

(** C9. The queue never self-translates: the articles whose
    [sourceLocale] is the target locale are filtered out before batching;
    every [storeTranslation] call a cycle makes is for a stored article
    whose [sourceLocale] differs from the locale of the call; and the
    entry of a stored article for its own [sourceLocale] is after the
    cycle what it was before. *)
Theorem queue_never_self_translates (env : Env) (w : World) :
  wellFormed w →
  let w' := run (processQueue env) w in
  (∀ locale untranslated a,
      a ∈ needsTranslationOf locale untranslated → sourceLocale a ≠ locale)
  ∧ noSelfTranslation (newCalls w w') w'
  ∧ (∀ k a, getArticle k w = Some a →
       ∃ a', getArticle k w' = Some a' ∧ sourceLocale a' = sourceLocale a
             ∧ translations a' !! sourceLocale a = translations a !! sourceLocale a)
  ∧ wellFormed w'.
Proof.
  intros Hwf w'.
  destruct (processQueue_spec env w Hwf) as (_ & new & Hev & _ & Hself).
  fold w' in Hev, Hself.
  split; [apply needsTranslationOf_excludes|].
  split; [by rewrite (newCalls_evolvesBy _ _ _ Hev)|].
  split; [|by apply Hev].
  intros k a Hget. destruct Hev as (_ & _ & _ & Hkeep).
  destruct (Hkeep k a Hget) as (a' & Hget' & Hcore & Hsame).
  assert (Hloc : sourceLocale a' = sourceLocale a).
  { by destruct Hcore as (_ & _ & _ & _ & _ & _ & _ & _ & _ & <- & _). }
  exists a'. split; [done|]. split; [done|].
  apply Hsame. intros t d Hin.
  destruct (Hself k _ t d Hin) as (a'' & Hget'' & Hneq).
  rewrite Hget' in Hget''. injection Hget'' as <-. by apply Hneq.
Qed.

Lemma queue_never_self_translates_witness :
  ∃ a', getArticle (str "guid-2")
          (run (processQueue (constEnv (Throw []) (Ok ∅)))
               (snd (upsertArticle (sampleArticle "guid-2" "Second title" "ar")
                       worldWithArticleOne))) = Some a'
        ∧ translations a' !! str "ar" = None.
Proof.
  destruct (queue_never_self_translates (constEnv (Throw []) (Ok ∅))
              (snd (upsertArticle (sampleArticle "guid-2" "Second title" "ar")
                      worldWithArticleOne)))
    as (_ & _ & Hkeep & _).
  - apply wellFormed_upsertArticle.
    apply (wellFormed_articles (snd (upsertArticle articleOne initialWorld)));
      [reflexivity|].
    apply wellFormed_upsertArticle, wellFormed_initial.
  - destruct (Hkeep (str "guid-2") (sampleArticle "guid-2" "Second title" "ar"))
      as (a' & Hget & _ & Hsame); [reflexivity|].
    exists a'. split; [exact Hget|]. exact Hsame.
Defined.

(** *** A batch whose request fails *)

Lemma forEach_app_run {A : Type} (xs ys : list A) (f : A → M unit) w :
  fst (forEach xs f w) = Ok tt →
  forEach (xs ++ ys) f w = forEach ys f (snd (forEach xs f w)).
Proof.
  revert w. induction xs as [|x xs IH]; intros w; simpl; [done|].
  unfold mbind, M_bind. destruct (f x w) as [[[]|e] w1]; simpl; [|done].
  apply IH.
Qed.

Lemma NoDup_ENABLED_LOCALES : NoDup ENABLED_LOCALES.
Proof.
  unfold ENABLED_LOCALES. apply NoDup_cons. split; [|apply NoDup_singleton].
  intros H. apply list_elem_of_singleton in H. discriminate H.
Qed.

Lemma batchLoop_split env j fuel i needs locale w :
  lingoDotDev w = true →
  run (batchLoop env (j + fuel) i needs locale) w
  = run (batchLoop env fuel (i + j * BATCH_SIZE) needs locale)
        (run (batchLoop env j i needs locale) w).
Proof.
  revert i w. induction j as [|j IH]; intros i w Hengine.
  - simpl. by rewrite Nat.add_0_r.
  - destruct (decide (i < length needs)%nat) as [Hi|Hi].
    + unfold run. cbn [Nat.add]. rewrite !batchLoop_step by done.
      destruct (evolvesBy_afterBatch env i needs locale w Hengine)
        as (stores & rest & Hev & _).
      pose proof (IH (i + BATCH_SIZE)%nat _ (evolvesBy_engine _ _ _ Hev Hengine)) as H.
      unfold run in H. rewrite H. f_equal. f_equal. unfold BATCH_SIZE. lia.
    + unfold run. rewrite !batchLoop_stop by (unfold BATCH_SIZE; lia). done.
Qed.

Lemma NoDup_ids_disjoint (l : list StoredArticle) n a b :
  NoDup (id <$> l) → a ∈ take n l → b ∈ drop n l → id a ≠ id b.
Proof.
  intros Hnd Ha Hb Heq. rewrite <- (take_drop n l), fmap_app in Hnd.
  apply NoDup_app in Hnd as (_ & Hdisj & _).
  apply (Hdisj (id a)).
  - apply list_elem_of_fmap. by exists a.
  - rewrite Heq. apply list_elem_of_fmap. by exists b.
Qed.

(** Within the work on one locale: when the request of batch [j] fails,
    no [storeTranslation] call is made for any of its articles. *)
Lemma failed_batch_in_locale env wL locale j e :
  wellFormed wL → lingoDotDev wL = true →
  let needs := needsTranslationOf locale (getUntranslatedArticles locale wL) in
  let batch := take BATCH_SIZE (drop (j * BATCH_SIZE) needs) in
  let wj := run (batchLoop env j 0 needs locale) wL in
  (j * BATCH_SIZE < length needs)%nat →
  localizeObject env (tick wj) (buildTextObj batch) (batchSourceLocale batch) locale
    = Throw e →
  ∀ a t d, a ∈ batch →
    CStoreTranslation (id a) locale t d
      ∉ newCalls wL (snd (processLocale env locale wL)).
Proof.
  intros Hwf Hengine needs batch wj Hj Hfail a t d Ha.
  pose proof (NoDup_ids_needsTranslation locale wL Hwf) as Hnd. fold needs in Hnd.
  destruct (processLocale_spec env locale wL Hengine) as (_ & Hrun & _).
  fold needs in Hrun. rewrite Hrun. clear Hrun.
  destruct (batchLoop_spec env j 0 needs locale wL Hengine)
    as (_ & n1 & Hev1 & Hcalls1 & _).
  change (snd (batchLoop env j 0 needs locale wL)) with wj in Hev1.
  pose proof (evolvesBy_engine _ _ _ Hev1 Hengine) as Hengine1.
  destruct (evolvesBy_afterBatch env (j * BATCH_SIZE) needs locale wj Hengine1)
    as (stores & rest & Hev2 & Hstores & Hrest).
  fold batch in Hev2, Hstores. rewrite Hfail in Hstores. subst stores.
  set (w2 := afterBatch env (j * BATCH_SIZE) needs locale wj) in *.
  pose proof (evolvesBy_engine _ _ _ Hev2 Hengine1) as Hengine2.
  set (fuel := (length needs - S j)%nat).
  destruct (batchLoop_spec env fuel (j * BATCH_SIZE + BATCH_SIZE) needs locale w2 Hengine2)
    as (_ & n3 & Hev3 & Hcalls3 & _).
  assert (Hfinal : run (batchLoop env (length needs) 0 needs locale) wL
                   = snd (batchLoop env fuel (j * BATCH_SIZE + BATCH_SIZE) needs locale w2)).
  { replace (length needs) with (j + S fuel)%nat
      by (unfold fuel, BATCH_SIZE in *; lia).
    rewrite batchLoop_split by done. fold wj. unfold run.
    by rewrite batchLoop_step. }
  rewrite Hfinal.
  pose proof (evolvesBy_trans _ _ _ _ _ (evolvesBy_trans _ _ _ _ _ Hev1 Hev2) Hev3) as Hev.
  rewrite (newCalls_evolvesBy _ _ _ Hev).
  assert (Hdrop : a ∈ drop (j * BATCH_SIZE) needs).
  { eapply elem_of_sublist; [exact Ha | apply sublist_take]. }
  intros [[Hin|Hin]%elem_of_app|Hin]%elem_of_app.
  - destruct (Hcalls1 _ _ _ _ Hin) as [_ Hk].
    apply list_elem_of_fmap in Hk as (b & Hid & Hb).
    change (drop 0 needs) with needs in Hb.
    by apply (NoDup_ids_disjoint needs (j * BATCH_SIZE) b a Hnd Hb Hdrop).
  - apply elem_of_cons in Hin as [Hin|Hin]; [done|]. simpl in Hin.
    destruct Hrest as [->| ->]; [by apply elem_of_nil in Hin|].
    by apply list_elem_of_singleton in Hin.
  - destruct (Hcalls3 _ _ _ _ Hin) as [_ Hk].
    apply list_elem_of_fmap in Hk as (b & Hid & Hb).
    apply (NoDup_ids_disjoint (drop (j * BATCH_SIZE) needs) BATCH_SIZE a b);
      [| done | | done].
    + eapply sublist_NoDup; [exact Hnd|]. apply fmap_sublist, sublist_drop.
    + rewrite drop_drop. eapply elem_of_sublist; [exact Hb | apply sublist_take].
Qed.

(** A cycle is the work on the locales before [locale], the work on
    [locale], and the work on the locales after it. *)
Lemma cycle_decomposition env w pre locale post :
  wellFormed w → isProcessing w = false → lingoDotDev w = true →
  ENABLED_LOCALES = pre ++ locale :: post →
  let wL := run (forEach pre (processLocale env)) (set_isProcessing true w) in
  let wL' := snd (processLocale env locale wL) in
  let w' := run (processQueue env) w in
  wellFormed wL ∧ lingoDotDev wL = true
  ∧ ∃ nPre nPost,
      evolvesBy w nPre wL
      ∧ evolvesBy wL' nPost w'
      ∧ (∀ k l t d, CStoreTranslation k l t d ∈ nPre → l ∈ pre)
      ∧ (∀ k l t d, CStoreTranslation k l t d ∈ nPost → l ∈ post).
Proof.
  intros Hwf Hbusy Hengine Hsplit wL wL' w'.
  set (w0 := set_isProcessing true w) in *.
  assert (Hev0 : evolvesBy w [] w0) by by apply evolvesBy_frame; [rewrite app_nil_r|..].
  destruct (forEach_locales_spec env pre w0)
    as (HokPre & nPre & HevPre & HcallsPre & _); [done | by apply Hev0 |].
  fold (run (forEach pre (processLocale env)) w0) in HevPre. fold wL in HevPre.
  assert (HwfL : wellFormed wL) by (apply HevPre, Hev0, Hwf).
  assert (HengineL : lingoDotDev wL = true) by by eapply evolvesBy_engine.
  destruct (processLocale_spec env locale wL HengineL)
    as (HokL & _ & nL & HevL & _).
  fold wL' in HevL.
  destruct (forEach_locales_spec env post wL')
    as (HokPost & nPost & HevPost & HcallsPost & _);
    [by eapply evolvesBy_engine | by apply HevL |].
  assert (Hw' : w' = set_isProcessing false (snd (forEach post (processLocale env) wL'))).
  { unfold w', run. rewrite processQueue_run by done. cbn [snd]. f_equal.
    unfold run. rewrite Hsplit, forEach_app_run by exact HokPre.
    fold (run (forEach pre (processLocale env)) w0). fold wL.
    cbn [forEach]. by rewrite (bind_run _ _ _ tt) by exact HokL. }
  split; [done|]. split; [done|].
  exists nPre, nPost. split; [|split; [|split]].
  - change nPre with ([] ++ nPre). by eapply evolvesBy_trans.
  - rewrite Hw'. rewrite <- (app_nil_r nPost).
    eapply evolvesBy_trans; [exact HevPost|].
    by apply evolvesBy_frame; [rewrite app_nil_r|..].
  - exact HcallsPre.
  - exact HcallsPost.
Qed.

(** C5. Translation batches are atomic on failure, and a failure stays
    local.  In a cycle, for the batch [j] of an enabled locale: if the
    provider call made for it fails, the cycle makes no [storeTranslation]
    call for that locale for any article of the batch, and at the end of
    the cycle each of them is stored without entry for the locale; the
    cycle runs to its end ([isProcessing] is reset, no error escapes) and
    every batch of every enabled locale has had its provider call. *)
Theorem failed_batch_is_skipped (env : Env) (w : World) (pre post : list jsstring)
    (locale : jsstring) (j : nat) (e : jsstring) :
  wellFormed w → isProcessing w = false → lingoDotDev w = true →
  ENABLED_LOCALES = pre ++ locale :: post →
  let wL := run (forEach pre (processLocale env)) (set_isProcessing true w) in
  let needs := needsTranslationOf locale (getUntranslatedArticles locale wL) in
  let batch := take BATCH_SIZE (drop (j * BATCH_SIZE) needs) in
  let wj := run (batchLoop env j 0 needs locale) wL in
  (j * BATCH_SIZE < length needs)%nat →
  localizeObject env (tick wj) (buildTextObj batch) (batchSourceLocale batch) locale
    = Throw e →
  let w' := run (processQueue env) w in
  fst (processQueue env w) = Ok tt
  ∧ isProcessing w' = false
  ∧ (∀ a, a ∈ batch →
       (∀ t d, CStoreTranslation (id a) locale t d ∉ newCalls w w')
       ∧ ∃ a', getArticle (id a) w' = Some a' ∧ translations a' !! locale = None)
  ∧ (∀ pre2 locale2 post2, ENABLED_LOCALES = pre2 ++ locale2 :: post2 →
       let w2 := run (forEach pre2 (processLocale env)) (set_isProcessing true w) in
       ∀ b, b ∈ batchesOf (needsTranslationOf locale2
                             (getUntranslatedArticles locale2 w2)) →
            requestFor locale2 b ∈ newCalls w w').
Proof.
  intros Hwf Hbusy Hengine Hsplit wL needs batch wj Hj Hfail w'.
  split; [by rewrite processQueue_run|].
  split; [unfold w', run; by rewrite processQueue_run|].
  split.
  - intros a Ha.
    destruct (cycle_decomposition env w pre locale post Hwf Hbusy Hengine Hsplit)
      as (HwfL & HengineL & nPre & nPost & HevPre & HevPost & HcallsPre & HcallsPost).
    fold wL in HwfL, HengineL, HevPre, HevPost. fold w' in HevPost.
    destruct (processLocale_spec env locale wL HengineL) as (_ & _ & nL & HevL & _).
    set (wL' := snd (processLocale env locale wL)) in *.
    pose proof NoDup_ENABLED_LOCALES as Hnd. rewrite Hsplit in Hnd.
    apply NoDup_app in Hnd as (_ & Hpre & [Hpost _]%NoDup_cons).
    assert (HnL : ∀ t d, CStoreTranslation (id a) locale t d ∉ nL).
    { intros t d. rewrite <- (newCalls_evolvesBy _ _ _ HevL).
      by eapply failed_batch_in_locale. }
    assert (HnPost : ∀ t d, CStoreTranslation (id a) locale t d ∉ nPost).
    { intros t d Hin. by apply Hpost, (HcallsPost _ _ _ _ Hin). }
    assert (HnPre : ∀ t d, CStoreTranslation (id a) locale t d ∉ nPre).
    { intros t d Hin. apply (Hpre locale); [by apply (HcallsPre _ _ _ _ Hin)|].
      by left. }
    split.
    + intros t d.
      rewrite (newCalls_evolvesBy _ _ _
                 (evolvesBy_trans _ _ _ _ _ (evolvesBy_trans _ _ _ _ _ HevPre HevL) HevPost)).
      intros [[Hin|Hin]%elem_of_app|Hin]%elem_of_app;
        [by eapply HnPre | by eapply HnL | by eapply HnPost].
    + assert (Hneeds : a ∈ needs).
      { eapply elem_of_sublist; [exact Ha|].
        etrans; [apply sublist_take | apply sublist_drop]. }
      apply needsTranslation_elem in Hneeds as (Hstored & Hnone & _).
      pose proof (wellFormed_elem wL a HwfL Hstored) as Hget.
      destruct (evolvesBy_trans _ _ _ _ _ HevL HevPost) as (_ & _ & _ & Hkeep).
      destruct (Hkeep _ _ Hget) as (a' & Hget' & _ & Hsame).
      exists a'. split; [done|]. rewrite Hsame; [done|].
      intros t d [Hin|Hin]%elem_of_app; [by eapply HnL | by eapply HnPost].
  - intros pre2 locale2 post2 Hsplit2 w2 b Hb.
    destruct (cycle_decomposition env w pre2 locale2 post2 Hwf Hbusy Hengine Hsplit2)
      as (HwfL & HengineL & nPre & nPost & HevPre & HevPost & _).
    fold w2 in HwfL, HengineL, HevPre, HevPost. fold w' in HevPost.
    destruct (processLocale_spec env locale2 w2 HengineL)
      as (_ & _ & nL & HevL & _ & Hreq).
    rewrite (newCalls_evolvesBy _ _ _
               (evolvesBy_trans _ _ _ _ _ (evolvesBy_trans _ _ _ _ _ HevPre HevL) HevPost)).
    apply elem_of_app. left. apply elem_of_app. right.
    assert (Hin : requestFor locale2 b ∈ List.filter isLocalizeCall nL).
    { rewrite Hreq. apply list_elem_of_In, in_map. by apply list_elem_of_In. }
    apply list_elem_of_In, filter_In in Hin as [Hin _]. by apply list_elem_of_In.
Qed.

Lemma wellFormed_worldWith25 : wellFormed worldWith25.
Proof.
  apply (wellFormed_articles
           (fold_left (fun w a => snd (upsertArticle a w))
                      (map numberedArticle (seq 0 25)) initialWorld));
    [reflexivity|].
  apply (evolvesBy_upserts (map numberedArticle (seq 0 25)) initialWorld).
  apply wellFormed_initial.
Qed.

Lemma failed_batch_is_skipped_witness :
  (∃ a', getArticle (id (numberedArticle 0))
           (run (processQueue firstBatchFailsEnv) worldWith25) = Some a'
         ∧ translations a' !! str "ar" = None)
  ∧ requestFor (str "ar") (map numberedArticle (seq 20 5))
      ∈ newCalls worldWith25 (run (processQueue firstBatchFailsEnv) worldWith25).
Proof.
  destruct (failed_batch_is_skipped firstBatchFailsEnv worldWith25
              [str "en"] [] (str "ar") 0 (str "rate limited"))
    as (_ & _ & Hbatch & Hall).
  - apply wellFormed_worldWith25.
  - reflexivity.
  - reflexivity.
  - reflexivity.
  - vm_compute. lia.
  - vm_compute. reflexivity.
  - split.
    + apply (Hbatch (numberedArticle 0)). vm_compute. apply list_elem_of_here.
    + apply (Hall [str "en"] (str "ar") [] eq_refl).
      vm_compute. apply list_elem_of_further, list_elem_of_here.
Defined.

(** Scenario of the specification: 25 untranslated articles and a batch
    size of 20 give two provider calls, for 20 and for 5 articles (two keys
    per article), with a delay between them. *)
Example scenario_two_batches :
  map callName
    (newCalls worldWith25 (run (processQueue firstBatchFailsEnv) worldWith25))
  = ["localizeObject"; "sleep"; "localizeObject"; "storeTranslation";
     "storeTranslation"; "storeTranslation"; "storeTranslation";
     "storeTranslation"]%string
  ∧ map requestSize
      (List.filter isLocalizeCall
         (newCalls worldWith25 (run (processQueue firstBatchFailsEnv) worldWith25)))
    = [40%nat; 10%nat].
Proof. split; vm_compute; reflexivity. Qed.

(** Scenario of the specification: a feed returns three new items on the
    first poll and "not modified" on the second. *)
Example scenario_two_polls :
  let w1 := run (fetchAndStoreFeed twoPollsEnv sampleFeed) initialWorld in
  let w2 := run (fetchAndStoreFeed twoPollsEnv sampleFeed) w1 in
  getArticleCount w1 = 3%nat
  ∧ map (fun m => (articlesAdded m, totalArticlesInFeed m, skipped304 m, error m))
        (metricsLog w1) = [(3%nat, 3%nat, false, None)]
  ∧ map id (getAllArticles w1) = [str "g-1"; str "g-2"; str "g-3"]
  ∧ map description (getAllArticles w1)
    = [str "Some text & more"; str "Some text & more"; str "Some text & more"]
  ∧ getArticleCount w2 = 3%nat
  ∧ map (fun m => (articlesAdded m, totalArticlesInFeed m, skipped304 m, error m))
        (metricsLog w2)
    = [(3%nat, 3%nat, false, None); (0%nat, 0%nat, true, None)]
  ∧ map callName (newCalls initialWorld w1)
    = ["fetch"; "setFeedCache"; "upsertArticle"; "upsertArticle";
       "upsertArticle"; "triggerQueueProcessing"; "logFetchMetric"]%string
  ∧ map callName (newCalls w1 w2) = ["fetch"; "logFetchMetric"]%string.
Proof. vm_compute. repeat split. Qed.

(** ** Every state the process reaches is well formed *)

Section KeepsWellFormed.
Context {A B : Type}.

Lemma keepsWellFormed_bind (c : M A) (f : A → M B) :
  keepsWellFormed c → (∀ a, keepsWellFormed (f a)) → keepsWellFormed (c ≫= f).
Proof.
  intros Hc Hf w Hw. unfold mbind, M_bind. specialize (Hc w Hw).
  destruct (c w) as [[a|e] w1]; simpl in *; [by apply Hf | done].
Qed.

Lemma keepsWellFormed_tryCatch (c : M A) (h : jsstring → M A) :
  keepsWellFormed c → (∀ e, keepsWellFormed (h e)) → keepsWellFormed (tryCatch c h).
Proof.
  intros Hc Hh w Hw. unfold tryCatch. specialize (Hc w Hw).
  destruct (c w) as [[a|e] w1]; simpl in *; [done | by apply Hh].
Qed.

Lemma keepsWellFormed_articles (c : M A) :
  (∀ w, articles (snd (c w)) = articles w) → keepsWellFormed c.
Proof. intros H w Hw. by apply (wellFormed_articles w). Qed.
End KeepsWellFormed.

Lemma keepsWellFormed_ingestItems env feed items added :
  keepsWellFormed (ingestItems env feed items added).
Proof.
  revert added. induction items as [|item items IH]; intros added.
  - by apply keepsWellFormed_articles.
  - cbn [ingestItems]. apply keepsWellFormed_bind; [|intros isNew; apply IH].
    unfold ingestItem.
    repeat (apply keepsWellFormed_bind; [by apply keepsWellFormed_articles | intros ?]).
    intros w Hw. unfold upsertArticleM. simpl.
    apply wellFormed_upsertArticle. by apply (wellFormed_articles w).
Qed.

Lemma keepsWellFormed_fetchAndStoreFeed env feed :
  keepsWellFormed (fetchAndStoreFeed env feed).
Proof.
  unfold fetchAndStoreFeed.
  apply keepsWellFormed_bind; [by apply keepsWellFormed_articles | intros startTime].
  apply keepsWellFormed_tryCatch.
  - apply keepsWellFormed_bind; [by apply keepsWellFormed_articles | intros cache].
    apply keepsWellFormed_bind; [by apply keepsWellFormed_articles | intros response].
    destruct (status response =? 304).
    { repeat (apply keepsWellFormed_bind; [by apply keepsWellFormed_articles | intros ?]).
      by apply keepsWellFormed_articles. }
    destruct (negb (responseOk response)); [by apply keepsWellFormed_articles|].
    apply keepsWellFormed_bind.
    { destruct (_ || _); by apply keepsWellFormed_articles. }
    intros _.
    apply keepsWellFormed_bind; [by apply keepsWellFormed_articles | intros result].
    apply keepsWellFormed_bind; [by apply keepsWellFormed_articles | intros items].
    apply keepsWellFormed_bind; [apply keepsWellFormed_ingestItems | intros added].
    apply keepsWellFormed_bind.
    { case_bool_decide; by apply keepsWellFormed_articles. }
    intros _.
    repeat (apply keepsWellFormed_bind; [by apply keepsWellFormed_articles | intros ?]).
    by apply keepsWellFormed_articles.
  - intros e.
    repeat (apply keepsWellFormed_bind; [by apply keepsWellFormed_articles | intros ?]).
    by apply keepsWellFormed_articles.
Qed.

Lemma wellFormed_applyOp env w op : wellFormed w → wellFormed (applyOp env w op).
Proof.
  intros Hw. destruct op as [a|i l t d|u e|m]; simpl.
  - by apply wellFormed_upsertArticle.
  - by apply wellFormed_storeTranslation.
  - by apply (wellFormed_articles w).
  - by apply (wellFormed_articles w).
Qed.

(** Whatever tasks have run since the start of the process, the keys of
    the article map are distinct and every article is filed under its own
    id. *)
Lemma wellFormed_runTasks env tasks : wellFormed (runTasks env tasks initialWorld).
Proof.
  unfold runTasks.
  assert (H : ∀ w, wellFormed w → wellFormed (fold_left (runTask env) tasks w)).
  { induction tasks as [|t tasks IH]; intros w Hw; simpl; [done|].
    apply IH. destruct t as [|feed| |op]; simpl.
    - by apply (wellFormed_articles w).
    - by apply keepsWellFormed_fetchAndStoreFeed.
    - destruct (processQueue_spec env w Hw) as (_ & new & Hev & _). by apply Hev.
    - by apply wellFormed_applyOp. }
  apply H, wellFormed_initial.
Qed.

(** * Further properties of the code *)

(** ** db.ts: counting, order, and the untranslated articles *)

(** X1. [upsertArticle] returns [true] exactly when the article count
    grows by one; the new article is then the last of [getAllArticles] and
    its id was not stored before.  When it returns [false] the state is
    the one it was given, and the id was stored. *)
Theorem upsertArticle_count_and_order (a : StoredArticle) (w : World) :
  let r := upsertArticle a w in
  getArticleCount (snd r) = (getArticleCount w + (if fst r then 1 else 0))%nat
  ∧ (fst r = true →
       getAllArticles (snd r) = getAllArticles w ++ [a]
       ∧ getArticle (id a) w = None
       ∧ getArticle (id a) (snd r) = Some a)
  ∧ (fst r = false → snd r = w ∧ is_Some (getArticle (id a) w)).
Proof.
  cbv zeta. destruct (mapHas (id a) (articles w)) eqn:E.
  - rewrite upsertArticle_present by done. simpl.
    split; [lia|]. split; [done|]. intros _. split; [done|].
    by apply mapHas_true.
  - rewrite upsertArticle_absent by done. simpl.
    unfold getArticleCount, getAllArticles, mapValues, getArticle. simpl.
    split; [rewrite length_app; simpl; lia|]. split; [|done]. intros _.
    apply mapHas_false in E.
    split; [by rewrite map_app|]. split; [done|].
    rewrite <- (mapSet_absent _ _ a E). apply assocGet_mapSet_eq.
Qed.

Lemma mapSet_split {V : Type} (m : list (jsstring * V)) k v v' :
  NoDup m.*1 → assocGet k m = Some v →
  ∃ m1 m2, m = m1 ++ (k, v) :: m2 ∧ mapSet k v' m = m1 ++ (k, v') :: m2
           ∧ (k ∉ m1.*1) ∧ (k ∉ m2.*1).
Proof.
  induction m as [|[k0 v0] m IH]; simpl; [done|].
  rewrite NoDup_cons. intros [Hk0 Hnd].
  destruct (decide (k0 = k)) as [->|Hne].
  - intros [= ->]. exists [], m. repeat split; [apply not_elem_of_nil | done].
  - intros H. destruct (IH Hnd H) as (m1 & m2 & -> & -> & H1 & H2).
    exists ((k0, v0) :: m1), m2. repeat split; [|done].
    csimpl. apply not_elem_of_cons. split; [by intros -> | done].
Qed.

Lemma filter_ids_other (P : StoredArticle → bool) (k : jsstring)
    (m : list (jsstring * StoredArticle)) :
  Forall (fun e => id (snd e) = fst e) m → k ∉ m.*1 →
  List.filter (fun i => negb (bool_decide (i = k))) (id <$> List.filter P (mapValues m))
  = id <$> List.filter P (mapValues m).
Proof.
  induction m as [|[k0 a0] m IH]; [done|].
  intros [Hid Hm]%Forall_cons. csimpl. intros [Hk0 Hk]%not_elem_of_cons.
  simpl in Hid. unfold mapValues in *. simpl. destruct (P a0); [|by apply IH].
  csimpl. rewrite Hid. rewrite bool_decide_false by congruence. simpl.
  f_equal. by apply IH.
Qed.

(** X2. Once a translation is stored for a stored article,
    [getUntranslatedArticles] for that locale lists the articles it listed
    before but that one, in the same order; when the locale is not
    [__proto__], it lists for any other locale the same ids as before. *)
Theorem storeTranslation_leaves_untranslated (env : Env) (w : World)
    (articleId locale ttl desc : jsstring) (a : StoredArticle) :
  wellFormed w → getArticle articleId w = Some a →
  let w' := storeTranslation env articleId locale ttl desc w in
  id <$> getUntranslatedArticles locale w'
  = List.filter (fun i => negb (bool_decide (i = articleId)))
                (id <$> getUntranslatedArticles locale w)
  ∧ (locale ≠ str "__proto__" →
     ∀ other, other ≠ locale →
       id <$> getUntranslatedArticles other w'
       = id <$> getUntranslatedArticles other w).
Proof.
  intros [Hnd Hid] Hget w'.
  unfold getUntranslatedArticles, w'. rewrite storeTranslation_articles.
  unfold getArticle in Hget. rewrite Hget.
  set (a' := withTranslation locale _ a).
  destruct (mapSet_split (articles w) articleId a a' Hnd Hget)
    as (m1 & m2 & Hm & -> & H1 & H2).
  rewrite Hm in Hid |- *. apply Forall_app in Hid as [Hid1 Hid2].
  apply Forall_cons in Hid2 as [Ha Hid2]. simpl in Ha.
  unfold mapValues. rewrite !map_app, !List.filter_app, !fmap_app. simpl.
  split.
  - rewrite !List.filter_app.
    pose proof (filter_ids_other (lacksTranslation locale) articleId m1 Hid1 H1) as E1.
    pose proof (filter_ids_other (lacksTranslation locale) articleId m2 Hid2 H2) as E2.
    unfold mapValues in E1, E2. rewrite E1. f_equal.
    assert (Hnew : lacksTranslation locale a' = false).
    { unfold lacksTranslation, a'. cbn [translations withTranslation].
      by rewrite lookupTranslation_insert_eq. }
    rewrite Hnew. destruct (lacksTranslation locale a); [|done].
    csimpl. rewrite Ha. rewrite bool_decide_true by done. simpl. by rewrite E2.
  - intros Hproto other Hother.
    assert (Hsame : lacksTranslation other a' = lacksTranslation other a).
    { unfold lacksTranslation, a'. cbn [translations withTranslation].
      by rewrite lookupTranslation_insert_ne. }
    rewrite !List.filter_app, !fmap_app. simpl.
    rewrite Hsame. by destruct (lacksTranslation other a).
Qed.

Lemma storeTranslation_leaves_untranslated_witness :
  id <$> getUntranslatedArticles (str "ar")
           (storeTranslation sampleEnv (str "item-3") (str "ar") (str "t") (str "d")
              worldWith25)
  = id <$> (map numberedArticle (seq 0 3 ++ seq 4 21)).
Proof.
  rewrite (proj1 (storeTranslation_leaves_untranslated sampleEnv worldWith25
                    (str "item-3") (str "ar") (str "t") (str "d")
                    (numberedArticle 3) wellFormed_worldWith25 eq_refl)).
  vm_compute. reflexivity.
Defined.

(** ** db.ts: the shape of the derived ids *)

Lemma compress_length h block :
  length h = 8%nat → length (Sha256.compress h block) = 8%nat.
Proof.
  intros H. unfold Sha256.compress.
  rewrite length_map, length_combine, H. reflexivity.
Qed.

Lemma blocks_length fuel ws h :
  length h = 8%nat → length (Sha256.blocks fuel ws h) = 8%nat.
Proof.
  revert ws h. induction fuel as [|fuel IH]; intros ws h H; [done|].
  destruct ws as [|x ws]; [done|]. cbn [Sha256.blocks].
  apply IH. by apply compress_length.
Qed.

Lemma hexDigit_lower d : d < 16 → isLowerHex (Sha256.hexDigit d) = true.
Proof.
  intros H. unfold Sha256.hexDigit, isLowerHex.
  destruct (d <? 10) eqn:E.
  - apply N.ltb_lt in E. apply orb_true_iff. left.
    apply andb_true_iff. split; apply N.leb_le; lia.
  - apply N.ltb_ge in E. apply orb_true_iff. right.
    apply andb_true_iff. split; apply N.leb_le; lia.
Qed.

Lemma hexWord_spec x :
  length (Sha256.hexWord x) = 8%nat ∧ forallb isLowerHex (Sha256.hexWord x) = true.
Proof.
  split; [reflexivity|]. unfold Sha256.hexWord. cbn [map forallb].
  rewrite !hexDigit_lower; [done|..]; by apply N.mod_lt.
Qed.

Lemma hex_words ws :
  length (concat (map Sha256.hexWord ws)) = (8 * length ws)%nat
  ∧ forallb isLowerHex (concat (map Sha256.hexWord ws)) = true.
Proof.
  induction ws as [|x ws [IH1 IH2]]; [done|].
  destruct (hexWord_spec x) as [H1 H2]. cbn [map concat].
  split.
  - rewrite length_app, H1, IH1. simpl. lia.
  - rewrite forallb_app, H2, IH2. done.
Qed.

(** The hex digest has 64 lowercase hexadecimal digits. *)
Lemma sha256_hex_shape s :
  length (Sha256.hex s) = 64%nat ∧ forallb isLowerHex (Sha256.hex s) = true.
Proof.
  unfold Sha256.hex. destruct (hex_words (Sha256.digest (Sha256.utf8 s))) as [H1 H2].
  split; [|done]. rewrite H1. unfold Sha256.digest.
  rewrite blocks_length; [done|]. vm_compute. reflexivity.
Qed.

Lemma isLowerHex_not_whitespace c : isLowerHex c = true → isWhitespace c = false.
Proof.
  unfold isLowerHex, isWhitespace.
  rewrite orb_true_iff, !andb_true_iff, !N.leb_le. intros H.
  repeat (apply orb_false_iff; split);
    try (apply N.eqb_neq; lia);
    apply andb_false_iff; left; apply N.leb_gt; lia.
Qed.

(** X3. Every id that [generateArticleId] derives from a string link is
    non-empty and carries no whitespace at either end; an id derived by
    hashing is 64 lowercase hexadecimal digits. *)
Theorem generateArticleId_shape (guid : jsval) (lnk : jsstring) :
  ∃ i, generateArticleId guid (VStr lnk) = Ok i
       ∧ i ≠ [] ∧ trim i = i
       ∧ (lacksUsableGuid guid →
            length i = 64%nat ∧ forallb isLowerHex i = true).
Proof.
  assert (Hhash : ∀ s, Sha256.hex s ≠ [] ∧ trim (Sha256.hex s) = Sha256.hex s).
  { intros s. destruct (sha256_hex_shape s) as [Hlen Hhex].
    split; [intros E; by rewrite E in Hlen|].
    assert (Hall : ∀ c, In c (Sha256.hex s) → isWhitespace c = false).
    { intros c Hc. apply isLowerHex_not_whitespace.
      rewrite forallb_forall in Hhex. by apply Hhex. }
    apply trim_fixed.
    - destruct (Sha256.hex s) as [|c r]; [done|]. simpl. apply Hall. by left.
    - unfold endsWithWs. destruct (rev (Sha256.hex s)) as [|c r] eqn:E; [done|].
      simpl. apply Hall. apply in_rev. rewrite E. by left. }
  destruct guid as [| |g| | |];
    try (exists (Sha256.hex lnk);
         split; [apply generateArticleId_unusable; by intros ? [=]|];
         split; [apply Hhash|]; split; [apply Hhash|];
         intros _; apply sha256_hex_shape).
  destruct (trim g) as [|c t] eqn:E.
  - exists (Sha256.hex lnk).
    split; [apply generateArticleId_unusable; by intros ? [= <-]|].
    split; [apply Hhash|]. split; [apply Hhash|].
    intros _. apply sha256_hex_shape.
  - exists (trim g).
    split; [apply generateArticleId_usable; by rewrite E|].
    split; [by rewrite E|]. split; [apply trim_idempotent|].
    intros H. specialize (H g eq_refl). by rewrite H in E.
Qed.

(** X4. Whitespace around a guid does not change the id: two items whose
    guids differ only by leading or trailing whitespace are the same
    article. *)
Theorem generateArticleId_ignores_outer_whitespace (pre g post : jsstring) (lnk : jsval) :
  forallb isWhitespace pre = true → forallb isWhitespace post = true →
  generateArticleId (VStr (pre ++ g ++ post)) lnk = generateArticleId (VStr g) lnk.
Proof.
  intros Hpre Hpost. unfold generateArticleId.
  rewrite (trim_surrounded pre g post Hpre Hpost).
  destruct (trim g) as [|c t] eqn:E.
  - rewrite !(bool_decide_false (0 < length (@nil N))%nat) by (simpl; lia).
    by rewrite !andb_false_r.
  - assert (Hg : truthy (VStr g) = true).
    { destruct g; [by rewrite trim_nil in E | done]. }
    assert (Hg' : truthy (VStr (pre ++ g ++ post)) = true).
    { destruct g; [by rewrite trim_nil in E|]. by destruct pre. }
    by rewrite Hg, Hg'.
Qed.

Lemma generateArticleId_ignores_outer_whitespace_witness :
  generateArticleId (VStr (str "  " ++ str "urn:uuid:42" ++ [10; 9])) VNull
  = Ok (str "urn:uuid:42").
Proof.
  rewrite (generateArticleId_ignores_outer_whitespace (str "  ") (str "urn:uuid:42")
             [10; 9] VNull eq_refl eq_refl).
  vm_compute. reflexivity.
Defined.

(** ** scheduler.ts: text that [cleanHtml] leaves alone *)

Lemma containsLit_spec lit s : containsLit lit s = false → ¬ occursIn lit s.
Proof.
  assert (Hunfold : ∀ t, containsLit lit t
            = isPrefix lit t || match t with [] => false | _ :: r => containsLit lit r end)
    by (by intros []).
  intros H (a & b & ->). induction a as [|c a IH].
  - rewrite Hunfold in H. apply orb_false_iff in H as [H _].
    assert (Hp : isPrefix lit (lit ++ b) = true)
      by (apply isPrefix_spec; by exists b).
    simpl in H. congruence.
  - rewrite Hunfold in H. apply orb_false_iff in H as [_ H]. auto.
Qed.

(** X5. [cleanHtml] returns plain text as it is: a string with no tag,
    none of the six character references, single spaces as its only
    whitespace and none at either end, and at most 1000 code units. *)
Theorem cleanHtml_plain_text_unchanged (s : jsstring) :
  plainText s = true → cleanHtml (VStr s) = Ok s.
Proof.
  unfold plainText. rewrite !andb_true_iff, !negb_true_iff, bool_decide_eq_true.
  intros [[[[[Htag Hent] Hws] Hstart] Hend] Hlen].
  rewrite cleanHtml_string. f_equal. unfold cleanHtmlString, slice0.
  rewrite stripTags_absent by done.
  assert (Hlit : ∀ lit repl, In lit ENTITIES → replaceLit lit repl s = s).
  { intros lit repl Hin. apply replaceLit_absent, containsLit_spec.
    rewrite forallb_forall in Hent. apply negb_true_iff. by apply Hent. }
  unfold unescapeEntities.
  rewrite !Hlit by (cbn; tauto).
  rewrite collapseWhitespace_collapsed by done.
  rewrite trim_fixed by done.
  by apply take_ge.
Qed.

Lemma cleanHtml_plain_text_unchanged_witness :
  cleanHtml (VStr (str "Doha: 2 < 3 & rising")) = Ok (str "Doha: 2 < 3 & rising").
Proof. apply cleanHtml_plain_text_unchanged. vm_compute. reflexivity. Defined.

(** ** scheduler.ts: the feed task *)

Lemma liftRes_bind {A B : Type} (r : Res A) (f : A → M B) (w : World) :
  (liftRes r ≫= f) w = match r with Ok a => f a w | Throw e => (Throw e, w) end.
Proof. by destruct r. Qed.

Lemma cleanHtml_Ok_sanitized v s : cleanHtml v = Ok s → sanitized s.
Proof.
  unfold cleanHtml. destruct (negb (truthy v)).
  - intros [= <-]. repeat split. simpl. lia.
  - destruct v as [| |t| | |]; try discriminate. intros [= <-].
    unfold cleanHtmlString, slice0. repeat split.
    + rewrite length_take. lia.
    + eapply whitespaceCollapsed_prefix; [apply prefix_take|].
      apply whitespaceCollapsed_trim, whitespaceCollapsed_collapse.
    + eapply startsWithWs_prefix; [apply prefix_take|]. apply startsWithWs_trim.
Qed.

Lemma sha256_hex_trimmed s : Sha256.hex s ≠ [] ∧ trim (Sha256.hex s) = Sha256.hex s.
Proof.
  destruct (sha256_hex_shape s) as [Hlen Hhex].
  split; [intros E; by rewrite E in Hlen|].
  assert (Hall : ∀ c, In c (Sha256.hex s) → isWhitespace c = false).
  { intros c Hc. apply isLowerHex_not_whitespace.
    rewrite forallb_forall in Hhex. by apply Hhex. }
  apply trim_fixed.
  - destruct (Sha256.hex s) as [|c r]; [done|]. simpl. apply Hall. by left.
  - unfold endsWithWs. destruct (rev (Sha256.hex s)) as [|c r] eqn:E; [done|].
    simpl. apply Hall. apply in_rev. rewrite E. by left.
Qed.

(** Whatever the link is, an id that [generateArticleId] returns is not
    empty and is trimmed. *)
Lemma generateArticleId_Ok_shape guid lnk i :
  generateArticleId guid lnk = Ok i → i ≠ [] ∧ trim i = i.
Proof.
  assert (Hhash : sha256Hex (jsOr lnk (VStr [])) = Ok i → i ≠ [] ∧ trim i = i).
  { unfold sha256Hex. destruct (jsOr lnk (VStr [])); try discriminate.
    intros [= <-]. apply sha256_hex_trimmed. }
  unfold generateArticleId. destruct guid as [| |g| | |]; try exact Hhash.
  destruct (truthy (VStr g) && bool_decide (0 < length (trim g))%nat) eqn:E;
    [|exact Hhash].
  intros [= <-]. apply andb_true_iff in E as [_ E%bool_decide_eq_true].
  split; [|apply trim_idempotent]. intros H. rewrite H in E. simpl in E. lia.
Qed.

(** An item is either rejected before the state is touched, whatever the
    state is, or handed to [upsertArticle] after one reading of the
    clock, whatever the state is. *)
Lemma ingestItem_cases env feed item :
  (∃ e, ∀ w, ingestItem env feed item w = (Throw e, w))
  ∨ (∀ w, ∃ a, fromFeed feed a
               ∧ ingestItem env feed item w = upsertArticleM a (next_tick w)).
Proof.
  unfold ingestItem.
  destruct (rawGuidOf item) as [g|e]; [|left; by eexists].
  destruct (linkOf item) as [l|e]; [|left; by eexists].
  destruct (titleOf item) as [t|e]; [|left; by eexists].
  destruct (descriptionOf item) as [d|e]; [|left; by eexists].
  destruct (pubDateOf item) as [p|e]; [|left; by eexists].
  destruct (generateArticleId g l) as [i|e] eqn:Hid;
    [|left; exists e; intros w; rewrite !liftRes_bind; by rewrite Hid].
  destruct (cleanHtml t) as [ct|e] eqn:Ht;
    [|left; exists e; intros w; rewrite !liftRes_bind, Hid, liftRes_bind; by rewrite Ht].
  destruct (cleanHtml d) as [cd|e] eqn:Hd;
    [|left; exists e; intros w;
      rewrite !liftRes_bind, Hid, liftRes_bind, Ht, liftRes_bind; by rewrite Hd].
  right. intros w. eexists. split.
  2: { rewrite !liftRes_bind, Hid, liftRes_bind, Ht, liftRes_bind, Hd. reflexivity. }
  destruct (generateArticleId_Ok_shape _ _ _ Hid).
  repeat split; simpl; try done;
    first [eapply cleanHtml_Ok_sanitized, Ht | eapply cleanHtml_Ok_sanitized, Hd].
Qed.

Lemma ingestItem_outcome env feed item w :
  (∃ e, ingestItem env feed item w = (Throw e, w))
  ∨ (∃ a, fromFeed feed a
          ∧ ingestItem env feed item w = upsertArticleM a (next_tick w)).
Proof.
  destruct (ingestItem_cases env feed item) as [[e H]|H]; [left|right]; eauto.
Qed.

(** Whether an item is rejected does not depend on the state. *)
Lemma ingestItem_Throw_any env feed item w e w' :
  fst (ingestItem env feed item w) = Throw e →
  ingestItem env feed item w' = (Throw e, w').
Proof.
  destruct (ingestItem_cases env feed item) as [[e' H]|H].
  - rewrite (H w). intros [= ->]. apply H.
  - destruct (H w) as (a & _ & ->). discriminate.
Qed.

Lemma ingestItem_Ok_any env feed item w (b : bool) w' :
  fst (ingestItem env feed item w) = Ok b →
  ∃ b', fst (ingestItem env feed item w') = Ok b'.
Proof.
  destruct (ingestItem_cases env feed item) as [[e' H]|H].
  - by rewrite (H w).
  - intros _. destruct (H w') as (a & _ & ->). by eexists.
Qed.

Lemma upsertArticleM_frame a w :
  let r := upsertArticleM a (next_tick w) in
  calls (snd r) = calls w ++ [CUpsertArticle a]
  ∧ feedCache (snd r) = feedCache w ∧ metricsLog (snd r) = metricsLog w
  ∧ isProcessing (snd r) = isProcessing w ∧ lingoDotDev (snd r) = lingoDotDev w
  ∧ tick (snd r) = S (tick w)
  ∧ ∃ b : bool, fst r = Ok b ∧ articles (snd r) = articles w ++ (if b then [(id a, a)] else []).
Proof.
  unfold upsertArticleM. cbn [fst snd].
  set (w0 := record_call (CUpsertArticle a) (next_tick w)).
  destruct (mapHas (id a) (articles w0)) eqn:E.
  - rewrite (upsertArticle_present _ _ E). cbn.
    repeat split; try done. exists false. by rewrite app_nil_r.
  - rewrite (upsertArticle_absent _ _ E). cbn.
    repeat split; try done. by exists true.
Qed.

Lemma afterUpserts_frame ups w :
  let w' := afterUpserts ups w in
  calls w' = calls w ++ (CUpsertArticle <$> ups)
  ∧ feedCache w' = feedCache w ∧ metricsLog w' = metricsLog w
  ∧ isProcessing w' = isProcessing w ∧ lingoDotDev w' = lingoDotDev w
  ∧ tick w' = (length ups + tick w)%nat
  ∧ ∃ news, articles w' = articles w ++ news
            ∧ Forall (fun e => snd e ∈ ups ∧ id (snd e) = fst e) news
            ∧ (length news ≤ length ups)%nat.
Proof.
  revert w. induction ups as [|a ups IH]; intros w.
  - cbn. rewrite app_nil_r. repeat split; try done.
    exists []. by rewrite app_nil_r.
  - change (afterUpserts (a :: ups) w)
      with (afterUpserts ups (snd (upsertArticleM a (next_tick w)))).
    destruct (upsertArticleM_frame a w) as (Hc1 & Hf1 & Hm1 & Hp1 & Hl1 & Ht1 & b & _ & Ha1).
    destruct (IH (snd (upsertArticleM a (next_tick w))))
      as (Hc & Hf & Hm & Hp & Hl & Ht & news & Ha & Hn & Hlen).
    cbn zeta. rewrite Hc, Hf, Hm, Hp, Hl, Ht, Ha, Hc1, Hf1, Hm1, Hp1, Hl1, Ht1, Ha1.
    rewrite fmap_cons, <- !app_assoc. cbn [app length].
    repeat split; try done; [lia|].
    exists ((if b then [(id a, a)] else []) ++ news). split; [done|]. split.
    + apply Forall_app. split.
      * destruct b; [|done]. apply Forall_singleton. split; [left|done].
      * eapply Forall_impl; [exact Hn|]. intros e [He ?]. split; [by right|done].
    + rewrite length_app. destruct b; simpl; lia.
Qed.

Lemma ingestItems_outcome env feed items added w :
  ∃ ups,
    snd (ingestItems env feed items added w) = afterUpserts ups w
    ∧ Forall (fromFeed feed) ups
    ∧ match fst (ingestItems env feed items added w) with
      | Ok n =>
        length ups = length items
        ∧ n = (added + (length (articles (afterUpserts ups w))
                        - length (articles w)))%nat
      | Throw _ => (length ups < length items)%nat
      end.
Proof.
  revert added w. induction items as [|item items IH]; intros added w.
  - exists []. cbn. split; [done|]. split; [done|]. split; [done|]. lia.
  - cbn [ingestItems].
    destruct (ingestItem_outcome env feed item w) as [[e He]|(a & Hfrom & Ha)].
    + exists []. unfold mbind, M_bind. rewrite He. cbn. repeat split; [done|lia].
    + destruct (upsertArticleM_frame a w) as (_ & _ & _ & _ & _ & _ & b & Hb & Harts).
      unfold mbind, M_bind. rewrite Ha.
      destruct (upsertArticleM a (next_tick w)) as [res w1] eqn:E.
      cbn [fst snd] in Hb, Harts. subst res.
      destruct (IH (if b then S added else added) w1) as (ups & Hw & Hall & Hres).
      exists (a :: ups).
      change (afterUpserts (a :: ups) w)
        with (afterUpserts ups (snd (upsertArticleM a (next_tick w)))).
      rewrite E. cbn [snd]. split; [done|]. split; [by constructor|].
      destruct (fst (ingestItems env feed items (if b then S added else added) w1));
        [|simpl; lia].
      destruct Hres as [Hlen Hn]. split; [simpl; lia|].
      destruct (afterUpserts_frame ups w1) as (_ & _ & _ & _ & _ & _ & news & Hnews & _).
      cbn zeta in Hnews. rewrite Hnews, Harts in *.
      rewrite !length_app in *. destruct b; simpl in *; lia.
Qed.

(** The paths through [fetchAndStoreFeed]. *)
Lemma fetchAndStoreFeed_paths env feed w :
  let url := feed_url feed in
  let hdrs := requestHeaders (getFeedCache url w) in
  let w1 := next_tick (record_call (CFetch url hdrs) (next_tick w)) in
  let finish wX added total skip err :=
    (Ok tt, loggedAt (metricOf env feed w wX added total skip err) wX) in
  fetchAndStoreFeed env feed w
  = match fetchResult env (S (tick w)) url hdrs with
    | Throw e => finish w1 0%nat 0%nat false (Some e)
    | Ok r =>
      if status r =? 304 then finish w1 0%nat 0%nat true None
      else if negb (responseOk r)
      then finish w1 0%nat 0%nat false (Some (httpError r))
      else
        let w2 := cachedAt url (validatorsOf r) w1 in
        match parsedBody r ≫= feedItems with
        | Throw e => finish w2 0%nat 0%nat false (Some e)
        | Ok items =>
          match ingestItems env feed items 0 w2 with
          | (Throw e, w3) => finish w3 0%nat 0%nat false (Some e)
          | (Ok added, w3) =>
            finish (triggeredAt (bool_decide (0 < added)%nat) w3)
                   added (length items) false None
          end
        end
    end.
Proof.
  intros url hdrs w1 finish.
  unfold fetchAndStoreFeed, tryCatch, awaitFetch, gets, dateNow.
  unfold mbind at 1 2 3. unfold M_bind at 1 2 3. cbn beta iota.
  change (getFeedCache (feed_url feed) (next_tick w)) with (getFeedCache url w).
  change (tick (next_tick w)) with (S (tick w)).
  fold url hdrs w1.
  destruct (fetchResult env (S (tick w)) url hdrs) as [r|e]; [|reflexivity].
  destruct (status r =? 304); [reflexivity|].
  destruct (negb (responseOk r)); [reflexivity|].
  unfold validatorsOf.
  unfold mbind at 1. unfold M_bind at 1.
  set (entry := {| etag := nonEmpty (header_etag r);
                   lastModified := nonEmpty (header_lastModified r) |}).
  set (cond := present (nonEmpty (header_etag r))
               || present (nonEmpty (header_lastModified r))).
  assert (Hc : (if cond then setFeedCacheM url entry else mret ()) w1
               = (Ok (), cachedAt url (if cond then Some entry else None) w1))
    by (by destruct cond).
  rewrite Hc. clear Hc.
  generalize (cachedAt url (if cond then Some entry else None) w1). intros w2.
  rewrite liftRes_bind.
  destruct (parsedBody r) as [result|e]; [|reflexivity].
  rewrite liftRes_bind.
  change (Ok result ≫= feedItems) with (feedItems result).
  destruct (feedItems result) as [items|e]; [|reflexivity].
  unfold mbind at 1. unfold M_bind at 1.
  destruct (ingestItems env feed items 0 w2) as [[added|e] w3]; [|reflexivity].
  unfold triggeredAt. by case_bool_decide.
Qed.

(** What a poll leaves of the state it started in. *)
Lemma poll_frame url hdrs cached ups trig m w :
  let w1 := next_tick (record_call (CFetch url hdrs) (next_tick w)) in
  let wX := triggeredAt trig (afterUpserts ups (cachedAt url cached w1)) in
  let w' := loggedAt m wX in
  calls w' = calls w ++ CFetch url hdrs
               :: (CSetFeedCache url <$> option_list cached)
               ++ (CUpsertArticle <$> ups)
               ++ (if trig then [CTriggerQueueProcessing] else [])
               ++ [CLogFetchMetric m]
  ∧ metricsLog w' = metricsLog (logFetchMetric m w)
  ∧ feedCache w' = match cached with
                   | Some e => <[url := e]> (feedCache w)
                   | None => feedCache w
                   end
  ∧ isProcessing w' = isProcessing w ∧ lingoDotDev w' = lingoDotDev w
  ∧ tick wX = (2 + length ups + tick w)%nat
  ∧ tick w' = (4 + length ups + tick w)%nat
  ∧ articles w' = articles wX
  ∧ ∃ news, articles w' = articles w ++ news
            ∧ Forall (fun e => snd e ∈ ups ∧ id (snd e) = fst e) news
            ∧ (length news ≤ length ups)%nat.
Proof.
  intros w1 wX w'.
  set (w2 := cachedAt url cached w1).
  destruct (afterUpserts_frame ups w2)
    as (Hc & Hf & Hm & Hp & Hl & Ht & news & Ha & Hn & Hlen).
  cbn zeta in *.
  assert (H2 : calls w2 = calls w ++ CFetch url hdrs :: (CSetFeedCache url <$> option_list cached)
               ∧ feedCache w2 = match cached with
                                | Some e => <[url := e]> (feedCache w)
                                | None => feedCache w
                                end
               ∧ metricsLog w2 = metricsLog w ∧ isProcessing w2 = isProcessing w
               ∧ lingoDotDev w2 = lingoDotDev w ∧ tick w2 = S (S (tick w))
               ∧ articles w2 = articles w).
  { unfold w2, w1. destruct cached; cbn; repeat split; by rewrite <- ?app_assoc. }
  destruct H2 as (Hc2 & Hf2 & Hm2 & Hp2 & Hl2 & Ht2 & Ha2).
  assert (HX : calls wX = calls (afterUpserts ups w2)
                          ++ (if trig then [CTriggerQueueProcessing] else [])
               ∧ feedCache wX = feedCache (afterUpserts ups w2)
               ∧ metricsLog wX = metricsLog (afterUpserts ups w2)
               ∧ isProcessing wX = isProcessing (afterUpserts ups w2)
               ∧ lingoDotDev wX = lingoDotDev (afterUpserts ups w2)
               ∧ tick wX = tick (afterUpserts ups w2)
               ∧ articles wX = articles (afterUpserts ups w2)).
  { unfold wX. fold w2. destruct trig; cbn; repeat split; by rewrite ?app_nil_r. }
  destruct HX as (HcX & HfX & HmX & HpX & HlX & HtX & HaX).
  unfold w', loggedAt.
  repeat split.
  - cbn. rewrite HcX, Hc, Hc2. rewrite <- !app_assoc. reflexivity.
  - rewrite !logFetchMetric_log. cbn. by rewrite HmX, Hm, Hm2.
  - cbn. by rewrite HfX, Hf, Hf2.
  - cbn. by rewrite HpX, Hp, Hp2.
  - cbn. by rewrite HlX, Hl, Hl2.
  - rewrite HtX, Ht, Ht2. lia.
  - cbn. rewrite HtX, Ht, Ht2. lia.
  - exists news. cbn. rewrite HaX, Ha, Ha2. done.
Qed.

Lemma fetchAndStoreFeed_outcome env feed w :
  let url := feed_url feed in
  let hdrs := requestHeaders (getFeedCache url w) in
  let w1 := next_tick (record_call (CFetch url hdrs) (next_tick w)) in
  ∃ cached ups trig added total skip err,
    let wX := triggeredAt trig (afterUpserts ups (cachedAt url cached w1)) in
    fetchAndStoreFeed env feed w
    = (Ok tt, loggedAt (metricOf env feed w wX added total skip err) wX)
    ∧ Forall (fromFeed feed) ups
    ∧ match fetchResult env (S (tick w)) url hdrs with
      | Throw e =>
        cached = None ∧ ups = [] ∧ trig = false ∧ added = 0%nat ∧ total = 0%nat
        ∧ skip = false ∧ err = Some e
      | Ok r =>
        if status r =? 304 then
          cached = None ∧ ups = [] ∧ trig = false ∧ added = 0%nat ∧ total = 0%nat
          ∧ skip = true ∧ err = None
        else if negb (responseOk r) then
          cached = None ∧ ups = [] ∧ trig = false ∧ added = 0%nat ∧ total = 0%nat
          ∧ skip = false ∧ err = Some (httpError r)
        else
          cached = validatorsOf r ∧ skip = false
          ∧ match err with
            | Some e => trig = false ∧ added = 0%nat ∧ total = 0%nat
            | None =>
              ∃ items, parsedBody r ≫= feedItems = Ok items
                       ∧ total = length items ∧ length ups = length items
                       ∧ trig = bool_decide (0 < added)%nat
                       ∧ added = (length (articles wX) - length (articles w))%nat
            end
      end.
Proof.
  intros url hdrs w1. rewrite fetchAndStoreFeed_paths. fold url hdrs w1.
  destruct (fetchResult env (S (tick w)) url hdrs) as [r|e].
  2: { exists None, [], false, 0%nat, 0%nat, false, (Some e). by repeat split. }
  destruct (status r =? 304).
  { exists None, [], false, 0%nat, 0%nat, true, None. by repeat split. }
  destruct (negb (responseOk r)).
  { exists None, [], false, 0%nat, 0%nat, false, (Some (httpError r)). by repeat split. }
  cbn zeta.
  destruct (parsedBody r ≫= feedItems) as [items|e].
  2: { exists (validatorsOf r), [], false, 0%nat, 0%nat, false, (Some e). by repeat split. }
  set (w2 := cachedAt url (validatorsOf r) w1).
  destruct (ingestItems_outcome env feed items 0 w2) as (ups & Hw & Hall & Hres).
  destruct (ingestItems env feed items 0 w2) as [[added|e] w3]; cbn [fst snd] in *.
  - exists (validatorsOf r), ups, (bool_decide (0 < added)%nat), added, (length items),
           false, None.
    fold w2. rewrite <- Hw. split; [done|]. split; [done|]. split; [done|].
    split; [done|]. exists items. destruct Hres as [Hlen Hn].
    repeat split; try done.
    rewrite Hn. rewrite <- Hw.
    assert (articles w2 = articles w) as -> by (unfold w2; by destruct (validatorsOf r)).
    by destruct (bool_decide _).
  - exists (validatorsOf r), ups, false, 0%nat, 0%nat, false, (Some e).
    fold w2. rewrite <- Hw. by repeat split.
Qed.

Lemma last_logFetchMetric m w : last (metricsLog (logFetchMetric m w)) = Some m.
Proof.
  rewrite logFetchMetric_log, length_app. cbn [length].
  unfold MAX_METRICS_HISTORY.
  destruct (decide (length (metricsLog w) + 1 ≤ 500)%nat) as [H|H].
  - replace (length (metricsLog w) + 1 - 500)%nat with 0%nat by lia.
    rewrite drop_0. apply last_snoc.
  - rewrite drop_app_le by lia.
    apply last_snoc.
Qed.

Lemma assocGet_app_Some {V : Type} (m m' : list (jsstring * V)) k v :
  assocGet k m = Some v → assocGet k (m ++ m') = Some v.
Proof.
  induction m as [|[k' v'] m IH]; [done|]. simpl.
  destruct (decide (k' = k)); auto.
Qed.

(** X6. [fetchAndStoreFeed] never throws.  It makes one fetch, with the
    headers built from the cache entry of the feed, then at most one
    [setFeedCache], then [upsertArticle] calls, then at most one
    [triggerQueueProcessing], and last one [logFetchMetric] whose metric
    names the feed; it leaves the flags of the translation queue alone. *)
Theorem fetchAndStoreFeed_call_sequence (env : Env) (feed : FeedConfig) (w : World) :
  let url := feed_url feed in
  let r := fetchAndStoreFeed env feed w in
  fst r = Ok tt
  ∧ ∃ m cached ups trig,
      calls (snd r)
      = calls w ++ CFetch url (requestHeaders (getFeedCache url w))
          :: (CSetFeedCache url <$> option_list cached)
          ++ (CUpsertArticle <$> ups)
          ++ (if trig : bool then [CTriggerQueueProcessing] else [])
          ++ [CLogFetchMetric m]
      ∧ metricsLog (snd r) = metricsLog (logFetchMetric m w)
      ∧ feedUrl m = url ∧ m_source m = feed_source feed
      ∧ isProcessing (snd r) = isProcessing w
      ∧ lingoDotDev (snd r) = lingoDotDev w.
Proof.
  intros url r.
  destruct (fetchAndStoreFeed_outcome env feed w)
    as (cached & ups & trig & added & total & skip & err & Heq & _).
  cbn zeta in Heq. unfold r. rewrite Heq. cbn [fst snd]. split; [done|].
  match goal with |- context [loggedAt ?m _] => set (m0 := m) end.
  destruct (poll_frame url (requestHeaders (getFeedCache url w)) cached ups trig m0 w)
    as (Hc & Hm & _ & Hp & Hl & _).
  exists m0, cached, ups, trig. by repeat split.
Qed.

(** X7. The metric of a poll against the article count: the number of
    articles it reports as added never exceeds the growth of the count
    nor the number of items it reports, and equals the growth when the
    metric carries no error; a metric with an error or the not-modified
    flag reports no article and no item; the queue is triggered exactly
    when the reported number is positive. *)
Theorem fetchAndStoreFeed_accounting (env : Env) (feed : FeedConfig) (w : World) :
  let w' := snd (fetchAndStoreFeed env feed w) in
  ∃ m, last (metricsLog w') = Some m
       ∧ (getArticleCount w ≤ getArticleCount w')%nat
       ∧ (articlesAdded m ≤ getArticleCount w' - getArticleCount w)%nat
       ∧ (articlesAdded m ≤ totalArticlesInFeed m)%nat
       ∧ (error m = None →
            articlesAdded m = (getArticleCount w' - getArticleCount w)%nat)
       ∧ (skipped304 m = true ∨ is_Some (error m) →
            articlesAdded m = 0%nat ∧ totalArticlesInFeed m = 0%nat)
       ∧ (CTriggerQueueProcessing ∈ newCalls w w' ↔ (0 < articlesAdded m)%nat).
Proof.
  intros w'.
  destruct (fetchAndStoreFeed_outcome env feed w)
    as (cached & ups & trig & added & total & skip & err & Heq & _ & Hcls).
  cbn zeta in Heq, Hcls. unfold w'. rewrite Heq. cbn [snd]. clear w' Heq.
  set (url := feed_url feed) in *.
  set (hdrs := requestHeaders (getFeedCache url w)) in *.
  match goal with |- context [loggedAt ?m _] => set (m0 := m) end.
  destruct (poll_frame url hdrs cached ups trig m0 w)
    as (Hc & Hm & _ & _ & _ & _ & _ & HaX & news & Ha & _ & Hlen).
  cbn zeta in *.
  exists m0. unfold getArticleCount. rewrite Hm, Ha, length_app.
  split; [apply last_logFetchMetric|]. split; [lia|].
  assert (Htrig : CTriggerQueueProcessing ∈ newCalls w
                    (loggedAt m0 (triggeredAt trig (afterUpserts ups
                       (cachedAt url cached
                          (next_tick (record_call (CFetch url hdrs) (next_tick w)))))))
                  ↔ trig = true).
  { unfold newCalls. rewrite Hc, drop_app_length.
    rewrite elem_of_cons, !elem_of_app, !list_elem_of_fmap, list_elem_of_singleton.
    split.
    - intros [H|[(e & H & _)|[(a & H & _)|[H|H]]]]; try discriminate.
      by destruct trig; [|apply elem_of_nil in H].
    - intros ->. right. right. right. left. by left. }
  rewrite Htrig. clear Htrig.
  assert (Hgrow : added = 0%nat ∧ trig = false
                  ∧ (skip = true ∨ is_Some err → total = 0%nat)
                  ∧ (err = None → length news = 0%nat)
                  ∨ err = None ∧ skip = false ∧ added = length news
                    ∧ (added ≤ total)%nat ∧ trig = bool_decide (0 < added)%nat).
  { destruct (fetchResult env (S (tick w)) url hdrs) as [r|e].
    2: { left. destruct Hcls as (_ & _ & -> & -> & -> & _ & ->).
         repeat split; try done. }
    destruct (status r =? 304).
    { left. destruct Hcls as (_ & -> & -> & -> & -> & _).
      repeat split; try done. intros _. simpl in Hlen. lia. }
    destruct (negb (responseOk r)).
    { left. destruct Hcls as (_ & _ & -> & -> & -> & _ & ->).
      repeat split; try done. }
    destruct Hcls as (_ & -> & Herr). destruct err as [e|].
    - left. destruct Herr as (-> & -> & ->). repeat split; try done.
    - right. destruct Herr as (items & _ & -> & Hups & Htr & Hadd).
      rewrite <- HaX, Ha, length_app in Hadd.
      repeat split; try done; lia. }
  clear Hcls Hc Hm HaX Ha. subst m0. unfold metricOf. cbn [articlesAdded totalArticlesInFeed error skipped304].
  destruct Hgrow as [(-> & -> & Htot & Hnone)|(-> & -> & Hadd & Htot & ->)].
  - split; [lia|]. split; [lia|]. split; [intros H; specialize (Hnone H); lia|].
    split; [intros H; split; [done|by apply Htot]|].
    split; [discriminate|lia].
  - split; [lia|]. split; [lia|]. split; [intros _; lia|].
    split; [intros [H|[? H]]; discriminate|].
    rewrite bool_decide_eq_true. done.
Qed.

(** X8. A poll only appends to the article map: the entries stored
    before keep their place and their article, translations included,
    and each new entry holds, under its id, an article with the fields of
    the feed, no translation, an id that is not empty and not padded,
    and sanitized title and description. *)
Theorem fetchAndStoreFeed_appends (env : Env) (feed : FeedConfig) (w : World) :
  let w' := snd (fetchAndStoreFeed env feed w) in
  ∃ news, articles w' = articles w ++ news
          ∧ Forall (fun e => fromFeed feed (snd e) ∧ id (snd e) = fst e) news
          ∧ ∀ k a, getArticle k w = Some a → getArticle k w' = Some a.
Proof.
  intros w'.
  destruct (fetchAndStoreFeed_outcome env feed w)
    as (cached & ups & trig & added & total & skip & err & Heq & Hall & _).
  cbn zeta in Heq. unfold w'. rewrite Heq. cbn [snd]. clear w' Heq.
  match goal with |- context [loggedAt ?m _] => set (m0 := m) end.
  destruct (poll_frame (feed_url feed)
              (requestHeaders (getFeedCache (feed_url feed) w)) cached ups trig m0 w)
    as (_ & _ & _ & _ & _ & _ & _ & _ & news & Ha & Hnews & _).
  cbn zeta in Ha. exists news. split; [done|]. split.
  - eapply Forall_impl; [exact Hnews|]. intros e [Hin Hid]. split; [|done].
    rewrite Forall_forall in Hall. by apply Hall.
  - intros k a Hget. unfold getArticle in *. rewrite Ha.
    by apply assocGet_app_Some.
Qed.

Lemma responseOk_not_304 r : responseOk r = true → (status r =? 304) = false.
Proof.
  unfold responseOk. intros [_ H%N.leb_le]%andb_true_iff.
  apply N.eqb_neq. lia.
Qed.

(** X9. A response with a status from 200 to 299 that carries a
    non-empty [etag] or [last-modified] header replaces the cache entry
    of the feed, whether or not its body then parses and its items are
    stored, and the next request for the feed carries the validators;
    the entries of the other feeds stay. *)
Theorem fetchAndStoreFeed_caches_validators (env : Env) (feed : FeedConfig)
    (w : World) (r : Response) :
  fetchResult env (S (tick w)) (feed_url feed)
    (requestHeaders (getFeedCache (feed_url feed) w)) = Ok r →
  responseOk r = true →
  let url := feed_url feed in
  let w' := snd (fetchAndStoreFeed env feed w) in
  let e := nonEmpty (header_etag r) in
  let l := nonEmpty (header_lastModified r) in
  getFeedCache url w'
  = (if present e || present l then Some {| etag := e; lastModified := l |}
     else getFeedCache url w)
  ∧ (∀ other, other ≠ url → getFeedCache other w' = getFeedCache other w)
  ∧ (∀ v, e = Some v →
       (str "If-None-Match", v) ∈ requestHeaders (getFeedCache url w'))
  ∧ (∀ v, l = Some v →
       (str "If-Modified-Since", v) ∈ requestHeaders (getFeedCache url w')).
Proof.
  intros Hfetch Hok url w' e l.
  destruct (fetchAndStoreFeed_outcome env feed w)
    as (cached & ups & trig & added & total & skip & err & Heq & _ & Hcls).
  cbn zeta in Heq, Hcls. rewrite Hfetch, (responseOk_not_304 r Hok), Hok in Hcls.
  cbn [negb] in Hcls. destruct Hcls as (-> & _).
  match type of Heq with context [loggedAt ?m _] => set (m0 := m) in * end.
  destruct (poll_frame url (requestHeaders (getFeedCache url w)) (validatorsOf r)
              ups trig m0 w) as (_ & _ & Hf & _).
  cbn zeta in Hf.
  assert (Hcache : feedCache w' = match validatorsOf r with
                                  | Some e => <[url := e]> (feedCache w)
                                  | None => feedCache w
                                  end).
  { unfold w'. rewrite Heq. exact Hf. }
  clear Heq Hf. unfold getFeedCache. rewrite Hcache. unfold validatorsOf.
  fold e l.
  assert (H1 : (if present e || present l
                then <[url := {| etag := e; lastModified := l |}]> (feedCache w)
                else feedCache w) !! url
               = if present e || present l
                 then Some {| etag := e; lastModified := l |}
                 else feedCache w !! url).
  { destruct (present e || present l); [apply lookup_insert_eq | done]. }
  assert (He : ∀ v, e = Some v → nonEmpty e = Some v).
  { intros v Hv. unfold e in *. destruct (header_etag r) as [[|c t]|]; done. }
  assert (Hl : ∀ v, l = Some v → nonEmpty l = Some v).
  { intros v Hv. unfold l in *. destruct (header_lastModified r) as [[|c t]|]; done. }
  split.
  { destruct (present e || present l); [exact H1 | done]. }
  split.
  { intros other Hne. destruct (present e || present l); [|done].
    by apply lookup_insert_ne. }
  split.
  - intros v Hv.
    assert (Hp : present e || present l = true) by (by rewrite Hv).
    rewrite Hp in *. unfold requestHeaders. rewrite lookup_insert_eq.
    cbn [mbind option_bind etag lastModified]. rewrite (He v Hv).
    apply elem_of_app. right. apply elem_of_app. left. by left.
  - intros v Hv.
    assert (Hp : present e || present l = true) by (rewrite Hv; apply orb_true_r).
    rewrite Hp in *. unfold requestHeaders. rewrite lookup_insert_eq.
    cbn [mbind option_bind etag lastModified]. rewrite (Hl v Hv).
    apply elem_of_app. right. apply elem_of_app. right. by left.
Qed.

Lemma fetchAndStoreFeed_caches_validators_witness :
  let env := constEnv (Ok (sampleResponse 200 "OK" (Throw (str "Unexpected close tag"))))
                      (Throw []) in
  let w' := snd (fetchAndStoreFeed env sampleFeed initialWorld) in
  getFeedCache (feed_url sampleFeed) w'
  = Some {| etag := Some (str "W/'abc'"); lastModified := None |}
  ∧ (str "If-None-Match", str "W/'abc'")
      ∈ requestHeaders (getFeedCache (feed_url sampleFeed) w').
Proof.
  intros env w'.
  destruct (fetchAndStoreFeed_caches_validators env sampleFeed initialWorld
              (sampleResponse 200 "OK" (Throw (str "Unexpected close tag")))
              eq_refl eq_refl) as (H1 & _ & H2 & _).
  split; [exact H1 | apply H2; reflexivity].
Defined.

(** X10. When the fetch throws, or is answered with a status that is
    neither 304 nor from 200 to 299, the poll makes two calls, the fetch
    and one [logFetchMetric], and leaves the article map and the feed
    cache as they were; the metric carries the message of the error, for
    a status the text [HTTP <status>: <statusText>], and reports no
    article. *)
Theorem fetchAndStoreFeed_unreachable (env : Env) (feed : FeedConfig) (w : World)
    (msg : jsstring) :
  let url := feed_url feed in
  let hdrs := requestHeaders (getFeedCache url w) in
  (fetchResult env (S (tick w)) url hdrs = Throw msg
   ∨ ∃ r, fetchResult env (S (tick w)) url hdrs = Ok r
          ∧ status r ≠ 304 ∧ responseOk r = false
          ∧ msg = str "HTTP " ++ numberToString (status r) ++ str ": "
                  ++ statusText r) →
  let w' := snd (fetchAndStoreFeed env feed w) in
  articles w' = articles w ∧ feedCache w' = feedCache w
  ∧ ∃ m, newCalls w w' = [CFetch url hdrs; CLogFetchMetric m]
         ∧ metricsLog w' = metricsLog (logFetchMetric m w)
         ∧ error m = Some msg ∧ skipped304 m = false
         ∧ articlesAdded m = 0%nat ∧ totalArticlesInFeed m = 0%nat.
Proof.
  intros url hdrs Hfail w'.
  destruct (fetchAndStoreFeed_outcome env feed w)
    as (cached & ups & trig & added & total & skip & err & Heq & _ & Hcls).
  cbn zeta in Heq, Hcls. fold url hdrs in Heq, Hcls.
  assert (H : cached = None ∧ ups = [] ∧ trig = false ∧ added = 0%nat
              ∧ total = 0%nat ∧ skip = false ∧ err = Some msg).
  { destruct Hfail as [Hf|(r & Hf & H304 & Hok & ->)]; rewrite Hf in Hcls; [done|].
    apply N.eqb_neq in H304. rewrite H304, Hok in Hcls. exact Hcls. }
  destruct H as (-> & -> & -> & -> & -> & -> & ->). clear Hcls.
  match type of Heq with context [loggedAt ?m _] => set (m0 := m) in * end.
  destruct (poll_frame url hdrs None [] false m0 w)
    as (Hc & Hm & Hf & _ & _ & _ & _ & Ha & _).
  cbn zeta in *. unfold w'. rewrite Heq. cbn [snd].
  split; [by rewrite Ha|]. split; [done|].
  exists m0. split; [|by repeat split].
  unfold newCalls. rewrite Hc, drop_app_length. reflexivity.
Qed.

Lemma fetchAndStoreFeed_unreachable_witness :
  let env := constEnv (Ok (sampleResponse 503 "Service Unavailable" (Throw []))) (Throw []) in
  let w := snd (upsertArticle articleOne initialWorld) in
  let w' := snd (fetchAndStoreFeed env sampleFeed w) in
  articles w' = articles w ∧ feedCache w' = feedCache w
  ∧ ∃ m, last (newCalls w w') = Some (CLogFetchMetric m)
         ∧ error m = Some (str "HTTP 503: Service Unavailable").
Proof.
  intros env w w'.
  destruct (fetchAndStoreFeed_unreachable env sampleFeed w
              (str "HTTP 503: Service Unavailable")) as (Ha & Hf & m & Hc & _ & He & _).
  { right. exists (sampleResponse 503 "Service Unavailable" (Throw [])).
    split; [reflexivity|]. split; [discriminate|]. split; [reflexivity|].
    vm_compute. reflexivity. }
  split; [exact Ha|]. split; [exact Hf|].
  exists m. fold w' in Hc. rewrite Hc. split; [reflexivity | exact He].
Defined.

Lemma cleanHtml_nonstring v :
  truthy v = true → typeofString v = false →
  cleanHtml v = Throw (str "str.replace is not a function").
Proof. unfold cleanHtml. intros -> H. by destruct v. Qed.

Lemma descriptionOf_truthy item d :
  getProp item (str "description") = Ok d → truthy d = true →
  descriptionOf item = Ok d.
Proof.
  unfold descriptionOf, getProp. destruct (isNullish item); [done|].
  intros [= ->] Hd. cbn. unfold jsOr. by rewrite !Hd.
Qed.

(** X11. An item whose [description] comes out of the parser as
    something else than a string, an object or an array (an element with
    attributes, for one), is rejected: [ingestItem] throws and leaves the
    state as it was. *)
Theorem ingestItem_rejects_structured_description (env : Env) (feed : FeedConfig)
    (item d : jsval) (w : World) :
  getProp item (str "description") = Ok d →
  truthy d = true → typeofString d = false →
  ∃ e, ingestItem env feed item w = (Throw e, w).
Proof.
  intros Hprop Htruthy Hstr.
  pose proof (cleanHtml_nonstring d Htruthy Hstr) as Hclean.
  pose proof (descriptionOf_truthy item d Hprop Htruthy) as Hdesc.
  destruct (ingestItem_cases env feed item) as [[e H]|H]; [by exists e|].
  exfalso. destruct (H w) as (a & _ & Heq). revert Heq. unfold ingestItem.
  rewrite liftRes_bind. destruct (rawGuidOf item) as [g|e]; [|done].
  rewrite liftRes_bind. destruct (linkOf item) as [lk|e]; [|done].
  rewrite liftRes_bind. destruct (titleOf item) as [t|e]; [|done].
  rewrite liftRes_bind, Hdesc.
  rewrite liftRes_bind. destruct (pubDateOf item) as [p|e]; [|done].
  rewrite liftRes_bind. destruct (generateArticleId g lk) as [i|e]; [|done].
  rewrite liftRes_bind. destruct (cleanHtml t); [|done].
  rewrite liftRes_bind, Hclean. done.
Qed.

Lemma ingestItem_rejects_structured_description_witness :
  ∃ e, ingestItem sampleEnv sampleFeed (structuredItem "g-9") initialWorld
       = (Throw e, initialWorld).
Proof.
  apply (ingestItem_rejects_structured_description sampleEnv sampleFeed
           (structuredItem "g-9")
           (VObj [(str "_", VStr (str "Some text"));
                  (str "$", VObj [(str "type", VStr (str "html"))])])).
  - vm_compute. reflexivity.
  - reflexivity.
  - reflexivity.
Defined.

(** X12. An item that is rejected aborts the loop over the items with
    its error: what the items before it stored stays stored, and the
    items after it are never looked at. *)
Theorem ingestItems_stops_at_rejected_item (env : Env) (feed : FeedConfig)
    (good : list jsval) (bad : jsval) (rest : list jsval) (added : nat)
    (w : World) (e : jsstring) :
  Forall (fun item => ∃ b, fst (ingestItem env feed item w) = Ok b) good →
  fst (ingestItem env feed bad w) = Throw e →
  (∃ n, fst (ingestItems env feed good added w) = Ok n)
  ∧ ingestItems env feed (good ++ bad :: rest) added w
    = (Throw e, snd (ingestItems env feed good added w)).
Proof.
  intros Hgood Hbad. revert added w Hgood Hbad.
  induction good as [|item good IH]; intros added w Hgood Hbad.
  - split; [by eexists|]. cbn [app ingestItems]. unfold mbind, M_bind.
    by rewrite (ingestItem_Throw_any _ _ _ _ _ w Hbad).
  - apply Forall_cons in Hgood as [[b Hb] Hgood].
    cbn [app ingestItems]. unfold mbind, M_bind.
    destruct (ingestItem env feed item w) as [res w1] eqn:E.
    cbn [fst] in Hb. subst res.
    apply IH.
    + eapply Forall_impl; [exact Hgood|]. intros i [b' Hb'].
      by eapply ingestItem_Ok_any.
    + rewrite (ingestItem_Throw_any _ _ _ _ _ w1 Hbad). done.
Qed.

Lemma ingestItems_stops_at_rejected_item_witness :
  let r := ingestItems sampleEnv sampleFeed
             [rssItem "g-1" "One" "https://dohanews.co/1"; structuredItem "g-2";
              rssItem "g-3" "Three" "https://dohanews.co/3"] 0 initialWorld in
  fst r = Throw (str "str.replace is not a function")
  ∧ (articles (snd r)).*1 = [str "g-1"].
Proof.
  intros r.
  destruct (ingestItems_stops_at_rejected_item sampleEnv sampleFeed
              [rssItem "g-1" "One" "https://dohanews.co/1"] (structuredItem "g-2")
              [rssItem "g-3" "Three" "https://dohanews.co/3"] 0 initialWorld
              (str "str.replace is not a function")) as [_ H].
  - repeat constructor. exists true. vm_compute. reflexivity.
  - vm_compute. reflexivity.
  - unfold r. change ([rssItem "g-1" "One" "https://dohanews.co/1"; structuredItem "g-2";
                       rssItem "g-3" "Three" "https://dohanews.co/3"])
      with ([rssItem "g-1" "One" "https://dohanews.co/1"]
            ++ structuredItem "g-2" :: [rssItem "g-3" "Three" "https://dohanews.co/3"]).
    rewrite H. split; [reflexivity|]. vm_compute. reflexivity.
Defined.

(** ** Relations that every step of a task keeps *)

Section Preservation.
Context (R : World → World → Prop).
Hypothesis R_refl : ∀ w, R w w.
Hypothesis R_trans : ∀ w1 w2 w3, R w1 w2 → R w2 w3 → R w1 w3.

Lemma preserves_mret {A : Type} (a : A) : preserves R (mret a).
Proof. intros w. apply R_refl. Qed.

Lemma preserves_gets {A : Type} (f : World → A) : preserves R (gets f).
Proof. intros w. apply R_refl. Qed.

Lemma preserves_liftRes {A : Type} (r : Res A) : preserves R (liftRes r).
Proof. intros w. apply R_refl. Qed.

Lemma preserves_throw {A : Type} (e : jsstring) : preserves R (@throw A e).
Proof. intros w. apply R_refl. Qed.

Lemma preserves_modify (f : World → World) :
  (∀ w, R w (f w)) → preserves R (modify f).
Proof. intros H w. apply H. Qed.

Lemma preserves_bind {A B : Type} (c : M A) (f : A → M B) :
  preserves R c → (∀ a, preserves R (f a)) → preserves R (c ≫= f).
Proof.
  intros Hc Hf w. unfold mbind, M_bind. specialize (Hc w).
  destruct (c w) as [[a|e] w1]; [|exact Hc].
  eapply R_trans; [exact Hc | apply Hf].
Qed.

Lemma preserves_tryCatch {A : Type} (c : M A) (h : jsstring → M A) :
  preserves R c → (∀ e, preserves R (h e)) → preserves R (tryCatch c h).
Proof.
  intros Hc Hh w. unfold tryCatch. specialize (Hc w).
  destruct (c w) as [[a|e] w1]; [exact Hc|].
  eapply R_trans; [exact Hc | apply Hh].
Qed.

Lemma preserves_finally {A : Type} (c : M A) (fin : World → World) :
  preserves R c → (∀ w, R w (fin w)) → preserves R (finally c fin).
Proof.
  intros Hc Hfin w. unfold finally. cbn [snd].
  eapply R_trans; [apply Hc | apply Hfin].
Qed.

Lemma preserves_forEach {X : Type} (xs : list X) (body : X → M unit) :
  (∀ x, preserves R (body x)) → preserves R (forEach xs body).
Proof.
  intros Hb. induction xs as [|x xs IH]; [apply preserves_mret|].
  cbn [forEach]. apply preserves_bind; [apply Hb | intros _; exact IH].
Qed.

(** *** The translation queue *)

Hypothesis R_flag : ∀ b w, R w (set_isProcessing b w).
Hypothesis R_call : ∀ c w, isQueueCall c = true → R w (record_call c w).
Hypothesis R_tick : ∀ w, R w (next_tick w).
Hypothesis R_upsert : ∀ a w, R w (snd (upsertArticle a w)).
Hypothesis R_store : ∀ env i l t d w, R w (storeTranslation env i l t d w).

Lemma preserves_background env : preserves R (background env).
Proof.
  intros w. unfold background. cbn [snd].
  eapply R_trans; [apply R_tick|].
  generalize (ingested env (tick w)) (next_tick w). clear w.
  intros l. induction l as [|a l IH]; intros w; [apply R_refl|].
  cbn [fold_left]. eapply R_trans; [apply R_upsert | apply IH].
Qed.

Lemma preserves_awaitLocalizeObject env textObj src tgt :
  preserves R (awaitLocalizeObject env textObj src tgt).
Proof.
  intros w. unfold awaitLocalizeObject. cbn [snd].
  apply (R_trans _ (record_call (CLocalizeObject textObj src tgt) w));
    [by apply R_call | apply preserves_background].
Qed.

Lemma preserves_sleep env ms : preserves R (sleep env ms).
Proof.
  unfold sleep. apply preserves_bind; [|intros _; apply preserves_background].
  apply preserves_modify. intros w. by apply R_call.
Qed.

Lemma preserves_storeTranslationM env i l t d :
  preserves R (storeTranslationM env i l t d).
Proof.
  apply preserves_modify. intros w.
  apply (R_trans _ (record_call (CStoreTranslation i l t d) w));
    [by apply R_call | apply R_store].
Qed.

Lemma preserves_translateBatch env batch locale :
  preserves R (translateBatch env batch locale).
Proof.
  unfold translateBatch. apply preserves_bind; [apply preserves_gets|].
  intros engine. destruct (negb engine); [apply preserves_mret|].
  apply preserves_tryCatch; [|intros _; apply preserves_mret].
  apply preserves_bind; [apply preserves_awaitLocalizeObject|].
  intros translated. apply preserves_forEach. intros a.
  apply preserves_storeTranslationM.
Qed.

Lemma preserves_batchLoop env fuel i needs locale :
  preserves R (batchLoop env fuel i needs locale).
Proof.
  revert i. induction fuel as [|fuel IH]; intros i; [apply preserves_mret|].
  cbn [batchLoop]. case_bool_decide; [|apply preserves_mret].
  apply preserves_bind; [apply preserves_translateBatch|]. intros _.
  apply preserves_bind; [|intros _; apply IH].
  case_bool_decide; [apply preserves_sleep | apply preserves_mret].
Qed.

Lemma preserves_processLocale env locale : preserves R (processLocale env locale).
Proof.
  unfold processLocale. apply preserves_bind; [apply preserves_gets|].
  intros untranslated. case_bool_decide; [apply preserves_mret|].
  cbn zeta. case_bool_decide; [apply preserves_mret|].
  apply preserves_batchLoop.
Qed.

Lemma preserves_processQueue env : preserves R (processQueue env).
Proof.
  unfold processQueue. apply preserves_bind; [apply preserves_gets|].
  intros busy. apply preserves_bind; [apply preserves_gets|].
  intros engine. destruct (busy || negb engine); [apply preserves_mret|].
  apply preserves_bind; [apply preserves_modify, R_flag|]. intros _.
  apply preserves_finally; [|apply R_flag].
  apply preserves_tryCatch; [|intros _; apply preserves_mret].
  apply preserves_forEach. intros locale. apply preserves_processLocale.
Qed.

End Preservation.

(** ** Runs of the process *)

Lemma articleGrows_refl a : articleGrows a a.
Proof. split; [apply sameCoreFields_refl | done]. Qed.

Lemma articleGrows_trans a b c : articleGrows a b → articleGrows b c → articleGrows a c.
Proof.
  intros [H1 H2] [H3 H4]. split; [by eapply sameCoreFields_trans | auto].
Qed.

Lemma entriesGrow_refl (m : list (jsstring * StoredArticle)) :
  Forall2 (fun e e' => fst e = fst e' ∧ articleGrows (snd e) (snd e')) m m.
Proof.
  induction m as [|e m IH]; constructor; [|done].
  split; [done | apply articleGrows_refl].
Qed.

Lemma storeGrows_refl w : storeGrows w w.
Proof.
  exists (articles w), []. split; [by rewrite app_nil_r | apply entriesGrow_refl].
Qed.

Lemma storeGrows_trans w1 w2 w3 :
  storeGrows w1 w2 → storeGrows w2 w3 → storeGrows w1 w3.
Proof.
  intros (olds1 & news1 & Ha1 & H1) (olds2 & news2 & Ha2 & H2).
  rewrite Ha1 in H2. apply Forall2_app_inv_l in H2 as (o1 & o2 & Ho1 & Ho2 & ->).
  exists o1, (o2 ++ news2). split; [by rewrite Ha2, app_assoc|].
  eapply Forall2_trans; [|exact H1|exact Ho1].
  intros e1 e2 e3 [Hk1 Hg1] [Hk2 Hg2].
  split; [congruence | by eapply articleGrows_trans].
Qed.

Lemma storeGrows_append w w' news :
  articles w' = articles w ++ news → storeGrows w w'.
Proof. intros H. exists (articles w), news. split; [done | apply entriesGrow_refl]. Qed.

Lemma storeGrows_articles w w' : articles w' = articles w → storeGrows w w'.
Proof. intros H. apply (storeGrows_append w w' []). by rewrite app_nil_r. Qed.

Lemma storeGrows_upsertArticle a w : storeGrows w (snd (upsertArticle a w)).
Proof.
  destruct (mapHas (id a) (articles w)) eqn:E.
  - rewrite (upsertArticle_present _ _ E). apply storeGrows_refl.
  - rewrite (upsertArticle_absent _ _ E). by eapply storeGrows_append.
Qed.

Lemma entriesGrow_mapSet m k a a' :
  assocGet k m = Some a → articleGrows a a' →
  Forall2 (fun e e' => fst e = fst e' ∧ articleGrows (snd e) (snd e'))
          m (mapSet k a' m).
Proof.
  intros Hget Hg. induction m as [|[k0 a0] m IH]; [done|].
  simpl in *. destruct (decide (k0 = k)) as [->|Hne].
  - injection Hget as ->. constructor; [done | apply entriesGrow_refl].
  - constructor; [|by apply IH]. split; [done | apply articleGrows_refl].
Qed.

Lemma storeGrows_storeTranslation env i l t d w :
  storeGrows w (storeTranslation env i l t d w).
Proof.
  exists (articles (storeTranslation env i l t d w)), [].
  split; [by rewrite app_nil_r|].
  rewrite storeTranslation_articles.
  destruct (assocGet i (articles w)) as [a|] eqn:E; [|apply entriesGrow_refl].
  apply (entriesGrow_mapSet _ _ a); [done|].
  split; [apply sameCoreFields_withTranslation|].
  intros l' Hl'. cbn [translations withTranslation].
  apply lookup_insert_is_Some. destruct (decide (l = l')); auto.
Qed.

Lemma entriesGrow_get m olds news k a :
  Forall2 (fun e e' => fst e = fst e' ∧ articleGrows (snd e) (snd e')) m olds →
  assocGet k m = Some a →
  ∃ a', assocGet k (olds ++ news) = Some a' ∧ articleGrows a a'.
Proof.
  intros H. induction H as [|[k0 a0] [k1 a1] m olds [Hk Hg] _ IH]; [done|].
  simpl in *. subst k1. destruct (decide (k0 = k)); [|exact IH].
  intros [= ->]. by exists a1.
Qed.

Lemma storeGrows_fetchAndStoreFeed env feed w :
  storeGrows w (snd (fetchAndStoreFeed env feed w)).
Proof.
  destruct (fetchAndStoreFeed_outcome env feed w)
    as (cached & ups & trig & added & total & skip & err & Heq & _).
  cbn zeta in Heq. rewrite Heq. cbn [snd].
  match goal with |- context [loggedAt ?m _] => set (m0 := m) end.
  destruct (poll_frame (feed_url feed)
              (requestHeaders (getFeedCache (feed_url feed) w)) cached ups trig m0 w)
    as (_ & _ & _ & _ & _ & _ & _ & _ & news & Ha & _).
  by eapply storeGrows_append.
Qed.

Lemma storeGrows_processQueue env w : storeGrows w (snd (processQueue env w)).
Proof.
  apply (preserves_processQueue storeGrows storeGrows_refl storeGrows_trans).
  - intros b w0. by apply storeGrows_articles.
  - intros c w0 _. by apply storeGrows_articles.
  - intros w0. by apply storeGrows_articles.
  - apply storeGrows_upsertArticle.
  - apply storeGrows_storeTranslation.
Qed.

Lemma storeGrows_runTask env w t : storeGrows w (runTask env w t).
Proof.
  destruct t as [|feed| |[a|i l t d|u e|m]]; cbn [runTask applyOp].
  - by apply storeGrows_articles.
  - apply storeGrows_fetchAndStoreFeed.
  - apply storeGrows_processQueue.
  - apply storeGrows_upsertArticle.
  - apply storeGrows_storeTranslation.
  - by apply storeGrows_articles.
  - by apply storeGrows_articles.
Qed.

Lemma storeGrows_runTasks env tasks w : storeGrows w (runTasks env tasks w).
Proof.
  revert w. induction tasks as [|t tasks IH]; intros w; [apply storeGrows_refl|].
  cbn [runTasks fold_left]. eapply storeGrows_trans; [apply storeGrows_runTask|].
  apply IH.
Qed.

(** X13. Whatever tasks run (polls, queue cycles, initialisation, direct
    calls of the operations of db.ts and metrics.ts) and from whatever
    state: the articles that were stored come first in [getAllArticles],
    in their order, each with its core fields and with an entry for every
    locale it had one for; the count does not decrease; and [getArticle]
    still finds such an article under every id it found one under. *)
Theorem store_only_grows (env : Env) (tasks : list Task) (w : World) :
  let w' := runTasks env tasks w in
  (∃ olds news, getAllArticles w' = olds ++ news
                ∧ Forall2 articleGrows (getAllArticles w) olds)
  ∧ (getArticleCount w ≤ getArticleCount w')%nat
  ∧ ∀ k a, getArticle k w = Some a →
      ∃ a', getArticle k w' = Some a' ∧ articleGrows a a'.
Proof.
  intros w'. destruct (storeGrows_runTasks env tasks w) as (olds & news & Ha & H).
  fold w' in Ha. unfold getAllArticles, getArticleCount, getArticle, mapValues.
  rewrite Ha. split; [|split].
  - exists (map snd olds), (map snd news). split; [apply map_app|].
    clear Ha. induction H as [|e e' m o [_ Hg] _ IH]; constructor; done.
  - rewrite length_app, <- (Forall2_length _ _ _ H). lia.
  - intros k a Hget. by eapply entriesGrow_get.
Qed.

Lemma storeGrows_count w w' :
  storeGrows w w' → (getArticleCount w ≤ getArticleCount w')%nat.
Proof.
  intros (olds & news & Ha & H). unfold getArticleCount.
  rewrite Ha, length_app, <- (Forall2_length _ _ _ H). lia.
Qed.

Lemma sameFeedState_refl w : sameFeedState w w.
Proof. done. Qed.

Lemma sameFeedState_trans w1 w2 w3 :
  sameFeedState w1 w2 → sameFeedState w2 w3 → sameFeedState w1 w3.
Proof. intros [H1 H2] [H3 H4]. split; congruence. Qed.

Lemma sameFeedState_upsertArticle a w : sameFeedState w (snd (upsertArticle a w)).
Proof. unfold upsertArticle. by destruct (mapHas _ _). Qed.

Lemma sameFeedState_storeTranslation env i l t d w :
  sameFeedState w (storeTranslation env i l t d w).
Proof. unfold storeTranslation. by destruct (assocGet _ _). Qed.

(** In the model the feed tasks that run while the queue is suspended
    are reduced to their [upsertArticle] calls; the queue itself never
    writes to the metrics log or the feed cache. *)
Lemma sameFeedState_processQueue env w : sameFeedState w (snd (processQueue env w)).
Proof.
  apply (preserves_processQueue sameFeedState sameFeedState_refl sameFeedState_trans);
    try done.
  - apply sameFeedState_upsertArticle.
  - apply sameFeedState_storeTranslation.
Qed.

Lemma totalArticlesAdded_sum log n :
  fold_left (fun sum m => (sum + articlesAdded m)%nat) log n
  = (n + sum_list_with articlesAdded log)%nat.
Proof.
  revert n. induction log as [|m log IH]; intros n; csimpl; [lia|].
  rewrite IH. lia.
Qed.

Lemma sum_list_with_drop_le {A : Type} (f : A → nat) (l : list A) n :
  (sum_list_with f (drop n l) ≤ sum_list_with f l)%nat.
Proof.
  revert n. induction l as [|x l IH]; intros [|n]; simpl; try lia.
  specialize (IH n). lia.
Qed.

Lemma reported_le_count_logFetchMetric m w w' :
  (sum_list_with articlesAdded (metricsLog w) ≤ getArticleCount w)%nat →
  metricsLog w' = metricsLog (logFetchMetric m w) →
  (getArticleCount w + articlesAdded m ≤ getArticleCount w')%nat →
  (sum_list_with articlesAdded (metricsLog w') ≤ getArticleCount w')%nat.
Proof.
  intros HI Hlog Hadd. rewrite Hlog, logFetchMetric_log.
  etrans; [apply sum_list_with_drop_le|].
  rewrite sum_list_with_app. simpl. lia.
Qed.

Lemma reported_le_count_runTask env w t :
  notRawMetric t = true →
  (sum_list_with articlesAdded (metricsLog w) ≤ getArticleCount w)%nat →
  (sum_list_with articlesAdded (metricsLog (runTask env w t))
   ≤ getArticleCount (runTask env w t))%nat.
Proof.
  intros Ht HI.
  destruct t as [|feed| |[a|i l t d|u e|m]]; cbn [runTask applyOp]; try done.
  - destruct (fetchAndStoreFeed_outcome env feed w)
      as (cached & ups & trig & added & total & skip & err & Heq & _ & Hcls).
    cbn zeta in Heq, Hcls. unfold run. rewrite Heq. cbn [snd].
    set (url := feed_url feed) in *.
    set (hdrs := requestHeaders (getFeedCache url w)) in *.
    match goal with |- context [loggedAt ?m _] => set (m0 := m) end.
    destruct (poll_frame url hdrs cached ups trig m0 w)
      as (_ & Hm & _ & _ & _ & _ & _ & HaX & news & Ha & _ & Hlen).
    cbn zeta in *. eapply reported_le_count_logFetchMetric; [exact HI|exact Hm|].
    unfold getArticleCount. rewrite Ha, length_app.
    subst m0. unfold metricOf. cbn [articlesAdded].
    rewrite <- HaX, Ha, length_app in Hcls.
    destruct (fetchResult env (S (tick w)) url hdrs) as [r|e].
    2: { destruct Hcls as (_ & _ & _ & -> & _). lia. }
    destruct (status r =? 304); [destruct Hcls as (_ & _ & _ & -> & _); lia|].
    destruct (negb (responseOk r)); [destruct Hcls as (_ & _ & _ & -> & _); lia|].
    destruct Hcls as (_ & _ & Herr). destruct err as [e|].
    + destruct Herr as (_ & -> & _). lia.
    + destruct Herr as (items & _ & _ & _ & _ & ->). lia.
  - destruct (sameFeedState_processQueue env w) as [Hm _].
    pose proof (storeGrows_count _ _ (storeGrows_processQueue env w)).
    unfold run. rewrite Hm. lia.
  - destruct (sameFeedState_upsertArticle a w) as [Hm _].
    pose proof (storeGrows_count _ _ (storeGrows_upsertArticle a w)).
    rewrite Hm. lia.
  - destruct (sameFeedState_storeTranslation env i l t d w) as [Hm _].
    pose proof (storeGrows_count _ _ (storeGrows_storeTranslation env i l t d w)).
    rewrite Hm. lia.
Qed.

(** X14. In a run from the start of the process that is made of whole
    polls, whole queue cycles (during whose waits further articles may
    be stored), initialisations and direct calls of the operations of
    db.ts, the summary of [getMetrics] never reports more added articles
    than [getArticleCount] counts. *)
Theorem reported_articles_bounded_by_count (env : Env) (tasks : list Task) :
  forallb notRawMetric tasks = true →
  let w := runTasks env tasks initialWorld in
  (totalArticlesAdded (summary (getMetrics w)) ≤ getArticleCount w)%nat.
Proof.
  intros Htasks w. cbn [getMetrics summary totalArticlesAdded].
  rewrite totalArticlesAdded_sum. cbn [Nat.add].
  assert (H : ∀ w0, (sum_list_with articlesAdded (metricsLog w0) ≤ getArticleCount w0)%nat →
                    (sum_list_with articlesAdded (metricsLog (runTasks env tasks w0))
                     ≤ getArticleCount (runTasks env tasks w0))%nat).
  { clear w. induction tasks as [|t tasks IH]; intros w0 HI; [done|].
    cbn [forallb] in Htasks. apply andb_true_iff in Htasks as [Ht Htasks].
    cbn [runTasks fold_left]. apply (IH Htasks).
    by apply reported_le_count_runTask. }
  apply H. cbn. lia.
Qed.

Lemma reported_articles_bounded_by_count_witness :
  let w := runTasks twoPollsEnv
             [TFetchAndStoreFeed sampleFeed; TInitTranslationQueue; TProcessQueue;
              TFetchAndStoreFeed sampleFeed] initialWorld in
  (totalArticlesAdded (summary (getMetrics w)) ≤ getArticleCount w)%nat.
Proof.
  apply (reported_articles_bounded_by_count twoPollsEnv
           [TFetchAndStoreFeed sampleFeed; TInitTranslationQueue; TProcessQueue;
            TFetchAndStoreFeed sampleFeed]).
  reflexivity.
Defined.

Lemma nonEmpty_idemp o : nonEmpty (nonEmpty o) = nonEmpty o.
Proof. by destruct o as [[|c r]|]. Qed.

Lemma validatorsOf_hasValidator r e : validatorsOf r = Some e → hasValidator e = true.
Proof.
  unfold validatorsOf, hasValidator.
  destruct (present (nonEmpty (header_etag r))
            || present (nonEmpty (header_lastModified r))) eqn:E; [|done].
  intros [= <-]. cbn [etag lastModified]. by rewrite !nonEmpty_idemp.
Qed.

Lemma validated_runTask env w t :
  notRawCache t = true →
  map_Forall (fun _ e => hasValidator e = true) (feedCache w) →
  map_Forall (fun _ e => hasValidator e = true) (feedCache (runTask env w t)).
Proof.
  intros Ht HI.
  destruct t as [|feed| |[a|i l t d|u e|m]]; cbn [runTask applyOp]; try done.
  - destruct (fetchAndStoreFeed_outcome env feed w)
      as (cached & ups & trig & added & total & skip & err & Heq & _ & Hcls).
    cbn zeta in Heq, Hcls. unfold run. rewrite Heq. cbn [snd].
    set (url := feed_url feed) in *.
    set (hdrs := requestHeaders (getFeedCache url w)) in *.
    match goal with |- context [loggedAt ?m _] => set (m0 := m) end.
    destruct (poll_frame url hdrs cached ups trig m0 w) as (_ & _ & Hf & _).
    cbn zeta in Hf. rewrite Hf.
    destruct cached as [e|]; [|done].
    apply map_Forall_insert_2; [|done].
    destruct (fetchResult env (S (tick w)) url hdrs) as [r|e'].
    2: { by destruct Hcls as (? & _). }
    destruct (status r =? 304); [by destruct Hcls as (? & _)|].
    destruct (negb (responseOk r)); [by destruct Hcls as (? & _)|].
    destruct Hcls as (Hc & _). by eapply validatorsOf_hasValidator.
  - destruct (sameFeedState_processQueue env w) as [_ Hf]. unfold run. by rewrite Hf.
  - destruct (sameFeedState_upsertArticle a w) as [_ Hf]. by rewrite Hf.
  - destruct (sameFeedState_storeTranslation env i l t d w) as [_ Hf]. by rewrite Hf.
Qed.

Lemma requestHeaders_conditional cache :
  existsb isConditional (requestHeaders cache)
  = match cache with Some e => hasValidator e | None => false end.
Proof.
  unfold requestHeaders, hasValidator.
  destruct cache as [[e l]|]; [|reflexivity].
  cbn [mbind option_bind etag lastModified].
  destruct (nonEmpty e), (nonEmpty l); reflexivity.
Qed.

(** X15. In a run from the start of the process that is made of whole
    polls, whole queue cycles, initialisations and direct calls of the
    operations of db.ts and metrics.ts other than [setFeedCache], every
    entry of the feed cache holds a validator that is not empty: the
    request for a feed carries [If-None-Match] or [If-Modified-Since]
    exactly when the feed has a cache entry. *)
Theorem cached_feeds_poll_conditionally (env : Env) (tasks : list Task) :
  forallb notRawCache tasks = true →
  let w := runTasks env tasks initialWorld in
  ∀ url, existsb isConditional (requestHeaders (getFeedCache url w))
         = match getFeedCache url w with Some _ => true | None => false end.
Proof.
  intros Htasks w url.
  assert (H : ∀ w0, map_Forall (fun _ e => hasValidator e = true) (feedCache w0) →
                    map_Forall (fun _ e => hasValidator e = true)
                               (feedCache (runTasks env tasks w0))).
  { clear w. induction tasks as [|t tasks IH]; intros w0 HI; [done|].
    cbn [forallb] in Htasks. apply andb_true_iff in Htasks as [Ht Htasks].
    cbn [runTasks fold_left]. apply (IH Htasks).
    by apply validated_runTask. }
  specialize (H initialWorld (map_Forall_empty _)). fold w in H.
  rewrite requestHeaders_conditional. unfold getFeedCache.
  destruct (feedCache w !! url) as [e|] eqn:E; [|done].
  by apply (H url e).
Qed.

Lemma cached_feeds_poll_conditionally_witness :
  let w := runTasks twoPollsEnv [TFetchAndStoreFeed sampleFeed] initialWorld in
  existsb isConditional (requestHeaders (getFeedCache (feed_url sampleFeed) w)) = true.
Proof.
  intros w. unfold w.
  rewrite (cached_feeds_poll_conditionally twoPollsEnv [TFetchAndStoreFeed sampleFeed]
             eq_refl (feed_url sampleFeed)).
  vm_compute. reflexivity.
Defined.

(** ** metrics.ts: the summary *)


(** ** translator.ts: the queue as a whole *)

Lemma queueStep_refl w : queueStep w w.
Proof. split; [done|]. exists []. by rewrite app_nil_r. Qed.

Lemma queueStep_trans w1 w2 w3 : queueStep w1 w2 → queueStep w2 w3 → queueStep w1 w3.
Proof.
  intros (Hl1 & n1 & Hc1 & Hq1) (Hl2 & n2 & Hc2 & Hq2).
  split; [congruence|]. exists (n1 ++ n2).
  split; [by rewrite Hc2, Hc1, app_assoc|].
  by rewrite forallb_app, Hq1, Hq2.
Qed.

Lemma queueStep_frame w w' :
  lingoDotDev w' = lingoDotDev w → calls w' = calls w → queueStep w w'.
Proof. intros Hl Hc. split; [done|]. exists []. by rewrite app_nil_r. Qed.

Lemma queueStep_upsertArticle a w : queueStep w (snd (upsertArticle a w)).
Proof.
  unfold upsertArticle. destruct (mapHas _ _); by apply queueStep_frame.
Qed.

Lemma queueStep_storeTranslation env i l t d w :
  queueStep w (storeTranslation env i l t d w).
Proof.
  unfold storeTranslation. destruct (assocGet _ _); by apply queueStep_frame.
Qed.

Lemma processQueue_Ok env w : fst (processQueue env w) = Ok tt.
Proof.
  unfold processQueue, gets. unfold mbind at 1 2, M_bind at 1 2. cbn beta iota.
  destruct (isProcessing w || negb (lingoDotDev w)); [done|].
  unfold mbind, M_bind, modify, finally, tryCatch. cbn beta iota.
  destruct (forEach ENABLED_LOCALES (processLocale env) (set_isProcessing true w))
    as [[[]|e] w1]; done.
Qed.

Lemma set_isProcessing_same w b : isProcessing w = b → set_isProcessing b w = w.
Proof. destruct w. cbn. by intros ->. Qed.

Lemma set_isProcessing_twice w b b' :
  set_isProcessing b (set_isProcessing b' w) = set_isProcessing b w.
Proof. done. Qed.

(** X17. [processQueue] never throws and leaves the flag [isProcessing]
    and the engine as it found them; the only calls it makes are
    requests to the provider, [storeTranslation] calls and waits; when
    it finds the flag set, or no engine, it does nothing at all. *)
Theorem processQueue_frame (env : Env) (w : World) :
  let r := processQueue env w in
  fst r = Ok tt
  ∧ isProcessing (snd r) = isProcessing w
  ∧ lingoDotDev (snd r) = lingoDotDev w
  ∧ forallb isQueueCall (newCalls w (snd r)) = true
  ∧ (isProcessing w = true ∨ lingoDotDev w = false → snd r = w).
Proof.
  intros r. split; [apply processQueue_Ok|].
  assert (Hq : queueStep w (snd r)).
  { apply (preserves_processQueue queueStep queueStep_refl queueStep_trans).
    - intros b w0. by apply queueStep_frame.
    - intros c w0 Hc. split; [done|]. exists [c]. split; [done|].
      cbn. by rewrite Hc.
    - intros w0. by apply queueStep_frame.
    - apply queueStep_upsertArticle.
    - apply queueStep_storeTranslation. }
  destruct Hq as (Hl & new & Hc & Hnew).
  assert (Hidle : isProcessing w = true ∨ lingoDotDev w = false → snd r = w).
  { intros H. unfold r. by rewrite (processQueue_idle env w H). }
  split; [|split; [done|]; split; [|done]].
  - destruct (isProcessing w) eqn:Hp; [by rewrite Hidle, Hp; auto|].
    destruct (lingoDotDev w) eqn:He; [|by rewrite Hidle, Hp; auto].
    unfold r. by rewrite (processQueue_run env w Hp He).
  - unfold newCalls. by rewrite Hc, drop_app_length.
Qed.

Lemma processLocale_nothing env locale w :
  needsTranslationOf locale (getUntranslatedArticles locale w) = [] →
  processLocale env locale w = (Ok tt, w).
Proof.
  intros H. unfold processLocale, gets. unfold mbind, M_bind. cbn beta iota zeta.
  case_bool_decide; [done|]. rewrite H. done.
Qed.

Lemma forEach_locales_nothing env locales w :
  (∀ locale, locale ∈ locales →
     needsTranslationOf locale (getUntranslatedArticles locale w) = []) →
  forEach locales (processLocale env) w = (Ok tt, w).
Proof.
  induction locales as [|l locales IH]; intros Hnone; [done|].
  cbn [forEach]. unfold mbind, M_bind.
  rewrite processLocale_nothing by (apply Hnone; by left).
  apply IH. intros x Hx. apply Hnone. by right.
Qed.

(** A cycle whose loop over the locales changes nothing changes nothing. *)
Lemma processQueue_fixed env w :
  forEach ENABLED_LOCALES (processLocale env) (set_isProcessing true w)
  = (Ok tt, set_isProcessing true w) →
  processQueue env w = (Ok tt, w).
Proof.
  intros Hrun.
  destruct (isProcessing w) eqn:Hp; [apply processQueue_idle; auto|].
  destruct (lingoDotDev w) eqn:He; [|apply processQueue_idle; auto].
  rewrite (processQueue_run env w Hp He). f_equal.
  unfold run. rewrite Hrun. cbn [snd].
  rewrite set_isProcessing_twice. by apply set_isProcessing_same.
Qed.

(** X18. When no stored article lacks a translation into a locale other
    than its own, a queue cycle makes no call and leaves the state as it
    is. *)
Theorem processQueue_nothing_to_translate (env : Env) (w : World) :
  (∀ locale, locale ∈ ENABLED_LOCALES →
     needsTranslationOf locale (getUntranslatedArticles locale w) = []) →
  processQueue env w = (Ok tt, w).
Proof.
  intros Hnone. apply processQueue_fixed, forEach_locales_nothing.
  intros locale Hin.
  change (getUntranslatedArticles locale (set_isProcessing true w))
    with (getUntranslatedArticles locale w).
  by apply Hnone.
Qed.

Lemma processQueue_nothing_to_translate_witness :
  processQueue sampleEnv worldAllTranslated = (Ok tt, worldAllTranslated).
Proof.
  apply processQueue_nothing_to_translate.
  intros locale Hin. unfold ENABLED_LOCALES in Hin.
  apply elem_of_cons in Hin as [->|Hin]; [vm_compute; reflexivity|].
  apply elem_of_cons in Hin as [->|Hin]; [vm_compute; reflexivity|].
  by apply elem_of_nil in Hin.
Defined.

(** ** translator.ts: the object sent to the provider *)

Lemma titleKey_inj a b : titleKey a = titleKey b → id a = id b.
Proof. unfold titleKey. apply app_inv_tail. Qed.

Lemma descKey_inj a b : descKey a = descKey b → id a = id b.
Proof. unfold descKey. apply app_inv_tail. Qed.

Lemma titleKey_descKey a b : titleKey a ≠ descKey b.
Proof.
  unfold titleKey, descKey. intros H. apply (f_equal (@rev N)) in H.
  rewrite !rev_app_distr in H.
  change (rev (str "__title")) with ([101; 108; 116; 105; 116; 95; 95] : jsstring) in H.
  change (rev (str "__desc")) with ([99; 115; 101; 100; 95; 95] : jsstring) in H.
  discriminate H.
Qed.

Lemma buildTextObj_snoc batch a :
  buildTextObj (batch ++ [a])
  = <[descKey a := description a]> (<[titleKey a := title a]> (buildTextObj batch)).
Proof. unfold buildTextObj. by rewrite fold_left_app. Qed.

Lemma buildTextObj_keys batch k v :
  buildTextObj batch !! k = Some v →
  ∃ a, a ∈ batch ∧ (k = titleKey a ∨ k = descKey a).
Proof.
  induction batch as [|a batch IH] using rev_ind; [done|].
  rewrite buildTextObj_snoc. intros H.
  destruct (decide (k = descKey a)) as [->|Hd].
  { exists a. split; [apply elem_of_app; right; by left | by right]. }
  rewrite lookup_insert_ne in H by done.
  destruct (decide (k = titleKey a)) as [->|Ht].
  { exists a. split; [apply elem_of_app; right; by left | by left]. }
  rewrite lookup_insert_ne in H by done.
  destruct (IH H) as (b & Hb & Hk). exists b.
  split; [apply elem_of_app; by left | done].
Qed.

(** X19. For a batch of articles with distinct ids, as the queue takes
    them from the store, the object sent to the provider holds the title
    and the description of every article under its two keys, and nothing
    else: no text of one article is overwritten by the text of
    another. *)
Theorem buildTextObj_complete (batch : list StoredArticle) :
  NoDup (id <$> batch) →
  size (buildTextObj batch) = (2 * length batch)%nat
  ∧ (∀ a, a ∈ batch →
       buildTextObj batch !! titleKey a = Some (title a)
       ∧ buildTextObj batch !! descKey a = Some (description a))
  ∧ (∀ k v, buildTextObj batch !! k = Some v →
       ∃ a, a ∈ batch
            ∧ (k = titleKey a ∧ v = title a ∨ k = descKey a ∧ v = description a)).
Proof.
  induction batch as [|a batch IH] using rev_ind; intros Hnd.
  { split; [done|]. split; [|done]. intros a Ha. by apply elem_of_nil in Ha. }
  rewrite fmap_app in Hnd. apply NoDup_app in Hnd as (Hnd & Hdisj & _).
  destruct (IH Hnd) as (Hsize & Hget & Honly). clear IH.
  assert (Hfresh : ∀ b, b ∈ batch → id b ≠ id a).
  { intros b Hb Heq. apply (Hdisj (id b)); [by apply list_elem_of_fmap_2|].
    rewrite Heq. by left. }
  assert (Hnone : ∀ k, (k = titleKey a ∨ k = descKey a) → buildTextObj batch !! k = None).
  { intros k Hk. destruct (buildTextObj batch !! k) as [v|] eqn:E; [|done].
    exfalso. destruct (buildTextObj_keys _ _ _ E) as (b & Hb & Hkb).
    apply (Hfresh b Hb).
    destruct Hk as [-> | ->], Hkb as [Hkb|Hkb].
    - symmetry. by apply titleKey_inj.
    - by destruct (titleKey_descKey a b).
    - symmetry in Hkb. by destruct (titleKey_descKey b a).
    - symmetry. by apply descKey_inj. }
  rewrite buildTextObj_snoc. split; [|split].
  - rewrite !map_size_insert_None, Hsize, length_app; [simpl; lia|auto|].
    rewrite lookup_insert_ne by apply titleKey_descKey. auto.
  - intros b [Hb|Hb%list_elem_of_singleton]%elem_of_app.
    + destruct (Hget b Hb) as [Ht Hd]. pose proof (Hfresh b Hb) as Hne.
      rewrite !lookup_insert_ne; [done|..];
        intros H;
        first [ by destruct (titleKey_descKey _ _ H)
              | by destruct (titleKey_descKey _ _ (eq_sym H))
              | apply Hne; symmetry; by apply titleKey_inj
              | apply Hne; symmetry; by apply descKey_inj ].
    + subst b. rewrite lookup_insert_ne by (intros H; by destruct (titleKey_descKey a a)).
      by rewrite !lookup_insert_eq.
  - intros k v H.
    destruct (decide (k = descKey a)) as [->|Hd].
    { rewrite lookup_insert_eq in H. injection H as <-.
      exists a. split; [apply elem_of_app; right; by left | by right]. }
    rewrite lookup_insert_ne in H by done.
    destruct (decide (k = titleKey a)) as [->|Ht].
    { rewrite lookup_insert_eq in H. injection H as <-.
      exists a. split; [apply elem_of_app; right; by left | by left]. }
    rewrite lookup_insert_ne in H by done.
    destruct (Honly k v H) as (b & Hb & Hk). exists b.
    split; [apply elem_of_app; by left | done].
Qed.

Lemma buildTextObj_complete_witness :
  size (buildTextObj (map numberedArticle (seq 0 20))) = 40%nat.
Proof.
  apply (buildTextObj_complete (map numberedArticle (seq 0 20))).
  refine (bool_decide_unpack _ _). vm_compute. exact I.
Defined.

(** ** translator.ts: translation on demand, and a process without engine *)

Lemma background_get env w k a :
  getArticle k w = Some a → getArticle k (run (background env) w) = Some a.
Proof.
  unfold run, background. cbn [snd]. intros H.
  assert (H0 : getArticle k (next_tick w) = Some a) by done.
  revert H0. generalize (ingested env (tick w)) (next_tick w). clear.
  intros l. induction l as [|b l IH]; intros w H; [done|].
  cbn [fold_left]. apply IH. by apply upsertArticle_get.
Qed.

Lemma background_calls env w : calls (run (background env) w) = calls w.
Proof.
  unfold run, background. cbn [snd].
  change (calls w) with (calls (next_tick w)).
  generalize (ingested env (tick w)) (next_tick w). clear.
  intros l. induction l as [|b l IH]; intros w; [done|].
  cbn [fold_left]. rewrite IH. unfold upsertArticle. by destruct (mapHas _ _).
Qed.

(** X20. [translateOnDemand] fails at once, with no call and no change
    of state, when the engine is not initialised.  Otherwise it makes one
    request to the provider, with the texts and the locales it was given,
    and returns what the provider returns, its error included; it never
    alters a stored article. *)
Theorem translateOnDemand_spec (env : Env) (texts : gmap jsstring jsstring)
    (src tgt : jsstring) (w : World) :
  let r := translateOnDemand env texts src tgt w in
  (lingoDotDev w = false →
     r = (Throw (str "Translation engine not initialized"), w))
  ∧ (lingoDotDev w = true →
       fst r = localizeObject env (tick w) texts src tgt
       ∧ newCalls w (snd r) = [CLocalizeObject texts src tgt])
  ∧ ∀ k a, getArticle k w = Some a → getArticle k (snd r) = Some a.
Proof.
  intros r. unfold r, translateOnDemand, gets. unfold mbind, M_bind. cbn beta iota.
  destruct (lingoDotDev w) eqn:He; cbn [negb].
  - split; [done|]. unfold awaitLocalizeObject. cbn [fst snd]. split.
    + intros _. split; [done|]. unfold newCalls.
      rewrite background_calls. cbn. by rewrite drop_app_length.
    + intros k a H. by apply background_get.
  - split; [done|]. split; [done|]. by intros k a H.
Qed.

Lemma no_engine_runTask env w t :
  notInit t = true → lingoDotDev w = false →
  forallb isFeedCall (calls w) = true →
  lingoDotDev (runTask env w t) = false
  ∧ forallb isFeedCall (calls (runTask env w t)) = true.
Proof.
  intros Ht He Hc.
  destruct t as [|feed| |[a|i l t d|u e|m]]; cbn [runTask applyOp]; try done.
  - destruct (fetchAndStoreFeed_outcome env feed w)
      as (cached & ups & trig & added & total & skip & err & Heq & _).
    cbn zeta in Heq. unfold run. rewrite Heq. cbn [snd].
    match goal with |- context [loggedAt ?m _] => set (m0 := m) end.
    destruct (poll_frame (feed_url feed)
                (requestHeaders (getFeedCache (feed_url feed) w)) cached ups trig m0 w)
      as (Hcalls & _ & _ & _ & Hl & _).
    cbn zeta in *. rewrite Hl, Hcalls. split; [done|].
    rewrite forallb_app, Hc. cbn [andb forallb isFeedCall].
    rewrite !forallb_app.
    assert (forallb isFeedCall (CSetFeedCache (feed_url feed) <$> option_list cached) = true)
      as -> by (by destruct cached).
    assert (forallb isFeedCall (CUpsertArticle <$> ups) = true) as ->.
    { apply forallb_forall. intros c [a [-> _]]%list_elem_of_In%list_elem_of_fmap. done. }
    by destruct trig.
  - unfold run. rewrite (processQueue_idle env w) by auto. done.
  - unfold upsertArticle. by destruct (mapHas _ _).
  - unfold storeTranslation. by destruct (assocGet _ _).
Qed.

Lemma no_engine_stays env w t :
  notInit t = true → lingoDotDev w = false → lingoDotDev (runTask env w t) = false.
Proof.
  intros Ht He.
  destruct t as [|feed| |[a|i l t d|u e|m]]; cbn [runTask applyOp]; try done.
  - destruct (fetchAndStoreFeed_outcome env feed w)
      as (cached & ups & trig & added & total & skip & err & Heq & _).
    cbn zeta in Heq. unfold run. rewrite Heq. cbn [snd].
    match goal with |- context [loggedAt ?m _] => set (m0 := m) end.
    destruct (poll_frame (feed_url feed)
                (requestHeaders (getFeedCache (feed_url feed) w)) cached ups trig m0 w)
      as (_ & _ & _ & _ & Hl & _).
    cbn zeta in Hl. by rewrite Hl.
  - unfold run. by rewrite (processQueue_idle env w) by auto.
  - unfold upsertArticle. by destruct (mapHas _ _).
  - unfold storeTranslation. by destruct (assocGet _ _).
Qed.

Lemma no_engine_skips_cycles env tasks w :
  forallb notInit tasks = true → lingoDotDev w = false →
  runTasks env tasks w = runTasks env (List.filter notQueueCycle tasks) w.
Proof.
  revert w. induction tasks as [|t tasks IH]; intros w Htasks He; [done|].
  cbn [forallb] in Htasks. apply andb_true_iff in Htasks as [Ht Htasks].
  pose proof (no_engine_stays env w t Ht He) as He'.
  cbn [runTasks fold_left List.filter].
  destruct t as [|feed| |op]; cbn [notQueueCycle runTasks fold_left];
    try (by apply IH).
  cbn [runTask] in *. unfold run. rewrite (processQueue_idle env w) by auto.
  cbn [snd]. by apply IH.
Qed.

Lemma untranslated_store_runTask env w t :
  notInit t = true → notDirectArticleOp t = true → lingoDotDev w = false →
  (∀ a, a ∈ getAllArticles w → translations a = ∅) →
  ∀ a, a ∈ getAllArticles (runTask env w t) → translations a = ∅.
Proof.
  intros Ht Hd He HI.
  destruct t as [|feed| |[a0|i l t d|u e|m]]; cbn [runTask applyOp]; try done.
  - destruct (fetchAndStoreFeed_outcome env feed w)
      as (cached & ups & trig & added & total & skip & err & Heq & Hall & _).
    cbn zeta in Heq. unfold run. rewrite Heq. cbn [snd].
    match goal with |- context [loggedAt ?m _] => set (m0 := m) end.
    destruct (poll_frame (feed_url feed)
                (requestHeaders (getFeedCache (feed_url feed) w)) cached ups trig m0 w)
      as (_ & _ & _ & _ & _ & _ & _ & _ & news & Ha & Hnews & _).
    cbn zeta in Ha. intros a. unfold getAllArticles, mapValues. rewrite Ha, map_app.
    intros [Hin|Hin]%elem_of_app; [by apply HI|].
    apply list_elem_of_fmap in Hin as (e & -> & He0).
    rewrite Forall_forall in Hnews. destruct (Hnews e He0) as [Hup _].
    rewrite Forall_forall in Hall.
    by destruct (Hall _ Hup) as (_ & _ & _ & _ & Htr & _).
  - unfold run. by rewrite (processQueue_idle env w) by auto.
Qed.

(** X21. As long as [initTranslationQueue] has not been called, a queue
    cycle does nothing at all: a run of polls, queue cycles and direct
    calls of db.ts and metrics.ts ends in the state of the same run
    without its queue cycles, the engine is unset, and the only calls of
    the tasks are those of the polls.  When in addition [upsertArticle]
    and [storeTranslation] are not called directly, no stored article has
    a translation. *)
Theorem no_engine_no_translation (env : Env) (tasks : list Task) :
  forallb notInit tasks = true →
  let w := runTasks env tasks initialWorld in
  lingoDotDev w = false
  ∧ forallb isFeedCall (calls w) = true
  ∧ w = runTasks env (List.filter notQueueCycle tasks) initialWorld
  ∧ (forallb notDirectArticleOp tasks = true →
     ∀ a, a ∈ getAllArticles w → translations a = ∅).
Proof.
  intros Htasks w.
  assert (H : ∀ w0, lingoDotDev w0 = false → forallb isFeedCall (calls w0) = true →
                    lingoDotDev (runTasks env tasks w0) = false
                    ∧ forallb isFeedCall (calls (runTasks env tasks w0)) = true).
  { clear w. revert Htasks. induction tasks as [|t tasks IH]; intros Htasks w0 He Hc; [done|].
    cbn [forallb] in Htasks. apply andb_true_iff in Htasks as [Ht Htasks].
    cbn [runTasks fold_left].
    destruct (no_engine_runTask env w0 t Ht He Hc) as [He' Hc']. by apply IH. }
  destruct (H initialWorld eq_refl eq_refl) as [He Hc].
  split; [exact He|]. split; [exact Hc|].
  split; [by apply no_engine_skips_cycles|].
  intros Hdirect.
  assert (H4 : ∀ w0, lingoDotDev w0 = false →
                     (∀ a, a ∈ getAllArticles w0 → translations a = ∅) →
                     ∀ a, a ∈ getAllArticles (runTasks env tasks w0) → translations a = ∅).
  { clear w H He Hc. revert Htasks Hdirect.
    induction tasks as [|t tasks IH]; intros Htasks Hdirect w0 He HI; [done|].
    cbn [forallb] in Htasks, Hdirect.
    apply andb_true_iff in Htasks as [Ht Htasks].
    apply andb_true_iff in Hdirect as [Hd Hdirect].
    cbn [runTasks fold_left]. apply (IH Htasks Hdirect).
    - by apply no_engine_stays.
    - by apply untranslated_store_runTask. }
  apply H4; [done|]. intros a Ha. by apply elem_of_nil in Ha.
Qed.

Lemma no_engine_no_translation_witness :
  let w := runTasks twoPollsEnv
             [TFetchAndStoreFeed sampleFeed; TProcessQueue] initialWorld in
  lingoDotDev w = false
  ∧ w = runTasks twoPollsEnv [TFetchAndStoreFeed sampleFeed] initialWorld
  ∧ Forall (fun a => translations a = ∅) (getAllArticles w).
Proof.
  intros w.
  destruct (no_engine_no_translation twoPollsEnv
              [TFetchAndStoreFeed sampleFeed; TProcessQueue] eq_refl)
    as (He & _ & Hrun & Hnone).
  split; [exact He|]. split; [exact Hrun|].
  apply Forall_forall. intros a Ha. by apply (Hnone eq_refl).
Defined.

(** ** translator.ts: what a cycle achieves *)

Lemma storeGrows_flag b w : storeGrows w (set_isProcessing b w).
Proof. by apply storeGrows_articles. Qed.

Lemma storeGrows_call c w : isQueueCall c = true → storeGrows w (record_call c w).
Proof. intros _. by apply storeGrows_articles. Qed.

Lemma storeGrows_tick w : storeGrows w (next_tick w).
Proof. by apply storeGrows_articles. Qed.

Ltac grows_atoms :=
  first [ exact storeGrows_refl | exact storeGrows_trans | exact storeGrows_flag
        | exact storeGrows_call | exact storeGrows_tick
        | exact storeGrows_upsertArticle | exact storeGrows_storeTranslation ].

Lemma storeGrows_get w w' k a :
  storeGrows w w' → getArticle k w = Some a →
  ∃ a', getArticle k w' = Some a' ∧ articleGrows a a'.
Proof.
  intros (olds & news & Ha & H) Hget. unfold getArticle. rewrite Ha.
  by eapply entriesGrow_get.
Qed.

(** An entry for a locale, once stored, is there in every later state. *)
Lemma storeGrows_entry w w' k a l :
  storeGrows w w' → getArticle k w = Some a → is_Some (translations a !! l) →
  ∃ a' e, getArticle k w' = Some a' ∧ translations a' !! l = Some e
          ∧ sameCoreFields a a'.
Proof.
  intros Hg Hget Hl. destruct (storeGrows_get _ _ _ _ Hg Hget) as (a' & Hget' & Hc & Ht).
  destruct (Ht l Hl) as [e He]. by exists a', e.
Qed.

Lemma storeGrows_sleep env ms w : storeGrows w (snd (sleep env ms w)).
Proof. apply preserves_sleep; grows_atoms. Qed.

Lemma storeGrows_batchLoop env fuel i needs locale w :
  storeGrows w (snd (batchLoop env fuel i needs locale w)).
Proof. apply preserves_batchLoop; grows_atoms. Qed.

Lemma storeGrows_processLocale env locale w :
  storeGrows w (snd (processLocale env locale w)).
Proof. apply preserves_processLocale; grows_atoms. Qed.

Lemma storeGrows_forEach_locales env locales w :
  storeGrows w (snd (forEach locales (processLocale env) w)).
Proof.
  apply preserves_forEach; [grows_atoms..|].
  intros locale w0. apply storeGrows_processLocale.
Qed.

Lemma storeGrows_awaitLocalizeObject env textObj src tgt w :
  storeGrows w (snd (awaitLocalizeObject env textObj src tgt w)).
Proof. apply preserves_awaitLocalizeObject; grows_atoms. Qed.

Lemma storeGrows_writeBack env (f g : StoredArticle → jsstring) locale batch w :
  storeGrows w (snd (forEach batch (fun a =>
                       storeTranslationM env (id a) locale (f a) (g a)) w)).
Proof.
  apply preserves_forEach; [grows_atoms..|].
  intros a w0. apply preserves_storeTranslationM; grows_atoms.
Qed.

(** After the write-back every article of the batch that is stored has an
    entry for the locale. *)
Lemma writeBack_translates env (f g : StoredArticle → jsstring) locale batch w a :
  a ∈ batch → is_Some (getArticle (id a) w) →
  let w' := snd (forEach batch (fun b =>
                   storeTranslationM env (id b) locale (f b) (g b)) w) in
  ∃ a' e, getArticle (id a) w' = Some a' ∧ translations a' !! locale = Some e.
Proof.
  revert w. induction batch as [|b batch IH]; intros w Hin [a0 Hget] w'.
  { by apply elem_of_nil in Hin. }
  unfold w'. cbn [forEach]. unfold mbind, M_bind.
  set (w1 := snd (storeTranslationM env (id b) locale (f b) (g b) w)).
  change (storeTranslationM env (id b) locale (f b) (g b) w) with (Ok tt, w1).
  assert (Hg1 : storeGrows w w1).
  { apply (preserves_storeTranslationM storeGrows); grows_atoms. }
  apply elem_of_cons in Hin as [->|Hin].
  - assert (H1 : ∃ a1, getArticle (id b) w1 = Some a1
                       ∧ is_Some (translations a1 !! locale)).
    { unfold w1, storeTranslationM, modify. cbn [snd].
      eexists. split; [by apply storeTranslation_get_eq|].
      cbn [translations withTranslation]. rewrite lookup_insert_eq. by eexists. }
    destruct H1 as (a1 & Hget1 & Hl1).
    destruct (storeGrows_entry w1
                (snd (forEach batch (fun b0 =>
                        storeTranslationM env (id b0) locale (f b0) (g b0)) w1))
                (id b) a1 locale) as (a' & e & Hget' & He & _); try done.
    { apply storeGrows_writeBack. }
    by exists a', e.
  - apply IH; [done|].
    destruct (storeGrows_get _ _ _ _ Hg1 Hget) as (a1 & Hget1 & _). by eexists.
Qed.

Lemma translateBatch_translates env batch locale w translated a :
  lingoDotDev w = true →
  localizeObject env (tick w) (buildTextObj batch) (batchSourceLocale batch) locale
    = Ok translated →
  a ∈ batch → is_Some (getArticle (id a) w) →
  ∃ a' e, getArticle (id a) (run (translateBatch env batch locale) w) = Some a'
          ∧ translations a' !! locale = Some e.
Proof.
  intros Hengine Hprov Hin [a0 Hget]. unfold run, translateBatch.
  rewrite (bind_run _ _ _ true) by (unfold gets; simpl; by rewrite Hengine).
  unfold gets. simpl. unfold tryCatch, mbind, M_bind.
  pose proof (storeGrows_awaitLocalizeObject env (buildTextObj batch)
                (batchSourceLocale batch) locale w) as Hg.
  destruct (awaitLocalizeObject env (buildTextObj batch)
              (batchSourceLocale batch) locale w) as [[tr|e] w1] eqn:E;
    unfold awaitLocalizeObject in E; injection E as E1 E2;
    change (tick (record_call (CLocalizeObject (buildTextObj batch)
                                 (batchSourceLocale batch) locale) w))
      with (tick w) in E1; rewrite Hprov in E1; [|discriminate E1].
  cbn [snd] in Hg. destruct (storeGrows_get _ _ _ _ Hg Hget) as (a1 & Hget1 & _).
  pose proof (writeBack_translates env
                (fun b => translatedOr tr (titleKey b) (title b))
                (fun b => translatedOr tr (descKey b) (description b))
                locale batch w1 a Hin (ex_intro _ a1 Hget1)) as H.
  cbn zeta in H.
  destruct (forEach batch _ w1) as [[[]|e] w2]; exact H.
Qed.

Lemma take_add_drop {A : Type} (l : list A) n m :
  take (n + m) l = take n l ++ take m (drop n l).
Proof.
  revert l. induction n as [|n IH]; intros [|x l]; simpl; try done.
  - by rewrite take_nil.
  - by rewrite IH.
Qed.

Lemma batchLoop_translates env fuel i needs locale w a :
  lingoDotDev w = true →
  (∀ n textObj src tgt, ∃ r, localizeObject env n textObj src tgt = Ok r) →
  (∀ b, b ∈ needs → is_Some (getArticle (id b) w)) →
  a ∈ take (fuel * BATCH_SIZE) (drop i needs) →
  ∃ a' e, getArticle (id a) (run (batchLoop env fuel i needs locale) w) = Some a'
          ∧ translations a' !! locale = Some e.
Proof.
  intros Hengine Hprov. revert i w Hengine.
  induction fuel as [|fuel IH]; intros i w Hengine Hstored Hin.
  { by apply elem_of_nil in Hin. }
  destruct (decide (i < length needs)%nat) as [Hi|Hi].
  2: { rewrite drop_ge, take_nil in Hin by lia. by apply elem_of_nil in Hin. }
  unfold run. rewrite (batchLoop_step env fuel i needs locale w Hi Hengine).
  set (batch := take BATCH_SIZE (drop i needs)).
  set (w1 := afterBatch env i needs locale w).
  assert (Hg1 : storeGrows w w1).
  { unfold w1, afterBatch. eapply storeGrows_trans.
    - apply (preserves_translateBatch storeGrows); grows_atoms.
    - unfold run. case_bool_decide; [apply storeGrows_sleep | apply storeGrows_refl]. }
  assert (He1 : lingoDotDev w1 = true).
  { destruct (evolvesBy_afterBatch env i needs locale w Hengine)
      as (stores & rest & Hev & _). by eapply evolvesBy_engine. }
  change (S fuel * BATCH_SIZE)%nat with (BATCH_SIZE + fuel * BATCH_SIZE)%nat in Hin.
  rewrite take_add_drop, drop_drop in Hin. fold batch in Hin.
  apply elem_of_app in Hin as [Hin|Hin].
  - destruct (Hprov (tick w) (buildTextObj batch) (batchSourceLocale batch) locale)
      as [translated Htr].
    assert (Ha : a ∈ needs).
    { eapply elem_of_sublist; [exact Hin|].
      etrans; [apply sublist_take | apply sublist_drop]. }
    destruct (translateBatch_translates env batch locale w translated a
                Hengine Htr Hin (Hstored a Ha)) as (a1 & e1 & Hget1 & He).
    assert (Hgs : storeGrows (run (translateBatch env batch locale) w) w1).
    { unfold w1, afterBatch. fold batch. unfold run.
      case_bool_decide; [apply storeGrows_sleep | apply storeGrows_refl]. }
    destruct (storeGrows_entry _ _ _ _ locale Hgs Hget1) as (a2 & e2 & Hget2 & He2 & _);
      [by eexists|].
    destruct (storeGrows_entry _ _ _ _ locale
                (storeGrows_batchLoop env fuel (i + BATCH_SIZE) needs locale w1) Hget2)
      as (a3 & e3 & Hget3 & He3 & _); [by eexists|].
    by exists a3, e3.
  - apply (IH (i + BATCH_SIZE)%nat w1 He1); [|done].
    intros b Hb. destruct (Hstored b Hb) as [b0 Hb0].
    destruct (storeGrows_get _ _ _ _ Hg1 Hb0) as (b1 & Hb1 & _). by eexists.
Qed.

(** For an enabled locale an article lacks the translation exactly when
    its translations have no entry of their own under the locale: the
    enabled locales are not names that the prototype chain defines. *)
Lemma lacksTranslation_enabled locale a :
  locale ∈ ENABLED_LOCALES →
  lacksTranslation locale a
  = match translations a !! locale with Some _ => false | None => true end.
Proof.
  intros Hin. unfold ENABLED_LOCALES in Hin.
  assert (Hcases : locale = str "en" ∨ locale = str "ar").
  { apply elem_of_cons in Hin as [->|Hin]; [by left|].
    apply elem_of_cons in Hin as [->|Hin]; [by right|].
    by apply elem_of_nil in Hin. }
  unfold lacksTranslation, lookupTranslation.
  destruct (translations a !! locale); [done|].
  destruct Hcases as [-> | ->];
    match goal with
    | |- context [inObjectPrototype ?l] =>
      replace (inObjectPrototype l) with false by (vm_compute; reflexivity)
    end;
    rewrite !bool_decide_false by (intros H; vm_compute in H; discriminate H);
    by destruct (translations a !! str "__proto__").
Qed.

Lemma processLocale_translates env locale w k a :
  locale ∈ ENABLED_LOCALES →
  wellFormed w → lingoDotDev w = true →
  (∀ n textObj src tgt, ∃ r, localizeObject env n textObj src tgt = Ok r) →
  getArticle k w = Some a → sourceLocale a ≠ locale →
  ∃ a' e, getArticle k (snd (processLocale env locale w)) = Some a'
          ∧ translations a' !! locale = Some e ∧ sameCoreFields a a'.
Proof.
  intros Henabled Hwf Hengine Hprov Hget Hsrc.
  destruct (translations a !! locale) as [e0|] eqn:Hl.
  { eapply storeGrows_entry; [apply storeGrows_processLocale|exact Hget|].
    rewrite Hl. by eexists. }
  pose proof (wellFormed_get _ _ _ Hwf Hget) as Hid. subst k.
  set (needs := needsTranslationOf locale (getUntranslatedArticles locale w)).
  assert (Ha : a ∈ needs).
  { unfold needs, needsTranslationOf, getUntranslatedArticles.
    apply list_elem_of_In, filter_In. split.
    - apply filter_In. split.
      + apply list_elem_of_In. unfold mapValues.
        apply (list_elem_of_fmap_2 snd _ (id a, a)).
        by apply assocGet_Some_elem.
      + by rewrite (lacksTranslation_enabled locale a Henabled), Hl.
    - apply negb_true_iff, bool_decide_eq_false. done. }
  destruct (processLocale_spec env locale w Hengine) as (_ & Hrun & _).
  cbn zeta in Hrun. fold needs in Hrun. rewrite Hrun.
  destruct (batchLoop_translates env (length needs) 0 needs locale w a Hengine Hprov)
    as (a' & e & Hget' & He).
  - intros b Hb. apply needsTranslation_elem in Hb as (Hb & _).
    rewrite (wellFormed_elem _ _ Hwf Hb). by eexists.
  - rewrite drop_0, take_ge; [done|]. unfold BATCH_SIZE. lia.
  - exists a', e. split; [done|]. split; [done|].
    destruct (storeGrows_get _ _ _ _ (storeGrows_batchLoop env (length needs) 0 needs locale w)
                Hget) as (a2 & Hget2 & Hc & _).
    unfold run in Hget'. rewrite Hget' in Hget2. by injection Hget2 as ->.
Qed.

Lemma cycle_translates (env : Env) (w : World) :
  wellFormed w → isProcessing w = false → lingoDotDev w = true →
  (∀ n textObj src tgt, ∃ r, localizeObject env n textObj src tgt = Ok r) →
  let w' := run (processQueue env) w in
  ∀ k a locale,
    getArticle k w = Some a → locale ∈ ENABLED_LOCALES → sourceLocale a ≠ locale →
    ∃ a' e, getArticle k w' = Some a' ∧ translations a' !! locale = Some e
            ∧ sameCoreFields a a'.
Proof.
  intros Hwf Hp Hengine Hprov w' k a locale Hget Hin Hsrc.
  pose proof Hin as Henabled.
  apply list_elem_of_split in Hin as (pre & post & Hsplit).
  destruct (cycle_decomposition env w pre locale post Hwf Hp Hengine Hsplit)
    as (HwfL & HeL & _).
  cbn zeta in HwfL, HeL.
  set (w0 := set_isProcessing true w) in *.
  set (wL := run (forEach pre (processLocale env)) w0) in *.
  assert (Hg0 : storeGrows w wL).
  { eapply storeGrows_trans; [apply (storeGrows_flag true)|].
    apply storeGrows_forEach_locales. }
  destruct (storeGrows_get _ _ _ _ Hg0 Hget) as (aL & HgetL & HcL & _).
  assert (HsrcL : sourceLocale aL ≠ locale).
  { destruct HcL as (_ & _ & _ & _ & _ & _ & _ & _ & _ & Hs & _). by rewrite <- Hs. }
  destruct (processLocale_translates env locale wL k aL Henabled HwfL HeL Hprov HgetL HsrcL)
    as (a1 & e1 & Hget1 & He1 & Hc1).
  assert (Hw' : w' = set_isProcessing false
                       (run (forEach post (processLocale env))
                            (snd (processLocale env locale wL)))).
  { unfold w', run. rewrite (processQueue_run env w Hp Hengine). cbn [snd].
    f_equal. fold w0. rewrite Hsplit. unfold run.
    destruct (forEach_locales_spec env pre w0) as (Hok & _); [done|done|].
    rewrite (forEach_app_run pre (locale :: post) _ w0 Hok).
    fold (run (forEach pre (processLocale env)) w0). fold wL.
    cbn [forEach]. unfold mbind, M_bind.
    destruct (processLocale_spec env locale wL HeL) as (HokL & _).
    destruct (processLocale env locale wL) as [res wL'].
    cbn [fst snd] in *. by subst res. }
  assert (Hg1 : storeGrows (snd (processLocale env locale wL)) w').
  { rewrite Hw'. eapply storeGrows_trans; [apply storeGrows_forEach_locales|].
    apply storeGrows_flag. }
  destruct (storeGrows_entry _ _ _ _ locale Hg1 Hget1) as (a2 & e2 & Hget2 & He2 & Hc2);
    [by eexists|].
  exists a2, e2. split; [done|]. split; [done|].
  eapply sameCoreFields_trans; [exact HcL|].
  by eapply sameCoreFields_trans.
Qed.

(** X22. A queue cycle in which the provider answers every request
    leaves every article that was stored when the cycle began with an
    entry for each enabled locale other than its own language. *)
Theorem queue_cycle_translates_all (env : Env) (w : World) :
  wellFormed w → isProcessing w = false → lingoDotDev w = true →
  (∀ n textObj src tgt, ∃ r, localizeObject env n textObj src tgt = Ok r) →
  let w' := run (processQueue env) w in
  ∀ k a locale,
    getArticle k w = Some a → locale ∈ ENABLED_LOCALES → sourceLocale a ≠ locale →
    ∃ a' e, getArticle k w' = Some a' ∧ translations a' !! locale = Some e.
Proof.
  intros Hwf Hp Hengine Hprov w' k a locale Hget Hin Hsrc.
  destruct (cycle_translates env w Hwf Hp Hengine Hprov k a locale Hget Hin Hsrc)
    as (a' & e & Hget' & He & _).
  by exists a', e.
Qed.

Lemma queue_cycle_translates_all_witness :
  ∃ a' e,
    getArticle (str "guid-1")
      (run (processQueue (constEnv (Throw []) (Ok ∅))) worldWithArticleOne) = Some a'
    ∧ translations a' !! str "ar" = Some e.
Proof.
  apply (queue_cycle_translates_all (constEnv (Throw []) (Ok ∅)) worldWithArticleOne)
    with (a := articleOne).
  - apply (wellFormed_articles (snd (upsertArticle articleOne initialWorld))); [done|].
    apply wellFormed_upsertArticle, wellFormed_initial.
  - reflexivity.
  - reflexivity.
  - intros n textObj src tgt. by exists ∅.
  - vm_compute. reflexivity.
  - right. left.
  - vm_compute. discriminate.
Defined.

(** X23. After a cycle in which the provider answered every request and
    during which no article was stored, the next cycle has nothing to do:
    it makes no call and leaves the state as it is. *)
Theorem second_cycle_is_idle (env env' : Env) (w : World) :
  wellFormed w → isProcessing w = false → lingoDotDev w = true →
  (∀ n textObj src tgt, ∃ r, localizeObject env n textObj src tgt = Ok r) →
  let w' := run (processQueue env) w in
  getArticleCount w' = getArticleCount w →
  processQueue env' w' = (Ok tt, w').
Proof.
  intros Hwf Hp Hengine Hprov w' Hcount.
  apply processQueue_fixed, forEach_locales_nothing. intros locale Hloc.
  change (getUntranslatedArticles locale (set_isProcessing true w'))
    with (getUntranslatedArticles locale w').
  destruct (needsTranslationOf locale (getUntranslatedArticles locale w'))
    as [|a' rest] eqn:Hneeds; [done|]. exfalso.
  assert (Ha' : a' ∈ needsTranslationOf locale (getUntranslatedArticles locale w'))
    by (rewrite Hneeds; by left).
  apply needsTranslation_elem in Ha' as (Hin & Hnone & Hsrc).
  assert (Hwf' : wellFormed w').
  { destruct (processQueue_spec env w Hwf) as (_ & new & Hev & _). by apply Hev. }
  pose proof (wellFormed_elem w' a' Hwf' Hin) as Hget'.
  destruct (storeGrows_processQueue env w) as (olds & news & Harts & Holds).
  fold (run (processQueue env) w) in Harts. fold w' in Harts.
  assert (Hnews : news = []).
  { unfold getArticleCount in Hcount.
    rewrite Harts, length_app, <- (Forall2_length _ _ _ Holds) in Hcount.
    destruct news; [done | simpl in Hcount; lia]. }
  subst news. rewrite app_nil_r in Harts. subst olds.
  assert (Hback : ∃ a, getArticle (id a') w = Some a ∧ sameCoreFields a a').
  { unfold getArticle. apply assocGet_Some_elem in Hget'.
    destruct Hwf as [Hnd _]. revert Hnd Hget'. clear -Holds.
    induction Holds as [|[k a] [k1 a1] m m' [Hk [Hc _]] Hrest IH]; intros Hnd Hin.
    { by apply elem_of_nil in Hin. }
    simpl in Hk. subst k1. csimpl in Hnd. apply NoDup_cons in Hnd as [Hk Hnd].
    apply elem_of_cons in Hin as [[= <- <-]|Hin].
    - exists a. simpl. by rewrite decide_True.
    - destruct (IH Hnd Hin) as (a0 & Hget0 & Hc0). exists a0. split; [|done].
      simpl. rewrite decide_False; [done|]. intros ->.
      apply Hk. apply assocGet_Some_elem in Hget0.
      by apply (list_elem_of_fmap_2 fst _ (id a', a0)). }
  destruct Hback as (a & Hget & Hcore).
  assert (Hsrc0 : sourceLocale a ≠ locale).
  { destruct Hcore as (_ & _ & _ & _ & _ & _ & _ & _ & _ & Hs & _). by rewrite Hs. }
  destruct (cycle_translates env w Hwf Hp Hengine Hprov (id a') a locale Hget Hloc Hsrc0)
    as (a2 & e & Hget2 & He & _).
  fold w' in Hget2. rewrite Hget' in Hget2. injection Hget2 as <-.
  by rewrite Hnone in He.
Qed.

Lemma second_cycle_is_idle_witness :
  let env := constEnv (Throw []) (Ok ∅) in
  let w' := run (processQueue env) worldWithArticleOne in
  processQueue sampleEnv w' = (Ok tt, w').
Proof.
  intros env w'.
  apply (second_cycle_is_idle env sampleEnv worldWithArticleOne).
  - apply (wellFormed_articles (snd (upsertArticle articleOne initialWorld))); [done|].
    apply wellFormed_upsertArticle, wellFormed_initial.
  - reflexivity.
  - reflexivity.
  - intros n textObj src tgt. by exists ∅.
  - vm_compute. reflexivity.
Defined.


(** ** The store over a whole run *)

(** X24. Whatever tasks have run since the start of the process, the
    stored articles have distinct ids, and [getArticle] returns each of
    them for its id. *)
Theorem stored_ids_distinct (env : Env) (tasks : list Task) :
  let w := runTasks env tasks initialWorld in
  NoDup (id <$> getAllArticles w)
  ∧ (∀ a, a ∈ getAllArticles w → getArticle (id a) w = Some a)
  ∧ (∀ k a, getArticle k w = Some a → id a = k ∧ a ∈ getAllArticles w).
Proof.
  intros w. pose proof (wellFormed_runTasks env tasks) as Hwf. fold w in Hwf.
  split; [rewrite (wellFormed_ids w Hwf); apply Hwf|].
  split; [intros a; by apply wellFormed_elem|].
  intros k a Hget. split; [by eapply wellFormed_get|].
  unfold getAllArticles, mapValues.
  apply (list_elem_of_fmap_2 snd _ (k, a)). by apply assocGet_Some_elem.
Qed.

(** ** translator.ts: the batches of a locale *)

Lemma batchesFrom_concat fuel i needs :
  (length needs ≤ i + fuel * BATCH_SIZE)%nat →
  concat (batchesFrom fuel i needs) = drop i needs.
Proof.
  revert i. induction fuel as [|fuel IH]; intros i Hlen.
  - simpl in *. rewrite drop_ge; [done | lia].
  - cbn [batchesFrom]. case_bool_decide as Hi.
    + cbn [concat]. rewrite IH by (unfold BATCH_SIZE in *; lia).
      rewrite <- drop_drop. apply take_drop.
    + rewrite drop_ge; [done | lia].
Qed.

Lemma batchesFrom_sizes fuel i needs :
  Forall (fun b => (0 < length b ≤ BATCH_SIZE)%nat ∧ b `sublist_of` needs)
         (batchesFrom fuel i needs).
Proof.
  revert i. induction fuel as [|fuel IH]; intros i; [constructor|].
  cbn [batchesFrom]. case_bool_decide as Hi; [|constructor].
  constructor; [|apply IH]. split.
  - rewrite length_take, length_drop. unfold BATCH_SIZE. lia.
  - etrans; [apply sublist_take | apply sublist_drop].
Qed.

(** X25. In the turn of a locale the queue sends one request per batch,
    whatever the provider answers; the batches, in order, make up the
    articles that need the translation, each of them once and in the
    order of the store, and every batch holds between 1 and 20
    articles. *)
Theorem processLocale_batches (env : Env) (locale : jsstring) (w : World) :
  lingoDotDev w = true →
  let needs := needsTranslationOf locale (getUntranslatedArticles locale w) in
  let w' := snd (processLocale env locale w) in
  ∃ batches,
    List.filter isLocalizeCall (newCalls w w') = map (requestFor locale) batches
    ∧ concat batches = needs
    ∧ Forall (fun b => (0 < length b ≤ BATCH_SIZE)%nat) batches.
Proof.
  intros Hengine needs w'.
  destruct (processLocale_spec env locale w Hengine) as (_ & _ & new & Hev & _ & Hreq).
  cbn zeta in *. fold needs in Hreq. fold w' in Hev.
  exists (batchesOf needs). rewrite (newCalls_evolvesBy _ _ _ Hev).
  split; [exact Hreq|]. split.
  - unfold batchesOf. rewrite batchesFrom_concat; [apply drop_0|].
    unfold BATCH_SIZE. lia.
  - eapply Forall_impl; [apply batchesFrom_sizes|]. by intros b [H _].
Qed.

Lemma processLocale_batches_witness :
  let w' := snd (processLocale firstBatchFailsEnv (str "ar") worldWith25) in
  ∃ batches,
    List.filter isLocalizeCall (newCalls worldWith25 w')
    = map (requestFor (str "ar")) batches
    ∧ length (concat batches) = 25%nat.
Proof.
  intros w'.
  destruct (processLocale_batches firstBatchFailsEnv (str "ar") worldWith25 eq_refl)
    as (batches & Hreq & Hcat & _).
  exists batches. split; [exact Hreq|]. rewrite Hcat. vm_compute. reflexivity.
Defined.

(** X26. With the two enabled locales, when every article that awaits
    translation is written in one of them, the source locale declared in
    a request is the language of every article of its batch. *)
Theorem requests_declare_the_source_locale (locale : jsstring)
    (untranslated batch : list StoredArticle) (a : StoredArticle) :
  locale ∈ ENABLED_LOCALES →
  (∀ b, b ∈ untranslated → sourceLocale b ∈ ENABLED_LOCALES) →
  batch ∈ batchesOf (needsTranslationOf locale untranslated) →
  a ∈ batch →
  batchSourceLocale batch = sourceLocale a.
Proof.
  intros Hloc Hsrc Hbatch Ha.
  assert (Hsub : batch `sublist_of` needsTranslationOf locale untranslated).
  { pose proof (batchesFrom_sizes
                  (length (needsTranslationOf locale untranslated)) 0
                  (needsTranslationOf locale untranslated)) as H.
    rewrite Forall_forall in H. by apply H. }
  assert (Hother : ∀ b, b ∈ batch →
            sourceLocale b ≠ locale ∧ sourceLocale b ∈ ENABLED_LOCALES).
  { intros b Hb. pose proof (elem_of_sublist _ _ _ Hb Hsub) as Hn. split.
    - by eapply needsTranslationOf_excludes.
    - apply Hsrc. eapply elem_of_sublist; [exact Hn|]. apply filter_sublist_of. }
  assert (Hsame : ∀ b c, b ∈ batch → c ∈ batch → sourceLocale b = sourceLocale c).
  { intros b c Hb Hc. destruct (Hother b Hb) as [Hb1 Hb2], (Hother c Hc) as [Hc1 Hc2].
    unfold ENABLED_LOCALES in *.
    repeat match goal with
           | H : _ ∈ _ :: _ |- _ => apply elem_of_cons in H as [H|H]
           | H : _ ∈ [] |- _ => by apply elem_of_nil in H
           end; congruence. }
  destruct batch as [|b batch]; [by apply elem_of_nil in Ha|].
  rewrite <- (Hsame b a) by (done || by left).
  unfold batchSourceLocale. destruct (Hother b) as [_ Hb]; [by left|].
  unfold ENABLED_LOCALES in Hb.
  apply elem_of_cons in Hb as [->|Hb]; [done|].
  apply elem_of_cons in Hb as [->|Hb]; [done|].
  by apply elem_of_nil in Hb.
Qed.

Lemma requests_declare_the_source_locale_witness :
  batchSourceLocale (map numberedArticle (seq 20 5)) = str "en".
Proof.
  apply (requests_declare_the_source_locale (str "ar")
           (map numberedArticle (seq 0 25)) (map numberedArticle (seq 20 5))
           (numberedArticle 22)).
  - right. left.
  - intros b Hb. apply list_elem_of_fmap in Hb as (n & -> & _). left.
  - assert (batchesOf (needsTranslationOf (str "ar") (map numberedArticle (seq 0 25)))
            = [map numberedArticle (seq 0 20); map numberedArticle (seq 20 5)]) as ->
      by (vm_compute; reflexivity).
    right. left.
  - do 2 right. left.
Defined.

(** ** scheduler.ts: items that come again *)

(** Whether an item is rejected, and the id it is stored under, depend
    on the item alone. *)
Lemma ingestItem_uniform item :
  (∃ e, ∀ env feed w, ingestItem env feed item w = (Throw e, w))
  ∨ (∃ i, ∀ env feed w, ∃ a,
        id a = i ∧ ingestItem env feed item w = upsertArticleM a (next_tick w)).
Proof.
  unfold ingestItem.
  destruct (rawGuidOf item) as [g|e]; [|left; by eexists].
  destruct (linkOf item) as [l|e]; [|left; by eexists].
  destruct (titleOf item) as [t|e]; [|left; by eexists].
  destruct (descriptionOf item) as [d|e]; [|left; by eexists].
  destruct (pubDateOf item) as [p|e]; [|left; by eexists].
  destruct (generateArticleId g l) as [i|e] eqn:Hid;
    [|left; exists e; intros env feed w; rewrite !liftRes_bind; by rewrite Hid].
  destruct (cleanHtml t) as [ct|e] eqn:Ht;
    [|left; exists e; intros env feed w;
      rewrite !liftRes_bind, Hid, liftRes_bind; by rewrite Ht].
  destruct (cleanHtml d) as [cd|e] eqn:Hd;
    [|left; exists e; intros env feed w;
      rewrite !liftRes_bind, Hid, liftRes_bind, Ht, liftRes_bind; by rewrite Hd].
  right. exists i. intros env feed w. eexists. split.
  2: { rewrite !liftRes_bind, Hid, liftRes_bind, Ht, liftRes_bind, Hd. reflexivity. }
  reflexivity.
Qed.

Lemma upsertArticle_mapHas a w :
  mapHas (id a) (articles (snd (upsertArticle a w))) = true.
Proof.
  destruct (mapHas (id a) (articles w)) eqn:E.
  - by rewrite (upsertArticle_present _ _ E).
  - unfold upsertArticle. rewrite E. cbn. apply mapHas_true.
    rewrite assocGet_mapSet_eq. by eexists.
Qed.

Lemma mapHas_app {V : Type} (m m' : list (jsstring * V)) k :
  mapHas k m = true → mapHas k (m ++ m') = true.
Proof.
  rewrite !mapHas_true. intros [v Hv]. exists v. by apply assocGet_app_Some.
Qed.

Lemma ingestItems_mapHas env feed items added w k :
  mapHas k (articles w) = true →
  mapHas k (articles (snd (ingestItems env feed items added w))) = true.
Proof.
  intros H. destruct (ingestItems_outcome env feed items added w) as (ups & -> & _).
  destruct (afterUpserts_frame ups w) as (_ & _ & _ & _ & _ & _ & news & -> & _).
  by apply mapHas_app.
Qed.

(** The items that the loop has gone through are stored. *)
Lemma ingestItems_ids_stored env feed items added w n :
  fst (ingestItems env feed items added w) = Ok n →
  Forall (fun item => ∃ i,
            (∀ env' feed' w', ∃ a,
                id a = i
                ∧ ingestItem env' feed' item w' = upsertArticleM a (next_tick w'))
            ∧ mapHas i (articles (snd (ingestItems env feed items added w))) = true)
         items.
Proof.
  revert added w. induction items as [|item items IH]; intros added w Hok; [constructor|].
  cbn [ingestItems] in *. unfold mbind, M_bind in *.
  destruct (ingestItem_uniform item) as [[e He]|[i Hi]].
  { rewrite He in Hok. discriminate Hok. }
  destruct (Hi env feed w) as (a & Hid & Ha). rewrite Ha in *.
  pose proof (upsertArticle_mapHas a (record_call (CUpsertArticle a) (next_tick w))) as Hhas.
  unfold upsertArticleM in *. cbn beta iota zeta in *.
  set (w1 := snd (upsertArticle a (record_call (CUpsertArticle a) (next_tick w)))) in *.
  constructor.
  - exists i. split; [exact Hi|]. apply ingestItems_mapHas. by rewrite <- Hid.
  - by apply IH.
Qed.

(** Items whose ids are stored go through the loop without effect on the
    article map. *)
Lemma ingestItems_known env feed items added w :
  Forall (fun item => ∃ i,
            (∀ env' feed' w', ∃ a,
                id a = i
                ∧ ingestItem env' feed' item w' = upsertArticleM a (next_tick w'))
            ∧ mapHas i (articles w) = true)
         items →
  fst (ingestItems env feed items added w) = Ok added
  ∧ articles (snd (ingestItems env feed items added w)) = articles w.
Proof.
  revert added w. induction items as [|item items IH]; intros added w Hall; [done|].
  apply Forall_cons in Hall as [(i & Hi & Hhas) Hall].
  cbn [ingestItems]. unfold mbind, M_bind.
  destruct (Hi env feed w) as (a & Hid & ->). subst i.
  unfold upsertArticleM. cbn beta iota zeta.
  rewrite (upsertArticle_present a (record_call (CUpsertArticle a) (next_tick w)))
    by exact Hhas.
  cbn [fst snd]. cbn beta iota.
  apply (IH added (record_call (CUpsertArticle a) (next_tick w))). exact Hall.
Qed.

(** X27. Items that the loop of a poll has gone through add nothing when
    they come again, in the same feed or in another one, whatever tasks
    have run in between: the loop completes, counts no new article and
    leaves the article map as it is. *)
Theorem ingestItems_again_adds_nothing (env : Env) (feed : FeedConfig)
    (items : list jsval) (added : nat) (w : World) (n : nat)
    (env2 : Env) (tasks : list Task)
    (env' : Env) (feed' : FeedConfig) (added' : nat) :
  fst (ingestItems env feed items added w) = Ok n →
  let w1 := snd (ingestItems env feed items added w) in
  let w2 := runTasks env2 tasks w1 in
  let r := ingestItems env' feed' items added' w2 in
  fst r = Ok added' ∧ articles (snd r) = articles w2.
Proof.
  intros Hok w1 w2 r. apply ingestItems_known.
  eapply Forall_impl; [exact (ingestItems_ids_stored env feed items added w n Hok)|].
  intros item (i & Hi & Hhas). exists i. split; [exact Hi|].
  fold w1 in Hhas. apply mapHas_true in Hhas as [a Ha]. apply mapHas_true.
  destruct (storeGrows_get w1 w2 i a (storeGrows_runTasks env2 tasks w1) Ha)
    as (a' & Ha' & _).
  by exists a'.
Qed.

Lemma ingestItems_again_adds_nothing_witness :
  let items := [rssItem "g-1" "One" "https://dohanews.co/1";
                rssItem "g-2" "Two" "https://dohanews.co/2"] in
  let w1 := snd (ingestItems sampleEnv sampleFeed items 0 initialWorld) in
  let w2 := runTasks sampleEnv [TInitTranslationQueue; TProcessQueue] w1 in
  fst (ingestItems twoPollsEnv sampleFeed items 0 w2) = Ok 0%nat
  ∧ articles (snd (ingestItems twoPollsEnv sampleFeed items 0 w2)) = articles w2.
Proof.
  intros items w1 w2.
  apply (ingestItems_again_adds_nothing sampleEnv sampleFeed items 0 initialWorld 2
           sampleEnv [TInitTranslationQueue; TProcessQueue] twoPollsEnv sampleFeed 0).
  vm_compute. reflexivity.
Defined.
